(** * Sketchdraw core: schema, layout and sketch SVG renderer

    A shallow embedding of the diagram engine (schema/parser, sequence
    and flow layout, seeded pseudo-random generator, SVG renderer) and
    the properties stated about it.

    Conventions of the embedding.
    - JavaScript numbers are kept abstract behind the interface [JsNum]:
      the renderer is written once, for every interpretation of the
      arithmetic and of the two number-to-text conversions.  Quantities
      that are integers by construction (string lengths, loop indices,
      the generator state, the whole sequence layout) are carried in [Z],
      where IEEE doubles are exact far beyond the sizes involved.
    - The module-level [seed] variable is threaded explicitly: a
      computation of type [M A] takes the seed and returns a result and
      the new seed.
    - A template literal is a list of pieces: literal text, a number
      printed with [toFixed(1)], or a number printed by the default
      conversion.  [flatten] gives the text.
    - A character is a code unit below 256; [String.length] is the
      JavaScript [length] on such strings. *)

From Stdlib Require Import String Ascii List ZArith QArith Qround Lia Bool DecimalString
  Permutation.
Import ListNotations.
Open Scope Z_scope.
Open Scope string_scope.

Set Implicit Arguments.

(* ------------------------------------------------------------------ *)
(** ** Strings *)

Module Str.

Definition chr (n : nat) : string := String (ascii_of_nat n) EmptyString.
(** the double quote and the line feed *)
Definition dq : string := chr 34.
Definition nl : string := chr 10.

Definition join (sep : string) (l : list string) : string := String.concat sep l.

Definition len (s : string) : Z := Z.of_nat (String.length s).

(** [s] is truthy in a JavaScript condition: it is not the empty string *)
Definition truthy (s : string) : bool :=
  match s with EmptyString => false | _ => true end.

Definition truthyOpt (o : option string) : bool :=
  match o with Some s => truthy s | None => false end.

(** [b] occurs in [a] as a contiguous run of characters *)
Definition Substr (b a : string) : Prop := exists p q, a = p ++ b ++ q.

(** [s.replace(/c/g, by)] for a single character [c] *)
Fixpoint replaceAllChar (c : ascii) (by_ : string) (s : string) : string :=
  match s with
  | EmptyString => EmptyString
  | String a r =>
      if Ascii.eqb a c then by_ ++ replaceAllChar c by_ r
      else String a (replaceAllChar c by_ r)
  end.

Fixpoint drop (n : nat) (s : string) : string :=
  match n, s with
  | O, _ => s
  | S k, EmptyString => EmptyString
  | S k, String _ r => drop k r
  end.

(** [s.replace(pat, by)] with a string pattern: the first occurrence only *)
Fixpoint replaceFirst (pat by_ : string) (s : string) : string :=
  if String.prefix pat s then by_ ++ drop (String.length pat) s
  else match s with
       | EmptyString => EmptyString
       | String a r => String a (replaceFirst pat by_ r)
       end.

(** the class [\s] restricted to code units below 256 *)
Definition isWs (c : ascii) : bool :=
  let n := nat_of_ascii c in
  (Nat.eqb n 9 || Nat.eqb n 10 || Nat.eqb n 11 || Nat.eqb n 12 || Nat.eqb n 13
   || Nat.eqb n 32 || Nat.eqb n 160)%bool.

(** [s.split(/\s+/)]: [cur] is the field being read, [inWs] tells that
    the previous character belonged to a separator *)
Fixpoint splitWsAux (s : string) (cur : string) (inWs : bool) : list string :=
  match s with
  | EmptyString => [cur]
  | String c r =>
      if isWs c then
        if inWs then splitWsAux r cur true
        else cur :: splitWsAux r EmptyString true
      else splitWsAux r (cur ++ String c EmptyString) false
  end.

Definition splitWs (s : string) : list string := splitWsAux s EmptyString false.

(** [s.padStart(2, "0")] *)
Definition padStart2 (s : string) : string :=
  match String.length s with
  | O => "00" ++ s
  | S O => "0" ++ s
  | _ => s
  end.

Definition ofZ (z : Z) : string := NilZero.string_of_int (Z.to_int z).
Definition ofNat (n : nat) : string := ofZ (Z.of_nat n).

End Str.

(* ------------------------------------------------------------------ *)
(** ** Numbers *)

(** The operations of JavaScript numbers the engine uses.  No law is
    assumed: what is proved about the renderer holds for every
    interpretation, IEEE doubles included. *)
Class JsNum : Type := {
  num : Type;
  ofQ : Q -> num;                    (* a numeric literal *)
  nadd : num -> num -> num;
  nsub : num -> num -> num;
  nmul : num -> num -> num;
  ndiv : num -> num -> num;
  nmin : num -> num -> num;          (* Math.min *)
  nmax : num -> num -> num;          (* Math.max *)
  nround : num -> num;               (* Math.round *)
  ncos : num -> num;
  nsin : num -> num;
  natan2 : num -> num -> num;
  npi : num;                         (* Math.PI *)
  isZero : num -> bool;              (* v === 0 *)
  gtb : num -> num -> bool;          (* a > b *)
  toStr : num -> string;             (* the text of a number inside a template literal *)
  toFixed1 : num -> string;          (* v.toFixed(1) *)
  parseInt16 : string -> num;        (* parseInt(s, 16) *)
  toStr16 : num -> string            (* v.toString(16) *)
}.

Definition ofZ {N : JsNum} (z : Z) : num := ofQ (inject_Z z).

(* ------------------------------------------------------------------ *)
(** ** The seed as explicit state *)

Definition M (A : Type) : Type := Z -> A * Z.

Definition ret {A} (a : A) : M A := fun s => (a, s).
Definition bind {A B} (m : M A) (k : A -> M B) : M B :=
  fun s => let (a, s1) := m s in k a s1.

Declare Scope rng_scope.
Delimit Scope rng_scope with rng.
Notation "x <- c1 ;; c2" := (bind c1 (fun x => c2))
  (at level 61, c1 at next level, right associativity) : rng_scope.
Notation "' pat <- c1 ;; c2" := (bind c1 (fun x => match x with pat => c2 end))
  (at level 61, pat pattern, c1 at next level, right associativity) : rng_scope.
Open Scope rng_scope.

(** the loops of the renderer: one call per element, in order *)
Fixpoint mapM {A B} (f : A -> M B) (l : list A) : M (list B) :=
  match l with
  | [] => ret []
  | a :: r => b <- f a ;; bs <- mapM f r ;; ret (b :: bs)
  end.

(** [for (let i = 0; i < l.length; i++)] with the index at hand *)
Fixpoint mapMi {A B} (f : nat -> A -> M B) (i : nat) (l : list A) : M (list B) :=
  match l with
  | [] => ret []
  | a :: r => b <- f i a ;; bs <- mapMi f (S i) r ;; ret (b :: bs)
  end.

(** a point [{ x, y }]; [T] is the type of numbers *)
Record XY (T : Type) : Type := mkXY { xy_x : T; xy_y : T }.

Section Rng.
Context {N : JsNum}.

Definition initialSeed : Z := 42.

Definition resetSeed : M unit := fun _ => (tt, initialSeed).

Definition pseudoRandom : M num :=
  fun seed =>
    let seed' := Z.rem (seed * 16807 + 0) 2147483647 in
    (ndiv (ofZ (seed' - 1)) (ofZ 2147483646), seed').

Definition jitter (value amount : num) : M num :=
  if isZero amount then ret value
  else r <- pseudoRandom ;;
       ret (nadd value (nmul (nmul (nsub r (ofQ 0.5)) (ofZ 2)) amount)).

Definition jitterPoint (x y amount : num) : M (XY num) :=
  jx <- jitter x amount ;;
  jy <- jitter y amount ;;
  ret (mkXY jx jy).

End Rng.

(* ------------------------------------------------------------------ *)
(** ** XML escaping *)

Definition escapeXml (str : string) : string :=
  Str.replaceAllChar "'" "&apos;"
    (Str.replaceAllChar (ascii_of_nat 34) "&quot;"
      (Str.replaceAllChar ">" "&gt;"
        (Str.replaceAllChar "<" "&lt;"
          (Str.replaceAllChar "&" "&amp;" str)))).

(* ------------------------------------------------------------------ *)
(** ** Insertion-ordered maps with string keys (JavaScript [Map]) *)

Module JsMap.

Definition t (V : Type) : Type := list (string * V).

Definition empty {V} : t V := [].

Fixpoint get {V} (k : string) (m : t V) : option V :=
  match m with
  | [] => None
  | (k', v) :: r => if String.eqb k k' then Some v else get k r
  end.

(** [m.set(k, v)]: an existing key keeps its place, a new key goes last *)
Fixpoint set {V} (k : string) (v : V) (m : t V) : t V :=
  match m with
  | [] => [(k, v)]
  | (k', v') :: r =>
      if String.eqb k k' then (k', v) :: r else (k', v') :: set k v r
  end.

Definition values {V} (m : t V) : list V := map snd m.

(** [for (const a of l) m.set(key(a), a)] *)
Definition ofList {A} (key : A -> string) (l : list A) : t A :=
  fold_left (fun m a => set (key a) a m) l empty.

End JsMap.

(* ------------------------------------------------------------------ *)
(** ** Schema types *)

Inductive ShapeType : Type :=
  | rectangle | ellipse | diamond | cylinder | cloud | hexagon | parallelogram.

Inductive EdgeStyle : Type := solid | dashed | dotted.

Inductive ArrowDirection : Type := forward | backward | both | none.

Inductive Theme : Type := hand_drawn | clean | minimal.

Inductive Direction : Type := TB | LR | BT | RL.

Inductive OutputFormat : Type := svg | png.

Record OutputOptions : Type := mkOutputOptions {
  oo_format : OutputFormat;
  oo_path : option string
}.

Record ParticipantDef : Type := mkParticipantDef {
  pd_id : string;
  pd_label : string;
  pd_color : option string
}.

Record MessageDef : Type := mkMessageDef {
  md_from : string;
  md_to : string;
  md_label : string;
  md_style : EdgeStyle;
  md_color : option string
}.

Record SequenceDiagramDef : Type := mkSequenceDiagramDef {
  sd_title : option string;
  sd_participants : list ParticipantDef;
  sd_messages : list MessageDef;
  sd_style : Theme;
  sd_output : option OutputOptions
}.

Record EdgeDef : Type := mkEdgeDef {
  ed_from : string;
  ed_to : string;
  ed_label : option string;
  ed_style : EdgeStyle;
  ed_direction : ArrowDirection;
  ed_color : option string
}.

Record GroupDef : Type := mkGroupDef {
  gd_id : string;
  gd_label : option string;
  gd_contains : list string;
  gd_color : option string
}.

(** Layout results.  [T] is the type of numbers: [num] for the renderer,
    [Z] where the sequence layout computes them. *)
Section LayoutTypes.
Variable T : Type.

Record LayoutNode : Type := mkLayoutNode {
  ln_id : string;
  ln_x : T;
  ln_y : T;
  ln_width : T;
  ln_height : T;
  ln_label : string;
  ln_shape : ShapeType;
  ln_color : option string;
  ln_textColor : option string
}.

Record LayoutEdge : Type := mkLayoutEdge {
  le_from : string;
  le_to : string;
  le_label : option string;
  le_style : EdgeStyle;
  le_direction : ArrowDirection;
  le_color : option string;
  le_points : list (XY T)
}.

Record LayoutGroup : Type := mkLayoutGroup {
  lg_id : string;
  lg_label : option string;
  lg_x : T;
  lg_y : T;
  lg_width : T;
  lg_height : T;
  lg_color : option string
}.

Record LayoutResult : Type := mkLayoutResult {
  lr_width : T;
  lr_height : T;
  lr_nodes : list LayoutNode;
  lr_edges : list LayoutEdge;
  lr_groups : list LayoutGroup
}.

Record SequenceParticipant : Type := mkSequenceParticipant {
  sp_id : string;
  sp_label : string;
  sp_x : T;
  sp_topY : T;
  sp_bottomY : T;
  sp_width : T;
  sp_color : option string
}.

Record SequenceMessage : Type := mkSequenceMessage {
  sm_from : string;
  sm_to : string;
  sm_label : string;
  sm_y : T;
  sm_style : EdgeStyle;
  sm_color : option string;
  sm_isSelfMessage : bool
}.

Record SequenceLayoutResult : Type := mkSequenceLayoutResult {
  slr_width : T;
  slr_height : T;
  slr_participants : list SequenceParticipant;
  slr_messages : list SequenceMessage
}.

End LayoutTypes.

(* ------------------------------------------------------------------ *)
(** ** The renderer *)

Section Render.
Context {N : JsNum}.

(** *** Template literals *)

Inductive piece : Type :=
  | Lit (s : string)        (* literal text, or an interpolated string *)
  | Fixed1 (v : num)        (* an interpolated [v.toFixed(1)] *)
  | Plain (v : num).        (* an interpolated number, default conversion *)

Definition rope : Type := list piece.

Definition pieceText (p : piece) : string :=
  match p with
  | Lit s => s
  | Fixed1 v => toFixed1 v
  | Plain v => toStr v
  end.

Fixpoint flatten (r : rope) : string :=
  match r with
  | [] => EmptyString
  | p :: r' => pieceText p ++ flatten r'
  end.

Definition rcat (l : list rope) : rope := List.concat l.

(** [l.join(sep)] *)
Fixpoint rjoin (sep : string) (l : list rope) : rope :=
  match l with
  | [] => []
  | r :: l' =>
      match l' with
      | [] => r
      | _ => rcat [r; [Lit sep]; rjoin sep l']
      end
  end.

Definition lit (s : string) : rope := [Lit s].
Definition fx (v : num) : rope := [Fixed1 v].
Definition pl (v : num) : rope := [Plain v].

(** [ name="v"] with its leading blank *)
Definition attr (name : string) (v : rope) : rope :=
  rcat [lit (" " ++ name ++ "=" ++ Str.dq); v; lit Str.dq].

(** *** Colour palette and themes *)

Definition PALETTE : list string :=
  ["#4ECDC4"; "#FF6B6B"; "#45B7D1"; "#96CEB4"; "#FFEAA7";
   "#DDA0DD"; "#98D8C8"; "#F7DC6F"; "#BB8FCE"; "#85C1E9"].

Definition paletteAt (colorIndex : nat) : string :=
  nth (Nat.modulo colorIndex (List.length PALETTE)) PALETTE EmptyString.

Record ThemeConfig : Type := mkThemeConfig {
  strokeWidth : num;
  jitterAmount : num;
  fillOpacity : num;
  fontFamily : string;
  doubleStroke : bool;
  cornerRadius : num
}.

Definition sansFamily : string :=
  Str.dq ++ "Inter" ++ Str.dq ++ ", " ++ Str.dq ++ "Helvetica" ++ Str.dq ++ ", "
  ++ Str.dq ++ "Arial" ++ Str.dq ++ ", sans-serif".

Definition getThemeConfig (theme : Theme) : ThemeConfig :=
  match theme with
  | hand_drawn =>
      {| strokeWidth := ofQ 1.5; jitterAmount := ofZ 2; fillOpacity := ofQ 0.15;
         fontFamily := Str.dq ++ "Segoe Print" ++ Str.dq ++ ", " ++ Str.dq
                       ++ "Comic Sans MS" ++ Str.dq ++ ", cursive";
         doubleStroke := true; cornerRadius := ofZ 0 |}
  | clean =>
      {| strokeWidth := ofQ 1.5; jitterAmount := ofZ 0; fillOpacity := ofQ 0.1;
         fontFamily := sansFamily;
         doubleStroke := false; cornerRadius := ofZ 3 |}
  | minimal =>
      {| strokeWidth := ofZ 1; jitterAmount := ofZ 0; fillOpacity := ofQ 0.05;
         fontFamily := sansFamily;
         doubleStroke := false; cornerRadius := ofZ 3 |}
  end.

(** *** SVG builder *)

Record SvgBuilder : Type := mkSvgBuilder {
  sb_elements : list rope;
  sb_defs : list rope;
  sb_width : num;
  sb_height : num
}.

Definition newSvgBuilder (width height : num) : SvgBuilder :=
  mkSvgBuilder [] [] width height.

Definition addElement (svgString : rope) (b : SvgBuilder) : SvgBuilder :=
  mkSvgBuilder (sb_elements b ++ [svgString])%list (sb_defs b) (sb_width b) (sb_height b).

Definition svgParts (b : SvgBuilder) : list rope :=
  let w := sb_width b in
  let h := sb_height b in
  ( [ rcat [lit "<svg"; attr "xmlns" (lit "http://www.w3.org/2000/svg");
            attr "viewBox" (rcat [lit "0 0 "; pl w; lit " "; pl h]);
            attr "width" (pl w); attr "height" (pl h); lit ">"] ]
    ++ (match sb_defs b with
        | [] => []
        | defs => [lit "  <defs>"] ++ map (fun d => rcat [lit "    "; d]) defs
                  ++ [lit "  </defs>"]
        end)
    ++ [ rcat [lit "  <rect"; attr "width" (pl w); attr "height" (pl h);
               attr "fill" (lit "white"); lit "/>"] ]
    ++ map (fun el => rcat [lit "  "; el]) (sb_elements b)
    ++ [ lit "</svg>" ] )%list.

Definition svgToString (b : SvgBuilder) : string :=
  flatten (rjoin Str.nl (svgParts b)).

(** *** Text *)

(** the loop of [wrapText]: the finished lines and the current line *)
Definition wrapStep (maxCharsPerLine : Z) (st : list string * string) (word : string)
  : list string * string :=
  let (lines, currentLine) := st in
  if (Str.len currentLine =? 0)%Z then (lines, word)
  else if (Str.len currentLine + 1 + Str.len word <=? maxCharsPerLine)%Z
       then (lines, currentLine ++ " " ++ word)
       else ((lines ++ [currentLine])%list, word).

Definition wrapText (text : string) (maxCharsPerLine : Z) : list string :=
  if (Str.len text <=? maxCharsPerLine)%Z then [text]
  else
    let words := Str.splitWs text in
    let (lines, currentLine) := fold_left (wrapStep maxCharsPerLine) words ([], EmptyString) in
    if (Str.len currentLine >? 0)%Z then (lines ++ [currentLine])%list else lines.

Definition renderText (x y : num) (text : string) (fontSize : num)
    (fontFamily : string) (color : string)
    (bold : bool) (maxCharsPerLine : option Z) : rope :=
  let escaped := escapeXml text in
  let boldAttr := if bold then attr "font-weight" (lit "bold") else [] in
  let maxChars := match maxCharsPerLine with Some m => m | None => 18 end in
  if (Str.len text >? 20)%Z then
    let lines := wrapText text maxChars in
    let lineHeight := nmul fontSize (ofQ 1.3) in
    let totalHeight := nmul (ofZ (Z.of_nat (List.length lines) - 1)) lineHeight in
    let startY := nsub y (ndiv totalHeight (ofZ 2)) in
    let tspan (i : nat) (line : string) : rope :=
      rcat [lit "<tspan"; attr "x" (pl x);
            attr "dy" (pl (match i with O => ofZ 0 | _ => lineHeight end));
            lit ">"; lit (escapeXml line); lit "</tspan>"] in
    let tspans := rjoin EmptyString (map (fun il => tspan (fst il) (snd il))
                                         (combine (seq 0 (List.length lines)) lines)) in
    rcat [lit "<text"; attr "x" (pl x); attr "y" (pl startY);
          attr "text-anchor" (lit "middle"); attr "dominant-baseline" (lit "central");
          lit " font-family='"; lit fontFamily; lit "'";
          attr "font-size" (pl fontSize); attr "fill" (lit color); boldAttr; lit ">";
          tspans; lit "</text>"]
  else
    rcat [lit "<text"; attr "x" (pl x); attr "y" (pl y);
          attr "text-anchor" (lit "middle"); attr "dominant-baseline" (lit "central");
          lit " font-family='"; lit fontFamily; lit "'";
          attr "font-size" (pl fontSize); attr "fill" (lit color); boldAttr; lit ">";
          lit escaped; lit "</text>"].

(** [s.replace('text-anchor="middle"', 'text-anchor="start"')] on a rendered text *)
Definition anchorStart (r : rope) : rope :=
  lit (Str.replaceFirst ("text-anchor=" ++ Str.dq ++ "middle" ++ Str.dq)
                        ("text-anchor=" ++ Str.dq ++ "start" ++ Str.dq)
                        (flatten r)).

(** *** Sketchy lines *)

Definition dashAttr (dashArray : option string) : rope :=
  match dashArray with
  | Some d => if Str.truthy d then attr "stroke-dasharray" (lit d) else []
  | None => []
  end.

(** [(a + b) / 2 + (pseudoRandom() - 0.5) * jitterAmount * 2] *)
Definition wobblyMid (a b amount : num) : M num :=
  r <- pseudoRandom ;;
  ret (nadd (ndiv (nadd a b) (ofZ 2)) (nmul (nmul (nsub r (ofQ 0.5)) amount) (ofZ 2))).

Definition sketchyLine (x1 y1 x2 y2 : num) (config : ThemeConfig)
    (strokeColor : string) (dashArray : option string) : M rope :=
  let j := jitterAmount config in
  let sw := strokeWidth config in
  if gtb j (ofZ 0) then
    mx <- wobblyMid x1 x2 j ;;
    my <- wobblyMid y1 y2 j ;;
    jx1 <- jitter x1 (nmul j (ofQ 0.5)) ;;
    jy1 <- jitter y1 (nmul j (ofQ 0.5)) ;;
    jx2 <- jitter x2 (nmul j (ofQ 0.5)) ;;
    jy2 <- jitter y2 (nmul j (ofQ 0.5)) ;;
    let dash := dashAttr dashArray in
    let first :=
      rcat [lit "<path";
            attr "d" (rcat [lit "M "; fx jx1; lit " "; fx jy1; lit " Q "; fx mx; lit " ";
                            fx my; lit " "; fx jx2; lit " "; fx jy2]);
            attr "fill" (lit "none"); attr "stroke" (lit strokeColor);
            attr "stroke-width" (pl sw); attr "stroke-linecap" (lit "round");
            dash; lit "/>"] in
    if doubleStroke config then
      mx2 <- wobblyMid x1 x2 j ;;
      my2 <- wobblyMid y1 y2 j ;;
      kx1 <- jitter x1 (nmul j (ofQ 0.3)) ;;
      ky1 <- jitter y1 (nmul j (ofQ 0.3)) ;;
      kx2 <- jitter x2 (nmul j (ofQ 0.3)) ;;
      ky2 <- jitter y2 (nmul j (ofQ 0.3)) ;;
      ret (rjoin Str.nl
             [first;
              rcat [lit "<path";
                    attr "d" (rcat [lit "M "; fx kx1; lit " "; fx ky1; lit " Q "; fx mx2;
                                    lit " "; fx my2; lit " "; fx kx2; lit " "; fx ky2]);
                    attr "fill" (lit "none"); attr "stroke" (lit strokeColor);
                    attr "stroke-width" (pl (nmul sw (ofQ 0.5)));
                    attr "stroke-linecap" (lit "round"); attr "opacity" (lit "0.3");
                    dash; lit "/>"]])
    else ret (rjoin Str.nl [first])
  else
    let dash := dashAttr dashArray in
    ret (rjoin Str.nl
           [rcat [lit "<line"; attr "x1" (fx x1); attr "y1" (fx y1);
                  attr "x2" (fx x2); attr "y2" (fx y2);
                  attr "stroke" (lit strokeColor); attr "stroke-width" (pl sw);
                  attr "stroke-linecap" (lit "round"); dash; lit "/>"]]).

(** consecutive pairs [(l[i], l[i+1])] *)
Definition adjacent {A} (l : list A) : list (A * A) := combine l (tl l).

Definition sketchyPolyline (points : list (XY num)) (config : ThemeConfig)
    (strokeColor : string) (dashArray : option string) : M rope :=
  if (List.length points <? 2)%nat then ret []
  else
    segments <- mapM (fun ab : XY num * XY num =>
                        let (a, b) := ab in
                        sketchyLine (xy_x a) (xy_y a) (xy_x b) (xy_y b)
                                    config strokeColor dashArray)
                     (adjacent points) ;;
    ret (rjoin Str.nl segments).

(** *** Shapes *)

(** [x y] and [x,y], both coordinates through [toFixed(1)] *)
Definition pxy (p : XY num) : rope := rcat [fx (xy_x p); lit " "; fx (xy_y p)].
Definition pcomma (p : XY num) : rope := rcat [fx (xy_x p); lit ","; fx (xy_y p)].

(** [M x y L x y ... Z] *)
Definition polyPath (pts : list (XY num)) : rope :=
  rcat [lit "M "; rjoin " L " (map pxy pts); lit " Z"].

(** the element [(l[i], l[(i + 1) % l.length])] for every index *)
Definition cyclic {A} (l : list A) : list (A * A) := combine l (tl l ++ firstn 1 l)%list.

(** the filled background and the sketchy border of a polygon *)
Definition sketchyPolygon (pts : list (XY num)) (fill : rope) (config : ThemeConfig)
    (strokeColor : string) (dashArray : option string) : M rope :=
  let fillPath :=
    rcat [lit "<path"; attr "d" (polyPath pts); fill; attr "stroke" (lit "none"); lit "/>"] in
  edges <- mapM (fun ab : XY num * XY num =>
                   let (a, b) := ab in
                   sketchyLine (xy_x a) (xy_y a) (xy_x b) (xy_y b) config strokeColor dashArray)
                (cyclic pts) ;;
  ret (rjoin Str.nl (fillPath :: edges)).

Definition fillAttrs (fillColor : string) (config : ThemeConfig) : rope :=
  rcat [attr "fill" (lit fillColor); attr "fill-opacity" (pl (fillOpacity config))].

Definition strokeAttrs (strokeColor : string) (config : ThemeConfig) : rope :=
  rcat [attr "stroke" (lit strokeColor); attr "stroke-width" (pl (strokeWidth config))].

Definition cleanPolygon (pts : list (XY num)) (fillColor strokeColor : string)
    (config : ThemeConfig) : rope :=
  rcat [lit "<polygon"; attr "points" (rjoin " " (map pcomma pts));
        fillAttrs fillColor config; strokeAttrs strokeColor config; lit "/>"].

Definition renderRectangle (x y width height : num) (fillColor strokeColor : string)
    (config : ThemeConfig) : M rope :=
  let j := jitterAmount config in
  if gtb j (ofZ 0) then
    tl <- jitterPoint x y j ;;
    tr <- jitterPoint (nadd x width) y j ;;
    br <- jitterPoint (nadd x width) (nadd y height) j ;;
    bl <- jitterPoint x (nadd y height) j ;;
    sketchyPolygon [tl; tr; br; bl] (fillAttrs fillColor config) config strokeColor None
  else
    ret (rcat [lit "<rect"; attr "x" (fx x); attr "y" (fx y);
               attr "width" (fx width); attr "height" (fx height);
               attr "rx" (pl (cornerRadius config)); attr "ry" (pl (cornerRadius config));
               fillAttrs fillColor config; strokeAttrs strokeColor config; lit "/>"]).

Definition origin : XY num := mkXY (ofZ 0) (ofZ 0).

(** [l[i]]; every use is within bounds *)
Definition at_ (l : list (XY num)) (i : nat) : XY num := nth i l origin.

Definition cleanEllipse (cx cy rx ry : num) (fillColor strokeColor : string)
    (config : ThemeConfig) : rope :=
  rcat [lit "<ellipse"; attr "cx" (fx cx); attr "cy" (fx cy);
        attr "rx" (fx rx); attr "ry" (fx ry);
        fillAttrs fillColor config; strokeAttrs strokeColor config; lit "/>"].

Definition renderEllipse (cx cy rx ry : num) (fillColor strokeColor : string)
    (config : ThemeConfig) : M rope :=
  let j := jitterAmount config in
  let sw := strokeWidth config in
  if gtb j (ofZ 0) then
    let segments := 8%nat in
    points <- mapM (fun i : nat =>
                      let angle := nmul (nmul (ndiv (ofZ (Z.of_nat i)) (ofZ (Z.of_nat segments)))
                                              npi) (ofZ 2) in
                      jx <- jitter (nmul rx (ncos angle)) j ;;
                      jy <- jitter (nmul ry (nsin angle)) j ;;
                      ret (mkXY (nadd cx jx) (nadd cy jy)))
                   (seq 0 segments) ;;
    curves <- mapM (fun i : nat =>
                      let curr := at_ points i in
                      let next := at_ points (Nat.modulo (i + 1) segments) in
                      let dx := nmul (nsub (xy_x next) (xy_x curr)) (ofQ 0.4) in
                      let dy := nmul (nsub (xy_y next) (xy_y curr)) (ofQ 0.4) in
                      a <- jitter dx (nmul j (ofQ 0.5)) ;;
                      b <- jitter dy (nmul j (ofQ 0.5)) ;;
                      c <- jitter dx (nmul j (ofQ 0.5)) ;;
                      d <- jitter dy (nmul j (ofQ 0.5)) ;;
                      ret (rcat [lit " C "; fx (nadd (xy_x curr) a); lit " ";
                                 fx (nadd (xy_y curr) b); lit ", ";
                                 fx (nsub (xy_x next) c); lit " ";
                                 fx (nsub (xy_y next) d); lit ", "; pxy next]))
                   (seq 0 segments) ;;
    let path := rcat [lit "M "; pxy (at_ points 0); rcat curves; lit " Z"] in
    let first :=
      rcat [lit "<path"; attr "d" path; fillAttrs fillColor config;
            strokeAttrs strokeColor config; attr "stroke-linecap" (lit "round"); lit "/>"] in
    if doubleStroke config then
      let offset := nmul j (ofQ 0.4) in
      tx <- jitter (ofZ 0) offset ;;
      ty <- jitter (ofZ 0) offset ;;
      ret (rjoin Str.nl
             [first;
              rcat [lit "<path"; attr "d" path; attr "fill" (lit "none");
                    attr "stroke" (lit strokeColor);
                    attr "stroke-width" (pl (nmul sw (ofQ 0.5)));
                    attr "stroke-linecap" (lit "round"); attr "opacity" (lit "0.3");
                    attr "transform" (rcat [lit "translate("; fx tx; lit ", "; fx ty; lit ")"]);
                    lit "/>"]])
    else ret (rjoin Str.nl [first])
  else ret (cleanEllipse cx cy rx ry fillColor strokeColor config).

Definition renderDiamond (x y width height : num) (fillColor strokeColor : string)
    (config : ThemeConfig) : M rope :=
  let j := jitterAmount config in
  let cx := nadd x (ndiv width (ofZ 2)) in
  let cy := nadd y (ndiv height (ofZ 2)) in
  top <- jitterPoint cx y j ;;
  right <- jitterPoint (nadd x width) cy j ;;
  bottom <- jitterPoint cx (nadd y height) j ;;
  left <- jitterPoint x cy j ;;
  if gtb j (ofZ 0) then
    sketchyPolygon [top; right; bottom; left] (fillAttrs fillColor config)
                   config strokeColor None
  else ret (cleanPolygon [top; right; bottom; left] fillColor strokeColor config).

Definition cylinderRy (height : num) : num := nmin (ofZ 15) (nmul height (ofQ 0.15)).

Definition renderCylinder (x y width height : num) (fillColor strokeColor : string)
    (config : ThemeConfig) : M rope :=
  let j := jitterAmount config in
  let cx := nadd x (ndiv width (ofZ 2)) in
  let ellipseRy := cylinderRy height in
  let bodyTop := nadd y ellipseRy in
  let bodyBottom := nsub (nadd y height) ellipseRy in
  let rx := ndiv width (ofZ 2) in
  let body :=
    rcat [lit "<rect"; attr "x" (fx x); attr "y" (fx bodyTop); attr "width" (fx width);
          attr "height" (fx (nsub bodyBottom bodyTop));
          fillAttrs fillColor config; attr "stroke" (lit "none"); lit "/>"] in
  if gtb j (ofZ 0) then
    e1 <- renderEllipse cx bodyBottom rx ellipseRy fillColor strokeColor config ;;
    l1 <- sketchyLine x bodyTop x bodyBottom config strokeColor None ;;
    l2 <- sketchyLine (nadd x width) bodyTop (nadd x width) bodyBottom config strokeColor None ;;
    e2 <- renderEllipse cx bodyTop rx ellipseRy fillColor strokeColor config ;;
    ret (rjoin Str.nl [body; e1; l1; l2; e2])
  else
    let line (lx : num) :=
      rcat [lit "<line"; attr "x1" (fx lx); attr "y1" (fx bodyTop);
            attr "x2" (fx lx); attr "y2" (fx bodyBottom);
            strokeAttrs strokeColor config; lit "/>"] in
    ret (rjoin Str.nl
           [body;
            cleanEllipse cx bodyBottom rx ellipseRy fillColor strokeColor config;
            line x; line (nadd x width);
            cleanEllipse cx bodyTop rx ellipseRy fillColor strokeColor config]).

(** [a + extent * k] and [a - extent * k] *)
Definition along (a extent : num) (k : Q) : num := nadd a (nmul extent (ofQ k)).
Definition back (a extent : num) (k : Q) : num := nsub a (nmul extent (ofQ k)).

(** one cubic segment of the cloud outline: two jittered control points,
    then the anchor it ends at *)
Definition cloudCurve (j ax ay bx_ by_ : num) (anchor : XY num) : M rope :=
  a <- jitter ax j ;;
  b <- jitter ay j ;;
  c <- jitter bx_ j ;;
  d <- jitter by_ j ;;
  ret (rcat [lit "C "; fx a; lit " "; fx b; lit ", "; fx c; lit " "; fx d; lit ", ";
             pxy anchor; lit " "]).

Definition renderCloud (x y width height : num) (fillColor strokeColor : string)
    (config : ThemeConfig) : M rope :=
  let j := jitterAmount config in
  let sw := strokeWidth config in
  let cx := nadd x (ndiv width (ofZ 2)) in
  let cy := nadd y (ndiv height (ofZ 2)) in
  let xw := along x width in
  let yh := along y height in
  top <- jitterPoint cx (yh 0.15%Q) j ;;
  tr <- jitterPoint (xw 0.82%Q) (yh 0.25%Q) j ;;
  right <- jitterPoint (xw 0.92%Q) (nadd cy (nmul height (ofQ 0.05))) j ;;
  br <- jitterPoint (xw 0.8%Q) (yh 0.8%Q) j ;;
  bottom <- jitterPoint cx (yh 0.88%Q) j ;;
  bl <- jitterPoint (xw 0.2%Q) (yh 0.8%Q) j ;;
  left <- jitterPoint (xw 0.08%Q) (nadd cy (nmul height (ofQ 0.05))) j ;;
  tl <- jitterPoint (xw 0.18%Q) (yh 0.25%Q) j ;;
  let xm := back x width in
  let ym := back y height in
  c1 <- cloudCurve j (xw 0.6%Q) (ym 0.05%Q) (xw 0.9%Q) (yh 0.05%Q) tr ;;
  c2 <- cloudCurve j (xw 1.05%Q) (yh 0.25%Q) (xw 1.02%Q) (yh 0.55%Q) right ;;
  c3 <- cloudCurve j (xw 1.0%Q) (yh 0.75%Q) (xw 0.9%Q) (yh 0.9%Q) br ;;
  c4 <- cloudCurve j (xw 0.65%Q) (yh 0.98%Q) (xw 0.35%Q) (yh 0.98%Q) bottom ;;
  c5 <- cloudCurve j (xw 0.3%Q) (yh 0.95%Q) (xw 0.1%Q) (yh 0.9%Q) bl ;;
  c6 <- cloudCurve j (xm 0.02%Q) (yh 0.75%Q) (xm 0.02%Q) (yh 0.55%Q) left ;;
  c7 <- cloudCurve j (xm 0.05%Q) (yh 0.25%Q) (xw 0.1%Q) (yh 0.05%Q) tl ;;
  c8 <- cloudCurve j (xw 0.25%Q) (ym 0.05%Q) (xw 0.4%Q) (ym 0.05%Q) top ;;
  let path := rcat [lit "M "; pxy top; lit " "; c1; c2; c3; c4; c5; c6; c7; c8; lit "Z"] in
  let first :=
    rcat [lit "<path"; attr "d" path; fillAttrs fillColor config;
          strokeAttrs strokeColor config; attr "stroke-linecap" (lit "round");
          attr "stroke-linejoin" (lit "round"); lit "/>"] in
  if doubleStroke config then
    tx <- jitter (ofZ 0) (ofZ 1) ;;
    ty <- jitter (ofZ 0) (ofZ 1) ;;
    ret (rjoin Str.nl
           [first;
            rcat [lit "<path"; attr "d" path; attr "fill" (lit "none");
                  attr "stroke" (lit strokeColor);
                  attr "stroke-width" (pl (nmul sw (ofQ 0.5)));
                  attr "stroke-linecap" (lit "round"); attr "opacity" (lit "0.2");
                  attr "transform" (rcat [lit "translate("; fx tx; lit ", "; fx ty; lit ")"]);
                  lit "/>"]])
  else ret (rjoin Str.nl [first]).

Definition renderHexagon (x y width height : num) (fillColor strokeColor : string)
    (config : ThemeConfig) : M rope :=
  let j := jitterAmount config in
  let cy := nadd y (ndiv height (ofZ 2)) in
  let inset := nmul width (ofQ 0.25) in
  p0 <- jitterPoint (nadd x inset) y j ;;
  p1 <- jitterPoint (nsub (nadd x width) inset) y j ;;
  p2 <- jitterPoint (nadd x width) cy j ;;
  p3 <- jitterPoint (nsub (nadd x width) inset) (nadd y height) j ;;
  p4 <- jitterPoint (nadd x inset) (nadd y height) j ;;
  p5 <- jitterPoint x cy j ;;
  let points := [p0; p1; p2; p3; p4; p5] in
  if gtb j (ofZ 0) then
    sketchyPolygon points (fillAttrs fillColor config) config strokeColor None
  else ret (cleanPolygon points fillColor strokeColor config).

Definition renderParallelogram (x y width height : num) (fillColor strokeColor : string)
    (config : ThemeConfig) : M rope :=
  let j := jitterAmount config in
  let skew := ofZ 15 in
  p0 <- jitterPoint (nadd x skew) y j ;;
  p1 <- jitterPoint (nadd x width) y j ;;
  p2 <- jitterPoint (nsub (nadd x width) skew) (nadd y height) j ;;
  p3 <- jitterPoint x (nadd y height) j ;;
  let points := [p0; p1; p2; p3] in
  if gtb j (ofZ 0) then
    sketchyPolygon points (fillAttrs fillColor config) config strokeColor None
  else ret (cleanPolygon points fillColor strokeColor config).

(** *** Colours and the shape dispatcher *)

Definition darkenChannel (cleaned : string) (start : nat) (amount : num) : string :=
  let c := parseInt16 (String.substring start 2 cleaned) in
  let d := nmax (ofZ 0) (nround (nmul c (nsub (ofZ 1) amount))) in
  Str.padStart2 (toStr16 d).

Definition darkenColor (hex : string) (amount : num) : string :=
  let cleaned := Str.replaceFirst "#" EmptyString hex in
  "#" ++ darkenChannel cleaned 0 amount ++ darkenChannel cleaned 2 amount
      ++ darkenChannel cleaned 4 amount.

(** the [switch] of [renderShape] *)
Definition shapeSvg (node : LayoutNode num) (fillColor strokeColor : string)
    (config : ThemeConfig) : M rope :=
  let x := ln_x node in
  let y := ln_y node in
  let width := ln_width node in
  let height := ln_height node in
  match ln_shape node with
  | rectangle => renderRectangle x y width height fillColor strokeColor config
  | ellipse =>
      renderEllipse (nadd x (ndiv width (ofZ 2))) (nadd y (ndiv height (ofZ 2)))
                    (ndiv width (ofZ 2)) (ndiv height (ofZ 2)) fillColor strokeColor config
  | diamond => renderDiamond x y width height fillColor strokeColor config
  | cylinder => renderCylinder x y width height fillColor strokeColor config
  | cloud => renderCloud x y width height fillColor strokeColor config
  | hexagon => renderHexagon x y width height fillColor strokeColor config
  | parallelogram => renderParallelogram x y width height fillColor strokeColor config
  end.

Definition labelY (node : LayoutNode num) : num :=
  let textY := nadd (ln_y node) (ndiv (ln_height node) (ofZ 2)) in
  match ln_shape node with
  | cylinder => nadd textY (ndiv (cylinderRy (ln_height node)) (ofZ 2))
  | cloud => nadd textY (nmul (ln_height node) (ofQ 0.04))
  | _ => textY
  end.

Definition renderShape (node : LayoutNode num) (config : ThemeConfig) (colorIndex : nat)
  : M rope :=
  let fillColor := match ln_color node with Some c => c | None => paletteAt colorIndex end in
  let strokeColor := darkenColor fillColor (ofQ 0.3) in
  let textColor := match ln_textColor node with Some c => c | None => "#333333" end in
  body <- shapeSvg node fillColor strokeColor config ;;
  let textX := nadd (ln_x node) (ndiv (ln_width node) (ofZ 2)) in
  let label := renderText textX (labelY node) (ln_label node) (ofZ 14)
                          (fontFamily config) textColor false (Some 18) in
  ret (rcat [lit "<g"; attr "class" (lit "node");
             attr "data-id" (lit (escapeXml (ln_id node))); lit ">"; lit Str.nl;
             body; lit Str.nl; label; lit Str.nl; lit "</g>"]).

(** *** Edges, arrowheads, groups *)

Definition getDashArray (style : EdgeStyle) : option string :=
  match style with
  | solid => None
  | dashed => Some "8,4"
  | dotted => Some "3,3"
  end.

Definition renderArrowhead (tipX tipY fromX fromY : num) (color : string)
    (config : ThemeConfig) : M rope :=
  let size := ofZ 10 in
  let angle := natan2 (nsub tipY fromY) (nsub tipX fromX) in
  let leftAngle := nadd angle (nmul npi (ofQ 0.82)) in
  let rightAngle := nsub angle (nmul npi (ofQ 0.82)) in
  let x1 := nadd tipX (nmul size (ncos leftAngle)) in
  let y1 := nadd tipY (nmul size (nsin leftAngle)) in
  let x2 := nadd tipX (nmul size (ncos rightAngle)) in
  let y2 := nadd tipY (nmul size (nsin rightAngle)) in
  let j := jitterAmount config in
  jx1 <- jitter x1 (nmul j (ofQ 0.5)) ;;
  jy1 <- jitter y1 (nmul j (ofQ 0.5)) ;;
  jx2 <- jitter x2 (nmul j (ofQ 0.5)) ;;
  jy2 <- jitter y2 (nmul j (ofQ 0.5)) ;;
  jtx <- jitter tipX (nmul j (ofQ 0.3)) ;;
  jty <- jitter tipY (nmul j (ofQ 0.3)) ;;
  ret (rcat [lit "<polygon";
             attr "points" (rcat [fx jtx; lit ","; fx jty; lit " "; fx jx1; lit ","; fx jy1;
                                  lit " "; fx jx2; lit ","; fx jy2]);
             attr "fill" (lit color); attr "stroke" (lit color);
             attr "stroke-width" (pl (nmul (strokeWidth config) (ofQ 0.5)));
             attr "stroke-linejoin" (lit "round"); lit "/>"]).

(** the white rectangle behind a label: [rx="3" ry="3" fill="white" ...] *)
Definition labelBackground (x y : num) (labelWidth labelHeight : Z) : rope :=
  rcat [lit "<rect"; attr "x" (fx x); attr "y" (fx y);
        attr "width" (fx (ofZ labelWidth)); attr "height" (fx (ofZ labelHeight));
        attr "rx" (lit "3"); attr "ry" (lit "3"); attr "fill" (lit "white");
        attr "fill-opacity" (lit "0.9"); attr "stroke" (lit "none"); lit "/>"].

Definition labelWidthOf (label : string) : Z := Z.max (Str.len label * 7 + 12) 30.

Definition edgeLabel (points : list (XY num)) (label : string) (config : ThemeConfig)
    (strokeColor : string) : list rope :=
  let n := List.length points in
  let midIdx := Nat.div n 2 in
  let mx := if Nat.eqb (Nat.modulo n 2) 0
            then ndiv (nadd (xy_x (at_ points (midIdx - 1))) (xy_x (at_ points midIdx))) (ofZ 2)
            else xy_x (at_ points midIdx) in
  let my := if Nat.eqb (Nat.modulo n 2) 0
            then ndiv (nadd (xy_y (at_ points (midIdx - 1))) (xy_y (at_ points midIdx))) (ofZ 2)
            else xy_y (at_ points midIdx) in
  let labelWidth := labelWidthOf label in
  let labelHeight := 20 in
  [ labelBackground (nsub mx (ndiv (ofZ labelWidth) (ofZ 2)))
                    (nsub (nsub my (ndiv (ofZ labelHeight) (ofZ 2))) (ofZ 2))
                    labelWidth labelHeight;
    renderText mx (nsub my (ofZ 2)) label (ofZ 12) (fontFamily config) strokeColor false None ].

Definition renderEdge (edge : LayoutEdge num) (nodesById : JsMap.t (LayoutNode num))
    (config : ThemeConfig) : M rope :=
  let points := le_points edge in
  let n := List.length points in
  if (n <? 2)%nat then ret []
  else
    let strokeColor := match le_color edge with Some c => c | None => "#666666" end in
    let dashArray := getDashArray (le_style edge) in
    line <- sketchyPolyline points config strokeColor dashArray ;;
    fwd <- match le_direction edge with
           | forward | both =>
               let tip := at_ points (n - 1) in
               let from := at_ points (n - 2) in
               a <- renderArrowhead (xy_x tip) (xy_y tip) (xy_x from) (xy_y from)
                                    strokeColor config ;;
               ret [a]
           | _ => ret []
           end ;;
    bwd <- match le_direction edge with
           | backward | both =>
               let tip := at_ points 0 in
               let from := at_ points 1 in
               a <- renderArrowhead (xy_x tip) (xy_y tip) (xy_x from) (xy_y from)
                                    strokeColor config ;;
               ret [a]
           | _ => ret []
           end ;;
    let lbl := match le_label edge with
               | Some label =>
                   if Str.truthy label then edgeLabel points label config strokeColor else []
               | None => []
               end in
    ret (rcat [lit "<g"; attr "class" (lit "edge");
               attr "data-from" (lit (escapeXml (le_from edge)));
               attr "data-to" (lit (escapeXml (le_to edge))); lit ">"; lit Str.nl;
               rjoin Str.nl ([line] ++ fwd ++ bwd ++ lbl)%list; lit Str.nl; lit "</g>"]).

(** the dashed frame of a group: sketchy, or a plain [rect] *)
Definition groupFrame (group : LayoutGroup num) (config : ThemeConfig) : M rope :=
  let x := lg_x group in
  let y := lg_y group in
  let width := lg_width group in
  let height := lg_height group in
  let strokeColor := match lg_color group with Some c => c | None => "#AAAAAA" end in
  let fillColor := match lg_color group with Some c => c | None => "#F5F5F5" end in
  let fill := rcat [attr "fill" (lit fillColor); attr "fill-opacity" (lit "0.05")] in
  let j := jitterAmount config in
  if gtb j (ofZ 0) then
    tl <- jitterPoint x y j ;;
    tr <- jitterPoint (nadd x width) y j ;;
    br <- jitterPoint (nadd x width) (nadd y height) j ;;
    bl <- jitterPoint x (nadd y height) j ;;
    sketchyPolygon [tl; tr; br; bl] fill config strokeColor (Some "6,4")
  else
    ret (rcat [lit "<rect"; attr "x" (fx x); attr "y" (fx y);
               attr "width" (fx width); attr "height" (fx height);
               attr "rx" (pl (cornerRadius config)); attr "ry" (pl (cornerRadius config));
               fill; strokeAttrs strokeColor config;
               attr "stroke-dasharray" (lit "6,4"); lit "/>"]).

Definition renderGroup (group : LayoutGroup num) (config : ThemeConfig) : M rope :=
  let x := lg_x group in
  let y := lg_y group in
  let strokeColor := match lg_color group with Some c => c | None => "#AAAAAA" end in
  frame <- groupFrame group config ;;
  let lbl := match lg_label group with
             | Some label =>
                 if Str.truthy label
                 then [anchorStart (renderText (nadd x (ofZ 12)) (nadd y (ofZ 14)) label (ofZ 12)
                                               (fontFamily config) strokeColor false None)]
                 else []
             | None => []
             end in
  ret (rcat [lit "<g"; attr "class" (lit "group");
             attr "data-id" (lit (escapeXml (lg_id group))); lit ">"; lit Str.nl;
             rjoin Str.nl (frame :: lbl); lit Str.nl; lit "</g>"]).

Definition renderTitle (title : string) (svgWidth : num) (config : ThemeConfig) : rope :=
  renderText (ndiv svgWidth (ofZ 2)) (ofZ 24) title (ofZ 18) (fontFamily config)
             "#333333" true None.

(** *** Sequence diagram helpers *)

Definition renderParticipantBox (participant : SequenceParticipant num) (yTop : num)
    (config : ThemeConfig) (colorIndex : nat) : M rope :=
  let boxHeight := ofZ 40 in
  let fillColor := match sp_color participant with
                   | Some c => c
                   | None => paletteAt colorIndex
                   end in
  let strokeColor := darkenColor fillColor (ofQ 0.3) in
  let bx := nsub (sp_x participant) (ndiv (sp_width participant) (ofZ 2)) in
  let by_ := yTop in
  box <- renderRectangle bx by_ (sp_width participant) boxHeight fillColor strokeColor config ;;
  ret (rjoin Str.nl
         [box;
          renderText (sp_x participant) (nadd by_ (ndiv boxHeight (ofZ 2)))
                     (sp_label participant) (ofZ 13) (fontFamily config) "#333333"
                     false (Some 18)]).

Definition renderLifeline (participant : SequenceParticipant num) (config : ThemeConfig)
  : M rope :=
  let startY := nadd (sp_topY participant) (ofZ 40) in
  let endY := sp_bottomY participant in
  sketchyLine (sp_x participant) startY (sp_x participant) endY config "#999999" (Some "6,4").

Definition selfLoop (pts : list (XY num)) (strokeColor : string) (config : ThemeConfig)
    (dashArray : option string) : rope :=
  rcat [lit "<path"; attr "d" (rcat [lit "M "; rjoin " L " (map pxy pts)]);
        attr "fill" (lit "none"); attr "stroke" (lit strokeColor);
        attr "stroke-width" (pl (strokeWidth config)); attr "stroke-linecap" (lit "round");
        dashAttr dashArray; lit "/>"].

Definition renderMessage (msg : SequenceMessage num)
    (participantsById : JsMap.t (SequenceParticipant num)) (config : ThemeConfig) : M rope :=
  match JsMap.get (sm_from msg) participantsById, JsMap.get (sm_to msg) participantsById with
  | Some fromP, Some toP =>
      let strokeColor := match sm_color msg with Some c => c | None => "#666666" end in
      let dashArray := getDashArray (sm_style msg) in
      parts <-
        (if sm_isSelfMessage msg then
           let sx := sp_x fromP in
           let sy := sm_y msg in
           let loopWidth := ofZ 30 in
           let loopHeight := ofZ 20 in
           loop <-
             (if gtb (jitterAmount config) (ofZ 0) then
                let j := jitterAmount config in
                p1 <- jitterPoint sx sy j ;;
                p2 <- jitterPoint (nadd sx loopWidth) sy j ;;
                p3 <- jitterPoint (nadd sx loopWidth) (nadd sy loopHeight) j ;;
                p4 <- jitterPoint sx (nadd sy loopHeight) j ;;
                ret (selfLoop [p1; p2; p3; p4] strokeColor config dashArray)
              else
                ret (selfLoop [mkXY sx sy; mkXY (nadd sx loopWidth) sy;
                               mkXY (nadd sx loopWidth) (nadd sy loopHeight);
                               mkXY sx (nadd sy loopHeight)]
                              strokeColor config dashArray)) ;;
           arrow <- renderArrowhead (sp_x fromP) (nadd (sm_y msg) loopHeight)
                                    (nadd (sp_x fromP) loopWidth) (nadd (sm_y msg) loopHeight)
                                    strokeColor config ;;
           let labelX := nadd (nadd sx loopWidth) (ofZ 8) in
           let labelY := nadd sy (ndiv loopHeight (ofZ 2)) in
           ret [loop; arrow;
                anchorStart (renderText labelX labelY (sm_label msg) (ofZ 12)
                                        (fontFamily config) strokeColor false None)]
         else
           let fromX := sp_x fromP in
           let toX := sp_x toP in
           let y := sm_y msg in
           line <- sketchyPolyline [mkXY fromX y; mkXY toX y] config strokeColor dashArray ;;
           arrow <- renderArrowhead toX y fromX y strokeColor config ;;
           let midX := ndiv (nadd fromX toX) (ofZ 2) in
           let labelY := nsub y (ofZ 8) in
           let labelWidth := labelWidthOf (sm_label msg) in
           let labelHeight := 18 in
           ret [line; arrow;
                labelBackground (nsub midX (ndiv (ofZ labelWidth) (ofZ 2)))
                                (nsub labelY (ndiv (ofZ labelHeight) (ofZ 2)))
                                labelWidth labelHeight;
                renderText midX labelY (sm_label msg) (ofZ 12) (fontFamily config)
                           strokeColor false None]) ;;
      ret (rcat [lit "<g"; attr "class" (lit "message"); lit ">"; lit Str.nl;
                 rjoin Str.nl parts; lit Str.nl; lit "</g>"])
  | _, _ => ret []
  end.

(** *** Public API *)

Definition titleOffsetOf (title : option string) : Z :=
  if Str.truthyOpt title then 40 else 0.

(** the frame shared by both renderers: the title, then the content,
    shifted down when there is a title *)
Definition assemble (width height : num) (title : option string) (config : ThemeConfig)
    (contentParts : list rope) : string :=
  let titleOffset := titleOffsetOf title in
  let svgWidth := width in
  let svgHeight := nadd height (ofZ titleOffset) in
  let svg0 := newSvgBuilder svgWidth svgHeight in
  let svg1 := match title with
              | Some t => if Str.truthy t then addElement (renderTitle t svgWidth config) svg0
                          else svg0
              | None => svg0
              end in
  let svg2 :=
    if (titleOffset >? 0)%Z then
      addElement (rcat [lit "<g";
                        attr "transform" (rcat [lit "translate(0, "; pl (ofZ titleOffset); lit ")"]);
                        lit ">"; lit Str.nl; rjoin Str.nl contentParts; lit Str.nl; lit "</g>"])
                 svg1
    else fold_left (fun b part => addElement part b) contentParts svg1 in
  svgToString svg2.

Definition flowContent (layout : LayoutResult num) (config : ThemeConfig) : M (list rope) :=
  let nodesById := JsMap.ofList (@ln_id num) (lr_nodes layout) in
  groups <- mapM (fun g => renderGroup g config) (lr_groups layout) ;;
  edges <- mapM (fun e => renderEdge e nodesById config) (lr_edges layout) ;;
  nodes <- mapMi (fun i n => renderShape n config i) 0 (lr_nodes layout) ;;
  ret (groups ++ edges ++ nodes)%list.

Definition renderFlowDiagram (layout : LayoutResult num) (theme : Theme)
    (title : option string) : M string :=
  _ <- resetSeed ;;
  let config := getThemeConfig theme in
  contentParts <- flowContent layout config ;;
  ret (assemble (lr_width layout) (lr_height layout) title config contentParts).

Definition sequenceContent (layout : SequenceLayoutResult num) (config : ThemeConfig)
  : M (list rope) :=
  let participantsById := JsMap.ofList (@sp_id num) (slr_participants layout) in
  lifelines <- mapM (fun p => renderLifeline p config) (slr_participants layout) ;;
  messages <- mapM (fun m => renderMessage m participantsById config) (slr_messages layout) ;;
  top <- mapMi (fun i p => renderParticipantBox p (sp_topY p) config i)
               0 (slr_participants layout) ;;
  bottom <- mapMi (fun i p => renderParticipantBox p (sp_bottomY p) config i)
                  0 (slr_participants layout) ;;
  ret (lifelines ++ messages ++ top ++ bottom)%list.

Definition renderSequenceDiagram (layout : SequenceLayoutResult num) (theme : Theme)
    (title : option string) : M string :=
  _ <- resetSeed ;;
  let config := getThemeConfig theme in
  contentParts <- sequenceContent layout config ;;
  ret (assemble (slr_width layout) (slr_height layout) title config contentParts).

End Render.

(* ------------------------------------------------------------------ *)
(** ** Exact numbers

    An interpretation of [JsNum] by exact rationals, used to evaluate the
    renderer on concrete inputs and to bound the generator's output.
    [None] is NaN, and also stands for what exact arithmetic does not
    represent (a division by zero, the trigonometric functions and pi).
    On integers and halves of moderate size it computes what IEEE doubles
    compute, and it prints integers and short decimals as JavaScript
    does.  Where a decimal is involved that doubles do not represent
    exactly, a double result may differ from the exact one in its last
    digits; what is evaluated below (integer positions, black fills) does
    not depend on such digits. *)

Module Exact.

Definition lift2 (f : Q -> Q -> Q) (a b : option Q) : option Q :=
  match a, b with
  | Some x, Some y => Some (Qred (f x y))
  | _, _ => None
  end.

Definition qdiv (a b : option Q) : option Q :=
  match a, b with
  | Some x, Some y => if Qeq_bool y 0 then None else Some (Qred (x / y))
  | _, _ => None
  end.

Definition qmin (x y : Q) : Q := if Qle_bool x y then x else y.
Definition qmax (x y : Q) : Q := if Qle_bool x y then y else x.

(** [Math.round]: the integer nearest to [x], ties upwards *)
Definition qround (a : option Q) : option Q :=
  match a with
  | Some x => Some (inject_Z (Qfloor (x + (1 # 2))))
  | None => None
  end.

Definition qisZero (a : option Q) : bool :=
  match a with Some x => Qeq_bool x 0 | None => false end.

Definition qgtb (a b : option Q) : bool :=
  match a, b with
  | Some x, Some y => negb (Qle_bool x y)
  | _, _ => false
  end.

(** the decimal digits of [r / d] after the point, for [0 <= r < d] *)
Fixpoint fracDigits (fuel : nat) (r d : Z) : string :=
  match fuel with
  | O => EmptyString
  | S f =>
      if (r =? 0)%Z then EmptyString
      else Str.ofZ (r * 10 / d) ++ fracDigits f ((r * 10) mod d) d
  end.

Definition showQ (q : Q) : string :=
  let n := Qnum (Qred q) in
  let d := Zpos (Qden (Qred q)) in
  let a := Z.abs n in
  (if (n <? 0)%Z then "-" else EmptyString)
  ++ Str.ofZ (a / d)
  ++ (if (a mod d =? 0)%Z then EmptyString else "." ++ fracDigits 20 (a mod d) d).

Definition qtoStr (a : option Q) : string :=
  match a with Some x => showQ x | None => "NaN" end.

(** [toFixed(1)]: the nearest tenth, ties away from zero, the sign first *)
Definition showFixed1 (q : Q) : string :=
  let neg := negb (Qle_bool 0 q) in
  let a := if neg then Qopp q else q in
  let n := Qfloor (a * 10 + (1 # 2)) in
  (if neg then "-" else EmptyString) ++ Str.ofZ (n / 10) ++ "." ++ Str.ofZ (n mod 10).

Definition qtoFixed1 (a : option Q) : string :=
  match a with Some x => showFixed1 x | None => "NaN" end.

Definition hexDigits : string := "0123456789abcdef".

Definition hexValue (c : ascii) : option Z :=
  let n := Z.of_nat (nat_of_ascii c) in
  if ((48 <=? n) && (n <=? 57))%Z%bool then Some (n - 48)
  else if ((97 <=? n) && (n <=? 102))%Z%bool then Some (n - 87)
  else if ((65 <=? n) && (n <=? 70))%Z%bool then Some (n - 55)
  else None.

(** the value of the longest prefix of hexadecimal digits, if any *)
Fixpoint parseHexAux (s : string) (acc : option Z) : option Z :=
  match s with
  | EmptyString => acc
  | String c r =>
      match hexValue c with
      | Some v => parseHexAux r (Some (match acc with Some a => a * 16 + v | None => v end))
      | None => acc
      end
  end.

Definition qparseInt16 (s : string) : option Q :=
  match parseHexAux s None with
  | Some z => Some (inject_Z z)
  | None => None
  end.

Fixpoint hexAux (fuel : nat) (z : Z) (acc : string) : string :=
  match fuel with
  | O => acc
  | S f =>
      let digit := match String.get (Z.to_nat (z mod 16)) hexDigits with
                   | Some c => String c EmptyString
                   | None => EmptyString
                   end in
      if (z / 16 =? 0)%Z then digit ++ acc else hexAux f (z / 16) (digit ++ acc)
  end.

(** [toString(16)] of a non-negative integer (the only values that reach it) *)
Definition qtoStr16 (a : option Q) : string :=
  match a with
  | Some x => hexAux 64 (Qfloor x) EmptyString
  | None => "NaN"
  end.

#[export] Instance exact : JsNum := {|
  num := option Q;
  ofQ := fun q => Some (Qred q);
  nadd := lift2 Qplus;
  nsub := lift2 Qminus;
  nmul := lift2 Qmult;
  ndiv := qdiv;
  nmin := lift2 qmin;
  nmax := lift2 qmax;
  nround := qround;
  ncos := fun _ => None;
  nsin := fun _ => None;
  natan2 := fun _ _ => None;
  npi := None;
  isZero := qisZero;
  gtb := qgtb;
  toStr := qtoStr;
  toFixed1 := qtoFixed1;
  parseInt16 := qparseInt16;
  toStr16 := qtoStr16
|}.

End Exact.

(* ------------------------------------------------------------------ *)
(** ** Results and errors *)

Inductive result (E A : Type) : Type :=
  | Ok (a : A)
  | Err (e : E).
Arguments Ok {E A} a.
Arguments Err {E A} e.

Definition rbind {E A B} (r : result E A) (k : A -> result E B) : result E B :=
  match r with
  | Ok a => k a
  | Err e => Err e
  end.

Declare Scope res_scope.
Delimit Scope res_scope with res.
Notation "x <- c1 ;; c2" := (rbind c1 (fun x => c2))
  (at level 61, c1 at next level, right associativity) : res_scope.

Fixpoint rmapi {E A B} (f : nat -> A -> result E B) (i : nat) (l : list A)
  : result E (list B) :=
  match l with
  | [] => Ok []
  | a :: r =>
      rbind (f i a) (fun b => rbind (rmapi f (S i) r) (fun bs => Ok (b :: bs)))
  end.

(** where the schema failed, and why (the first issue found) *)
Record SchemaError : Type := mkSchemaError {
  se_path : list string;
  se_message : string
}.

(* ------------------------------------------------------------------ *)
(** ** Schema and parser *)

Section Schema.
Context {N : JsNum}.
Local Open Scope res_scope.

(** a raw input value; an absent field is [undefined] *)
#[warnings="-register-all"]
Inductive json : Type :=
  | JNull
  | JBool (b : bool)
  | JNum (v : num)
  | JStr (s : string)
  | JArr (items : list json)
  | JObj (fields : list (string * json)).

Definition field (k : string) (fields : list (string * json)) : option json :=
  JsMap.get k fields.

Record NodeDef : Type := mkNodeDef {
  nd_id : string;
  nd_label : string;
  nd_shape : ShapeType;
  nd_color : option string;
  nd_textColor : option string;
  nd_width : option num;
  nd_height : option num
}.

Record FlowDiagramDef : Type := mkFlowDiagramDef {
  fd_title : option string;
  fd_nodes : list NodeDef;
  fd_edges : list EdgeDef;
  fd_groups : list GroupDef;
  fd_style : Theme;
  fd_direction : Direction;
  fd_output : option OutputOptions
}.

Inductive DiagramDef : Type :=
  | Flow (d : FlowDiagramDef)
  | Sequence (d : SequenceDiagramDef).

Definition parser (A : Type) : Type := list string -> option json -> result SchemaError A.

Definition fail {A} (path : list string) (msg : string) : result SchemaError A :=
  Err (mkSchemaError path msg).

(** [z.string()] *)
Definition zString : parser string :=
  fun path j =>
    match j with
    | Some (JStr s) => Ok s
    | None => fail path "Required"
    | _ => fail path "Expected string"
    end.

(** [z.number()] *)
Definition zNumber : parser num :=
  fun path j =>
    match j with
    | Some (JNum v) => Ok v
    | None => fail path "Required"
    | _ => fail path "Expected number"
    end.

Fixpoint lookupEnum {A} (s : string) (table : list (string * A)) : option A :=
  match table with
  | [] => None
  | (k, a) :: r => if String.eqb s k then Some a else lookupEnum s r
  end.

(** [z.enum([...])] *)
Definition zEnum {A} (table : list (string * A)) : parser A :=
  fun path j =>
    match j with
    | Some (JStr s) =>
        match lookupEnum s table with
        | Some a => Ok a
        | None => fail path "Invalid enum value"
        end
    | None => fail path "Required"
    | _ => fail path "Invalid enum value"
    end.

(** [.optional()] *)
Definition zOptional {A} (p : parser A) : parser (option A) :=
  fun path j =>
    match j with
    | None => Ok None
    | Some _ => a <- p path j ;; Ok (Some a)
    end.

(** [.default(d)] *)
Definition zDefault {A} (p : parser A) (d : A) : parser A :=
  fun path j =>
    match j with
    | None => Ok d
    | Some _ => p path j
    end.

(** [z.array(p)]: any number of items, each checked by [p] *)
Definition zArray {A} (p : parser A) : parser (list A) :=
  fun path j =>
    match j with
    | Some (JArr items) =>
        rmapi (fun i item => p (path ++ [Str.ofNat i])%list (Some item)) 0%nat items
    | None => fail path "Required"
    | _ => fail path "Expected array"
    end.

(** [z.object({...})]: [k] reads the fields *)
Definition zObject {A} (k : list string -> list (string * json) -> result SchemaError A)
  : parser A :=
  fun path j =>
    match j with
    | Some (JObj fields) => k path fields
    | None => fail path "Required"
    | _ => fail path "Expected object"
    end.

Definition at_field {A} (p : parser A) (name : string) (path : list string)
    (fields : list (string * json)) : result SchemaError A :=
  p (path ++ [name])%list (field name fields).

Definition ShapeTypeSchema : parser ShapeType :=
  zEnum [("rectangle", rectangle); ("ellipse", ellipse); ("diamond", diamond);
         ("cylinder", cylinder); ("cloud", cloud); ("hexagon", hexagon);
         ("parallelogram", parallelogram)].

Definition EdgeStyleSchema : parser EdgeStyle :=
  zEnum [("solid", solid); ("dashed", dashed); ("dotted", dotted)].

Definition ArrowDirectionSchema : parser ArrowDirection :=
  zEnum [("forward", forward); ("backward", backward); ("both", both); ("none", none)].

Definition ThemeSchema : parser Theme :=
  zEnum [("hand-drawn", hand_drawn); ("clean", clean); ("minimal", minimal)].

Definition OutputFormatSchema : parser OutputFormat :=
  zEnum [("svg", svg); ("png", png)].

Definition DirectionSchema : parser Direction :=
  zEnum [("TB", TB); ("LR", LR); ("BT", BT); ("RL", RL)].

Definition NodeSchema : parser NodeDef :=
  zObject (fun path o =>
    id <- at_field zString "id" path o ;;
    label <- at_field zString "label" path o ;;
    shape <- at_field (zDefault ShapeTypeSchema rectangle) "shape" path o ;;
    color <- at_field (zOptional zString) "color" path o ;;
    textColor <- at_field (zOptional zString) "textColor" path o ;;
    width <- at_field (zOptional zNumber) "width" path o ;;
    height <- at_field (zOptional zNumber) "height" path o ;;
    Ok (mkNodeDef id label shape color textColor width height)).

Definition EdgeSchema : parser EdgeDef :=
  zObject (fun path o =>
    from <- at_field zString "from" path o ;;
    to <- at_field zString "to" path o ;;
    label <- at_field (zOptional zString) "label" path o ;;
    style <- at_field (zDefault EdgeStyleSchema solid) "style" path o ;;
    direction <- at_field (zDefault ArrowDirectionSchema forward) "direction" path o ;;
    color <- at_field (zOptional zString) "color" path o ;;
    Ok (mkEdgeDef from to label style direction color)).

Definition GroupSchema : parser GroupDef :=
  zObject (fun path o =>
    id <- at_field zString "id" path o ;;
    label <- at_field (zOptional zString) "label" path o ;;
    contains <- at_field (zArray zString) "contains" path o ;;
    color <- at_field (zOptional zString) "color" path o ;;
    Ok (mkGroupDef id label contains color)).

Definition ParticipantSchema : parser ParticipantDef :=
  zObject (fun path o =>
    id <- at_field zString "id" path o ;;
    label <- at_field zString "label" path o ;;
    color <- at_field (zOptional zString) "color" path o ;;
    Ok (mkParticipantDef id label color)).

Definition MessageSchema : parser MessageDef :=
  zObject (fun path o =>
    from <- at_field zString "from" path o ;;
    to <- at_field zString "to" path o ;;
    label <- at_field zString "label" path o ;;
    style <- at_field (zDefault EdgeStyleSchema solid) "style" path o ;;
    color <- at_field (zOptional zString) "color" path o ;;
    Ok (mkMessageDef from to label style color)).

Definition OutputOptionsSchema : parser OutputOptions :=
  zObject (fun path o =>
    format <- at_field (zDefault OutputFormatSchema svg) "format" path o ;;
    path_ <- at_field (zOptional zString) "path" path o ;;
    Ok (mkOutputOptions format path_)).

(** the fields of [FlowDiagramSchema] but its literal [type] *)
Definition FlowDiagramSchema (path : list string) (o : list (string * json))
  : result SchemaError FlowDiagramDef :=
  title <- at_field (zOptional zString) "title" path o ;;
  nodes <- at_field (zArray NodeSchema) "nodes" path o ;;
  edges <- at_field (zDefault (zArray EdgeSchema) []) "edges" path o ;;
  groups <- at_field (zDefault (zArray GroupSchema) []) "groups" path o ;;
  style <- at_field (zDefault ThemeSchema hand_drawn) "style" path o ;;
  direction <- at_field (zDefault DirectionSchema TB) "direction" path o ;;
  output <- at_field (zOptional OutputOptionsSchema) "output" path o ;;
  Ok (mkFlowDiagramDef title nodes edges groups style direction output).

(** the fields of [SequenceDiagramSchema] but its literal [type] *)
Definition SequenceDiagramSchema (path : list string) (o : list (string * json))
  : result SchemaError SequenceDiagramDef :=
  title <- at_field (zOptional zString) "title" path o ;;
  participants <- at_field (zArray ParticipantSchema) "participants" path o ;;
  messages <- at_field (zArray MessageSchema) "messages" path o ;;
  style <- at_field (zDefault ThemeSchema hand_drawn) "style" path o ;;
  output <- at_field (zOptional OutputOptionsSchema) "output" path o ;;
  Ok (mkSequenceDiagramDef title participants messages style output).

(** [z.discriminatedUnion("type", [...])] *)
Definition DiagramSchema : parser DiagramDef :=
  zObject (fun path o =>
    match field "type" o with
    | Some (JStr "flow") => d <- FlowDiagramSchema path o ;; Ok (Flow d)
    | Some (JStr "sequence") => d <- SequenceDiagramSchema path o ;; Ok (Sequence d)
    | _ => fail (path ++ ["type"])%list "Invalid discriminator value"
    end).

Definition parseDiagram (input : json) : result SchemaError DiagramDef :=
  DiagramSchema [] (Some input).

End Schema.

(* ------------------------------------------------------------------ *)
(** ** Sequence layout

    Every quantity here is an integer (a string length times ten, sums of
    constants), so the layout is computed in [Z].  Widths are even, hence
    halving them is exact. *)

Module SequenceLayout.

Definition PADDING : Z := 40.
Definition PARTICIPANT_BOX_HEIGHT : Z := 40.
Definition PARTICIPANT_GAP : Z := 60.
Definition PARTICIPANT_MIN_WIDTH : Z := 100.
Definition PARTICIPANT_CHAR_WIDTH : Z := 10.
Definition PARTICIPANT_LABEL_PADDING : Z := 40.
Definition TITLE_HEIGHT : Z := 40.
Definition MESSAGE_SPACING : Z := 50.
Definition SELF_MESSAGE_HEIGHT_OFFSET : Z := 30.
Definition LIFELINE_BOTTOM_PADDING : Z := 40.

Definition computeParticipantWidth (label : string) : Z :=
  Z.max PARTICIPANT_MIN_WIDTH
        (Str.len label * PARTICIPANT_CHAR_WIDTH + PARTICIPANT_LABEL_PADDING).

(** the loop over participants: the centres so far and the cursor *)
Definition placeStep (st : list Z * Z) (w : Z) : list Z * Z :=
  let (centerXs, cursorX) := st in
  let halfW := w / 2 in
  ((centerXs ++ [cursorX + halfW])%list, cursorX + w + PARTICIPANT_GAP).

(** the loop over messages: the laid-out messages so far and the next y *)
Definition messageStep (st : list (SequenceMessage Z) * Z) (msg : MessageDef)
  : list (SequenceMessage Z) * Z :=
  let (layoutMessages, messageY) := st in
  let isSelfMessage := String.eqb (md_from msg) (md_to msg) in
  ((layoutMessages ++
     [mkSequenceMessage (md_from msg) (md_to msg) (md_label msg) messageY
                        (md_style msg) (md_color msg) isSelfMessage])%list,
   messageY + (if isSelfMessage then MESSAGE_SPACING + SELF_MESSAGE_HEIGHT_OFFSET
               else MESSAGE_SPACING)).

Definition startYOf (title : option string) : Z :=
  if Str.truthyOpt title then PADDING + TITLE_HEIGHT else PADDING.

Definition layoutMessagesOf (startY : Z) (messageDefs : list MessageDef)
  : list (SequenceMessage Z) :=
  let messageTopY := startY + PARTICIPANT_BOX_HEIGHT + MESSAGE_SPACING in
  fst (fold_left messageStep messageDefs ([], messageTopY)).

Definition layoutSequenceDiagram (diagram : SequenceDiagramDef) : SequenceLayoutResult Z :=
  let title := sd_title diagram in
  let participantDefs := sd_participants diagram in
  let messageDefs := sd_messages diagram in
  let startY := startYOf title in
  let widths := map (fun p => computeParticipantWidth (pd_label p)) participantDefs in
  let centerXs := fst (fold_left placeStep widths ([], PADDING)) in
  let participantMap :=
    fold_left (fun m ip => JsMap.set (pd_id (snd ip)) (fst ip) m)
              (combine (seq 0 (List.length participantDefs)) participantDefs)
              (@JsMap.empty nat) in
  let layoutMessages := layoutMessagesOf startY messageDefs in
  let lastMsg := List.last (map Some layoutMessages) None in
  let lastMessageY :=
    match lastMsg with
    | Some m => sm_y m
    | None => startY + PARTICIPANT_BOX_HEIGHT
    end in
  let lastMessageBottomY :=
    match lastMsg with
    | Some m => if sm_isSelfMessage m then sm_y m + SELF_MESSAGE_HEIGHT_OFFSET
                else lastMessageY
    | None => lastMessageY
    end in
  let lifelineBottomY := lastMessageBottomY + LIFELINE_BOTTOM_PADDING in
  let layoutParticipants :=
    map (fun pcw : ParticipantDef * (Z * Z) =>
           let (p, cw) := pcw in
           mkSequenceParticipant (pd_id p) (pd_label p) (fst cw) startY lifelineBottomY
                                 (snd cw) (pd_color p))
        (combine participantDefs (combine centerXs widths)) in
  let totalWidth :=
    if (0 <? List.length participantDefs)%nat
    then List.last centerXs 0 + List.last widths 0 / 2 + PADDING
    else PADDING * 2 in
  let totalHeight := lifelineBottomY + PADDING in
  mkSequenceLayoutResult totalWidth totalHeight layoutParticipants layoutMessages.

End SequenceLayout.

(* ------------------------------------------------------------------ *)
(** ** Flow layout *)

Module FlowLayout.

Definition PADDING : Z := 40.
Definition NODE_MIN_WIDTH : Z := 120.
Definition NODE_HEIGHT : Z := 60.
Definition CHAR_WIDTH_PX : Z := 10.
Definition NODE_HORIZONTAL_PADDING : Z := 40.
Definition NODE_SPACING : Z := 50.
Definition LAYER_SPACING : Z := 80.
Definition GROUP_PADDING : Z := 30.

Definition estimateNodeWidth (label : string) : Z :=
  let textWidth := Str.len label * CHAR_WIDTH_PX in
  Z.max NODE_MIN_WIDTH (textWidth + NODE_HORIZONTAL_PADDING).

Definition mapDirection (direction : Direction) : string :=
  match direction with
  | TB => "DOWN"
  | LR => "RIGHT"
  | BT => "UP"
  | RL => "LEFT"
  end.

(** [for (group of groups) for (nodeId of group.contains) map.set(nodeId, group.id)] *)
Definition buildNodeToGroupMap (groups : list GroupDef) : JsMap.t string :=
  fold_left (fun m group =>
               fold_left (fun m' nodeId => JsMap.set nodeId (gd_id group) m')
                         (gd_contains group) m)
            groups JsMap.empty.

Section WithNumbers.
Context {N : JsNum}.

(** *** The graph exchanged with the layout service *)

Record ElkEdgeSection : Type := mkElkEdgeSection {
  startPoint : XY num;
  endPoint : XY num;
  bendPoints : option (list (XY num))
}.

Record ElkExtendedEdge : Type := mkElkExtendedEdge {
  ee_id : string;
  ee_sources : list string;
  ee_targets : list string;
  ee_labels : list string;
  ee_sections : option (list ElkEdgeSection)
}.

#[warnings="-register-all"]
Inductive ElkNode : Type := mkElkNode {
  en_id : string;
  en_x : option num;
  en_y : option num;
  en_width : option num;
  en_height : option num;
  en_labels : list string;
  en_layoutOptions : list (string * string);
  en_children : option (list ElkNode);
  en_edges : option (list ElkExtendedEdge)
}.

Record Box : Type := mkBox {
  bx_x : num;
  bx_y : num;
  bx_width : num;
  bx_height : num
}.

(** [v ?? 0] *)
Definition orZero (v : option num) : num :=
  match v with Some a => a | None => ofZ 0 end.

Definition toElkChildNode (node : NodeDef) : ElkNode :=
  let width := match nd_width node with
               | Some w => w
               | None => ofZ (estimateNodeWidth (nd_label node))
               end in
  let height := match nd_height node with Some h => h | None => ofZ NODE_HEIGHT end in
  mkElkNode (nd_id node) None None (Some width) (Some height) [nd_label node] [] None None.

Definition edgeId (index : nat) (from to : string) : string :=
  "e" ++ Str.ofNat index ++ "_" ++ from ++ "_" ++ to.

Definition toElkEdge (edge : EdgeDef) (index : nat) : ElkExtendedEdge :=
  mkElkExtendedEdge (edgeId index (ed_from edge) (ed_to edge))
                    [ed_from edge] [ed_to edge]
                    (match ed_label edge with
                     | Some l => if Str.truthy l then [l] else []
                     | None => []
                     end)
                    None.

Definition extractRoutePoints (sections : option (list ElkEdgeSection)) : list (XY num) :=
  match sections with
  | None => []
  | Some l =>
      flat_map (fun section =>
                  [mkXY (xy_x (startPoint section)) (xy_y (startPoint section))]
                  ++ match bendPoints section with
                     | Some bps => map (fun bp => mkXY (xy_x bp) (xy_y bp)) bps
                     | None => []
                     end
                  ++ [mkXY (xy_x (endPoint section)) (xy_y (endPoint section))])%list
               l
  end.

(** [child.children && child.children.length > 0] *)
Definition isCompound (child : ElkNode) : bool :=
  match en_children child with
  | Some (_ :: _) => true
  | _ => false
  end.

(** the [walk] of [collectNodePositions]; [positions] is the map it fills *)
Fixpoint walkNodes (node : ElkNode) (offsetX offsetY : num) (positions : JsMap.t Box)
  {struct node} : JsMap.t Box :=
  match en_children node with
  | Some children =>
      (fix each (l : list ElkNode) (positions : JsMap.t Box) {struct l} : JsMap.t Box :=
         match l with
         | [] => positions
         | child :: rest =>
             let cx := nadd (orZero (en_x child)) offsetX in
             let cy := nadd (orZero (en_y child)) offsetY in
             let cw := orZero (en_width child) in
             let ch := orZero (en_height child) in
             each rest
               (if isCompound child then walkNodes child cx cy positions
                else JsMap.set (en_id child) (mkBox cx cy cw ch) positions)
         end) children positions
  | None => positions
  end.

Definition collectNodePositions (root : ElkNode) : JsMap.t Box :=
  walkNodes root (ofZ 0) (ofZ 0) JsMap.empty.

Definition collectGroupPositions (root : ElkNode) : JsMap.t Box :=
  match en_children root with
  | None => JsMap.empty
  | Some children =>
      fold_left (fun positions child =>
                   if isCompound child
                   then JsMap.set (en_id child)
                                  (mkBox (orZero (en_x child)) (orZero (en_y child))
                                         (orZero (en_width child)) (orZero (en_height child)))
                                  positions
                   else positions)
                children JsMap.empty
  end.

Definition routesOfEdges (edges : option (list ElkExtendedEdge)) (offsetX offsetY : num)
    (routes : JsMap.t (list (XY num))) : JsMap.t (list (XY num)) :=
  match edges with
  | Some l =>
      fold_left (fun routes edge =>
                   let rawPoints := extractRoutePoints (ee_sections edge) in
                   let adjustedPoints :=
                     map (fun p => mkXY (nadd (xy_x p) offsetX) (nadd (xy_y p) offsetY))
                         rawPoints in
                   JsMap.set (ee_id edge) adjustedPoints routes)
                l routes
  | None => routes
  end.

(** the [walk] of [collectEdgeRoutes] *)
Fixpoint walkEdges (node : ElkNode) (offsetX offsetY : num)
    (routes : JsMap.t (list (XY num))) {struct node} : JsMap.t (list (XY num)) :=
  let routes1 := routesOfEdges (en_edges node) offsetX offsetY routes in
  match en_children node with
  | Some children =>
      (fix each (l : list ElkNode) (routes : JsMap.t (list (XY num))) {struct l}
         : JsMap.t (list (XY num)) :=
         match l with
         | [] => routes
         | child :: rest =>
             let cx := nadd (orZero (en_x child)) offsetX in
             let cy := nadd (orZero (en_y child)) offsetY in
             each rest (walkEdges child cx cy routes)
         end) children routes1
  | None => routes1
  end.

Definition collectEdgeRoutes (root : ElkNode) : JsMap.t (list (XY num)) :=
  walkEdges root (ofZ 0) (ofZ 0) JsMap.empty.

(** *** Building the input graph *)

Definition groupPaddingOption : string :=
  "[top=" ++ Str.ofZ GROUP_PADDING ++ ",left=" ++ Str.ofZ GROUP_PADDING
  ++ ",bottom=" ++ Str.ofZ GROUP_PADDING ++ ",right=" ++ Str.ofZ GROUP_PADDING ++ "]".

Definition newGroupNode (group : GroupDef) : ElkNode :=
  mkElkNode (gd_id group) None None None None
            (match gd_label group with
             | Some l => if Str.truthy l then [l] else []
             | None => []
             end)
            [("elk.padding", groupPaddingOption)]
            (Some []) (Some []).

(** [groupNode.children.push(elkChild)] *)
Definition pushChild (elkChild : ElkNode) (groupNode : ElkNode) : ElkNode :=
  mkElkNode (en_id groupNode) (en_x groupNode) (en_y groupNode) (en_width groupNode)
            (en_height groupNode) (en_labels groupNode) (en_layoutOptions groupNode)
            (Some (match en_children groupNode with Some c => c | None => [] end
                   ++ [elkChild])%list)
            (en_edges groupNode).

(** one node: into its group's compound node, or among the root children *)
Definition assignStep (nodeToGroup : JsMap.t string)
    (st : JsMap.t ElkNode * list ElkNode) (node : NodeDef)
  : JsMap.t ElkNode * list ElkNode :=
  let (groupElkNodes, rootChildren) := st in
  let elkChild := toElkChildNode node in
  match JsMap.get (nd_id node) nodeToGroup with
  | Some groupId =>
      match (if Str.truthy groupId then JsMap.get groupId groupElkNodes else None) with
      | Some groupNode => (JsMap.set groupId (pushChild elkChild groupNode) groupElkNodes,
                           rootChildren)
      | None => (groupElkNodes, (rootChildren ++ [elkChild])%list)
      end
  | None => (groupElkNodes, (rootChildren ++ [elkChild])%list)
  end.

Definition rootLayoutOptions (direction : Direction) : list (string * string) :=
  [("elk.algorithm", "layered");
   ("elk.direction", mapDirection direction);
   ("elk.spacing.nodeNode", Str.ofZ NODE_SPACING);
   ("elk.layered.spacing.nodeNodeBetweenLayers", Str.ofZ LAYER_SPACING);
   ("elk.hierarchyHandling", "INCLUDE_CHILDREN");
   ("elk.edgeRouting", "ORTHOGONAL");
   ("elk.layered.mergeEdges", "false")].

Definition buildRootGraph (diagram : FlowDiagramDef) : ElkNode :=
  let nodes := fd_nodes diagram in
  let edges := fd_edges diagram in
  let groups := fd_groups diagram in
  let nodeToGroup := buildNodeToGroupMap groups in
  let groupElkNodes0 :=
    fold_left (fun m group => JsMap.set (gd_id group) (newGroupNode group) m)
              groups JsMap.empty in
  let (groupElkNodes, rootChildren0) :=
    fold_left (assignStep nodeToGroup) nodes (groupElkNodes0, []) in
  let rootChildren := (rootChildren0 ++ JsMap.values groupElkNodes)%list in
  let elkEdges := map (fun ie : nat * EdgeDef => toElkEdge (snd ie) (fst ie))
                      (combine (seq 0 (List.length edges)) edges) in
  mkElkNode "root" None None None None [] (rootLayoutOptions (fd_direction diagram))
            (Some rootChildren) (Some elkEdges).

(** *** Reading the result *)

Definition pad (v : num) : num := nadd v (ofZ PADDING).

Definition layoutNodeOf (nodePositions : JsMap.t Box) (nodeDef : NodeDef) : LayoutNode num :=
  let pos := JsMap.get (nd_id nodeDef) nodePositions in
  mkLayoutNode (nd_id nodeDef)
    (pad (match pos with Some b => bx_x b | None => ofZ 0 end))
    (pad (match pos with Some b => bx_y b | None => ofZ 0 end))
    (match pos with Some b => bx_width b | None => ofZ (estimateNodeWidth (nd_label nodeDef)) end)
    (match pos with Some b => bx_height b | None => ofZ NODE_HEIGHT end)
    (nd_label nodeDef) (nd_shape nodeDef) (nd_color nodeDef) (nd_textColor nodeDef).

(** the centre of a positioned node, padded: a fallback end point *)
Definition centreOf (pos : option Box) : list (XY num) :=
  match pos with
  | Some b => [mkXY (pad (nadd (bx_x b) (ndiv (bx_width b) (ofZ 2))))
                    (pad (nadd (bx_y b) (ndiv (bx_height b) (ofZ 2))))]
  | None => []
  end.

Definition edgePoints (nodePositions : JsMap.t Box) (edgeRoutes : JsMap.t (list (XY num)))
    (i : nat) (edgeDef : EdgeDef) : list (XY num) :=
  let rawPoints := match JsMap.get (edgeId i (ed_from edgeDef) (ed_to edgeDef)) edgeRoutes with
                   | Some r => r
                   | None => []
                   end in
  let points := map (fun p => mkXY (pad (xy_x p)) (pad (xy_y p))) rawPoints in
  match points with
  | [] => (centreOf (JsMap.get (ed_from edgeDef) nodePositions)
           ++ centreOf (JsMap.get (ed_to edgeDef) nodePositions))%list
  | _ => points
  end.

Definition layoutEdgeOf (nodePositions : JsMap.t Box) (edgeRoutes : JsMap.t (list (XY num)))
    (i : nat) (edgeDef : EdgeDef) : LayoutEdge num :=
  mkLayoutEdge (ed_from edgeDef) (ed_to edgeDef) (ed_label edgeDef) (ed_style edgeDef)
               (ed_direction edgeDef) (ed_color edgeDef)
               (edgePoints nodePositions edgeRoutes i edgeDef).

Definition layoutGroupOf (groupPositions : JsMap.t Box) (groupDef : GroupDef)
  : LayoutGroup num :=
  let pos := JsMap.get (gd_id groupDef) groupPositions in
  mkLayoutGroup (gd_id groupDef) (gd_label groupDef)
    (pad (match pos with Some b => bx_x b | None => ofZ 0 end))
    (pad (match pos with Some b => bx_y b | None => ofZ 0 end))
    (match pos with Some b => bx_width b | None => ofZ 0 end)
    (match pos with Some b => bx_height b | None => ofZ 0 end)
    (gd_color groupDef).

(** what [layoutFlowDiagram] makes of the service's answer *)
Definition readLayout (diagram : FlowDiagramDef) (result : ElkNode) : LayoutResult num :=
  let nodePositions := collectNodePositions result in
  let groupPositions := collectGroupPositions result in
  let edgeRoutes := collectEdgeRoutes result in
  let edges := fd_edges diagram in
  let graphWidth := orZero (en_width result) in
  let graphHeight := orZero (en_height result) in
  mkLayoutResult
    (nadd graphWidth (ofZ (PADDING * 2)))
    (nadd graphHeight (ofZ (PADDING * 2)))
    (map (layoutNodeOf nodePositions) (fd_nodes diagram))
    (map (fun ie : nat * EdgeDef => layoutEdgeOf nodePositions edgeRoutes (fst ie) (snd ie))
         (combine (seq 0 (List.length edges)) edges))
    (map (layoutGroupOf groupPositions) (fd_groups diagram)).

(** the layered-layout service: it answers with the positioned graph, or fails *)
Variable elkLayout : ElkNode -> result string ElkNode.

Definition layoutFlowDiagram (diagram : FlowDiagramDef) : result string (LayoutResult num) :=
  rbind (elkLayout (buildRootGraph diagram)) (fun result => Ok (readLayout diagram result)).

End WithNumbers.
End FlowLayout.

(* ------------------------------------------------------------------ *)
(** ** The engine *)

Section Engine.
Context {N : JsNum}.

(** the two outside services: the layered layout and the rasteriser *)
Variable elkLayout : FlowLayout.ElkNode -> result string FlowLayout.ElkNode.
Variable svgToPng : string -> result string string.

Inductive EngineError : Type :=
  | SchemaFailure (e : SchemaError)
  | LayoutFailure (reason : string)
  | PngFailure (reason : string).

Record GenerateResult : Type := mkGenerateResult {
  gr_svg : string;
  gr_png : option string
}.

(** the sequence layout's integers, as numbers for the renderer *)
Definition participantToNum (p : SequenceParticipant Z) : SequenceParticipant num :=
  mkSequenceParticipant (sp_id p) (sp_label p) (ofZ (sp_x p)) (ofZ (sp_topY p))
                        (ofZ (sp_bottomY p)) (ofZ (sp_width p)) (sp_color p).

Definition messageToNum (m : SequenceMessage Z) : SequenceMessage num :=
  mkSequenceMessage (sm_from m) (sm_to m) (sm_label m) (ofZ (sm_y m)) (sm_style m)
                    (sm_color m) (sm_isSelfMessage m).

Definition sequenceToNum (l : SequenceLayoutResult Z) : SequenceLayoutResult num :=
  mkSequenceLayoutResult (ofZ (slr_width l)) (ofZ (slr_height l))
                         (map participantToNum (slr_participants l))
                         (map messageToNum (slr_messages l)).

Definition renderDiagram (diagram : DiagramDef) : M (result EngineError string) :=
  match diagram with
  | Flow flow =>
      match FlowLayout.layoutFlowDiagram elkLayout flow with
      | Ok layout =>
          s <- renderFlowDiagram layout (fd_style flow) (fd_title flow) ;;
          ret (Ok s)
      | Err reason => ret (Err (LayoutFailure reason))
      end
  | Sequence seq_ =>
      let layout := sequenceToNum (SequenceLayout.layoutSequenceDiagram seq_) in
      s <- renderSequenceDiagram layout (sd_style seq_) (sd_title seq_) ;;
      ret (Ok s)
  end.

Definition generateDiagram (input : json) (wantPng : bool)
  : M (result EngineError GenerateResult) :=
  match parseDiagram input with
  | Err e => ret (Err (SchemaFailure e))
  | Ok diagram =>
      r <- renderDiagram diagram ;;
      ret (match r with
           | Ok s =>
               if wantPng then
                 match svgToPng s with
                 | Ok bytes => Ok (mkGenerateResult s (Some bytes))
                 | Err reason => Err (PngFailure reason)
                 end
               else Ok (mkGenerateResult s None)
           | Err e => Err e
           end)
  end.

End Engine.

(* ------------------------------------------------------------------ *)
(** ** Definitions used to state the properties *)


(** the XML entity that stands for a character, or the character itself *)
Definition entityOf (c : ascii) : string :=
  if Ascii.eqb c "&" then "&amp;"
  else if Ascii.eqb c "<" then "&lt;"
  else if Ascii.eqb c ">" then "&gt;"
  else if Ascii.eqb c (ascii_of_nat 34) then "&quot;"
  else if Ascii.eqb c "'" then "&apos;"
  else String c EmptyString.

Fixpoint mapChars (f : ascii -> string) (s : string) : string :=
  match s with
  | EmptyString => EmptyString
  | String c r => f c ++ mapChars f r
  end.

Fixpoint allChars (P : ascii -> bool) (s : string) : bool :=
  match s with
  | EmptyString => true
  | String c r => (P c && allChars P r)%bool
  end.

(** the characters that end an attribute value or open or close a tag *)
Definition isMarkup (c : ascii) : bool :=
  (Ascii.eqb c "<" || Ascii.eqb c ">" || Ascii.eqb c (ascii_of_nat 34) || Ascii.eqb c "'")%bool.

(** [n] successive calls of the generator *)
Fixpoint draws {N : JsNum} (n : nat) : M (list num) :=
  match n with
  | O => ret []
  | S k => r <- pseudoRandom ;; rs <- draws k ;; ret (r :: rs)
  end.

(** the messages laid out from [y] on, written by recursion on the list *)
Fixpoint laid (y : Z) (msgs : list MessageDef) : list (SequenceMessage Z) :=
  match msgs with
  | [] => []
  | msg :: rest =>
      let self := String.eqb (md_from msg) (md_to msg) in
      mkSequenceMessage (md_from msg) (md_to msg) (md_label msg) y
                        (md_style msg) (md_color msg) self
      :: laid (y + (if self then 80 else 50)) rest
  end.

Definition twoMessages : SequenceDiagramDef :=
  mkSequenceDiagramDef None
    [mkParticipantDef "a" "Client" None; mkParticipantDef "b" "Server" None]
    [mkMessageDef "a" "a" "think" solid None; mkMessageDef "a" "b" "request" solid None]
    hand_drawn None.

(** a request and its answer: no message is a self-message *)
Definition pingPong : SequenceDiagramDef :=
  mkSequenceDiagramDef None
    [mkParticipantDef "a" "Client" None; mkParticipantDef "b" "Server" None]
    [mkMessageDef "a" "b" "ping" solid None; mkMessageDef "b" "a" "pong" dashed None]
    hand_drawn None.

(** the raw input that spells out a sequence diagram definition *)
Section Encode.
Context {N : JsNum}.

Definition styleName (s : EdgeStyle) : string :=
  match s with solid => "solid" | dashed => "dashed" | dotted => "dotted" end.

Definition themeName (t : Theme) : string :=
  match t with hand_drawn => "hand-drawn" | clean => "clean" | minimal => "minimal" end.

Definition formatName (f : OutputFormat) : string :=
  match f with svg => "svg" | png => "png" end.

Definition optField (name : string) (o : option string) : list (string * json) :=
  match o with
  | Some v => [(name, JStr v)]
  | None => []
  end.

Definition participantToJson (p : ParticipantDef) : json :=
  JObj ([("id", JStr (pd_id p)); ("label", JStr (pd_label p))]
        ++ optField "color" (pd_color p))%list.

Definition messageToJson (m : MessageDef) : json :=
  JObj ([("from", JStr (md_from m)); ("to", JStr (md_to m)); ("label", JStr (md_label m));
         ("style", JStr (styleName (md_style m)))]
        ++ optField "color" (md_color m))%list.

Definition outputToJson (o : OutputOptions) : json :=
  JObj ([("format", JStr (formatName (oo_format o)))] ++ optField "path" (oo_path o))%list.

Definition sequenceToJson (d : SequenceDiagramDef) : json :=
  JObj ([("type", JStr "sequence");
         ("participants", JArr (map participantToJson (sd_participants d)));
         ("messages", JArr (map messageToJson (sd_messages d)));
         ("style", JStr (themeName (sd_style d)))]
        ++ optField "title" (sd_title d)
        ++ match sd_output d with
           | Some o => [("output", outputToJson o)]
           | None => []
           end)%list.

End Encode.

(** a raw value that is a well-formed participant, and the participant it
    stands for: an object whose [id] and [label] are strings and whose
    [color], when present, is a string *)
Definition wellFormedParticipant {N : JsNum} (item : json) (p : ParticipantDef) : Prop :=
  exists fs,
    item = JObj fs
    /\ field "id" fs = Some (JStr (pd_id p))
    /\ field "label" fs = Some (JStr (pd_label p))
    /\ match field "color" fs with
       | None => pd_color p = None
       | Some (JStr c) => pd_color p = Some c
       | Some _ => False
       end.

(** a layout with one rectangle, as in the renderer's tests *)
Definition oneNode (label : string) : LayoutResult (@num Exact.exact) :=
  mkLayoutResult (Some 300%Q) (Some 200%Q)
    [mkLayoutNode "a" (Some 50%Q) (Some 50%Q) (Some 120%Q) (Some 60%Q) label rectangle
                  (Some "#000000") None]
    [] [].

(** the sequence layout of the renderer's tests, with one more message
    whose sender [zz] is no participant *)
Definition client : SequenceParticipant (@num Exact.exact) :=
  mkSequenceParticipant "a" "Client" (Some 100%Q) (Some 40%Q) (Some 250%Q) (Some 100%Q)
                        (Some "#000000").
Definition server : SequenceParticipant (@num Exact.exact) :=
  mkSequenceParticipant "b" "Server" (Some 300%Q) (Some 40%Q) (Some 250%Q) (Some 100%Q)
                        (Some "#000000").
Definition request : SequenceMessage (@num Exact.exact) :=
  mkSequenceMessage "a" "b" "request" (Some 130%Q) solid None false.
Definition stray : SequenceMessage (@num Exact.exact) :=
  mkSequenceMessage "zz" "b" "lost" (Some 155%Q) solid None false.
Definition response : SequenceMessage (@num Exact.exact) :=
  mkSequenceMessage "b" "a" "response" (Some 180%Q) dashed None false.
Definition strayLayout : SequenceLayoutResult (@num Exact.exact) :=
  mkSequenceLayoutResult (Some 400%Q) (Some 300%Q) [client; server] [request; stray; response].

(** the coordinates the layout service gave, before padding *)
Section RawCoordinates.
Context {N : JsNum}.
Import FlowLayout.






End RawCoordinates.




(** a label of thirty characters *)
Definition longLabel : string := "A rather long label that wraps".



(** reading a document back: the values of the attributes called [name],
    that is, after each opening of such an attribute, the characters up to
    the next double quote *)
Fixpoint upToQuote (doc : string) : string :=
  match doc with
  | EmptyString => EmptyString
  | String c r => if Ascii.eqb c (ascii_of_nat 34) then EmptyString else String c (upToQuote r)
  end.

Fixpoint attrValues (name : string) (doc : string) : list string :=
  let opener := " " ++ name ++ "=" ++ Str.dq in
  ((if String.prefix opener doc then [upToQuote (Str.drop (String.length opener) doc)] else [])
   ++ match doc with
      | EmptyString => []
      | String _ r => attrValues name r
      end)%list.

Definition isDigit (c : ascii) : bool :=
  ((48 <=? nat_of_ascii c) && (nat_of_ascii c <=? 57))%nat%bool.

(** digits, a point, one digit; [seen] tells that a digit was read *)
Fixpoint digitsPointDigit (v : string) (seen : bool) : bool :=
  match v with
  | EmptyString => false
  | String c r =>
      if isDigit c then digitsPointDigit r true
      else if Ascii.eqb c "." then
             (seen && match r with
                      | String d EmptyString => isDigit d
                      | _ => false
                      end)%bool
           else false
  end.

(** a number written with exactly one decimal place *)
Definition oneDecimal (v : string) : bool :=
  match v with
  | String "-" r => digitsPointDigit r false
  | _ => digitsPointDigit v false
  end.

Section Formatting.
Context {N : JsNum}.

(** the numbers of a theme that style a stroke or a fill *)
Definition styleNumbers (config : ThemeConfig) : list num :=
  [strokeWidth config; nmul (strokeWidth config) (ofQ 0.5); fillOpacity config;
   cornerRadius config].

(** every number of the rope goes through [toFixed(1)], the style numbers
    of the theme apart *)
Definition fixedCoordinates (config : ThemeConfig) (r : rope) : Prop :=
  Forall (fun p => match p with
                   | Plain v => In v (styleNumbers config)
                   | _ => True
                   end) r.

Definition fixedCoordinatesM (config : ThemeConfig) (m : M rope) : Prop :=
  forall s, fixedCoordinates config (fst (m s)).

(** where [renderText] puts a text of the given length *)
Definition textY (y fontSize : num) (text : string) (maxChars : option Z) : num :=
  if (Str.len text >? 20)%Z then
    let lines := wrapText text (match maxChars with Some m => m | None => 18 end) in
    nsub y (ndiv (nmul (ofZ (Z.of_nat (List.length lines) - 1)) (nmul fontSize (ofQ 1.3)))
                 (ofZ 2))
  else y.

End Formatting.

(** the five characters [escapeXml] rewrites *)
Definition isSpecial (c : ascii) : bool :=
  (Ascii.eqb c "&" || isMarkup c)%bool.

(** the characters of a string that are no white space *)
Fixpoint stripWs (s : string) : string :=
  match s with
  | EmptyString => EmptyString
  | String c r => if Str.isWs c then stripWs r else String c (stripWs r)
  end.

Definition noWs (s : string) : bool := allChars (fun c => negb (Str.isWs c)) s.

(** what the loop of [wrapText] keeps true of the finished lines and the
    current line, for words without white space *)
Record wrapInvariant (maxChars : Z) (lines : list string) (cur : string) : Prop := {
  wi_fit : Forall (fun l => Str.len l <= maxChars \/ noWs l = true) lines;
  wi_cur_fit : Str.len cur <= maxChars \/ noWs cur = true;
  wi_visible : Forall (fun l => stripWs l <> EmptyString) lines;
  wi_cur_visible : cur = EmptyString \/ stripWs cur <> EmptyString
}.

(** the raw input that spells out a flow diagram definition, and inputs
    that leave every optional field out *)
Section EncodeFlow.
Context {N : JsNum}.

Definition shapeName (s : ShapeType) : string :=
  match s with
  | rectangle => "rectangle" | ellipse => "ellipse" | diamond => "diamond"
  | cylinder => "cylinder" | cloud => "cloud" | hexagon => "hexagon"
  | parallelogram => "parallelogram"
  end.

Definition arrowName (a : ArrowDirection) : string :=
  match a with
  | forward => "forward" | backward => "backward" | both => "both" | none => "none"
  end.

Definition directionName (d : Direction) : string :=
  match d with TB => "TB" | LR => "LR" | BT => "BT" | RL => "RL" end.

Definition optNumber (name : string) (o : option num) : list (string * json) :=
  match o with
  | Some v => [(name, JNum v)]
  | None => []
  end.

Definition nodeToJson (n : NodeDef) : json :=
  JObj ([("id", JStr (nd_id n)); ("label", JStr (nd_label n));
         ("shape", JStr (shapeName (nd_shape n)))]
        ++ optField "color" (nd_color n) ++ optField "textColor" (nd_textColor n)
        ++ optNumber "width" (nd_width n) ++ optNumber "height" (nd_height n))%list.

Definition edgeToJson (e : EdgeDef) : json :=
  JObj ([("from", JStr (ed_from e)); ("to", JStr (ed_to e));
         ("style", JStr (styleName (ed_style e)));
         ("direction", JStr (arrowName (ed_direction e)))]
        ++ optField "label" (ed_label e) ++ optField "color" (ed_color e))%list.

Definition groupToJson (g : GroupDef) : json :=
  JObj ([("id", JStr (gd_id g)); ("contains", JArr (map JStr (gd_contains g)))]
        ++ optField "label" (gd_label g) ++ optField "color" (gd_color g))%list.

Definition flowToJson (d : FlowDiagramDef) : json :=
  JObj ([("type", JStr "flow");
         ("nodes", JArr (map nodeToJson (fd_nodes d)));
         ("edges", JArr (map edgeToJson (fd_edges d)));
         ("groups", JArr (map groupToJson (fd_groups d)));
         ("style", JStr (themeName (fd_style d)));
         ("direction", JStr (directionName (fd_direction d)))]
        ++ optField "title" (fd_title d)
        ++ match fd_output d with
           | Some o => [("output", outputToJson o)]
           | None => []
           end)%list.

(** a node given by its id and label only *)
Definition bareNode (il : string * string) : json :=
  JObj [("id", JStr (fst il)); ("label", JStr (snd il))].

Definition bareNodeDef (il : string * string) : NodeDef :=
  mkNodeDef (fst il) (snd il) rectangle None None None None.

(** a message given by its sender, receiver and label only *)
Definition bareMessage (m : string * string * string) : json :=
  JObj [("from", JStr (fst (fst m))); ("to", JStr (snd (fst m))); ("label", JStr (snd m))].

Definition bareMessageDef (m : string * string * string) : MessageDef :=
  mkMessageDef (fst (fst m)) (snd (fst m)) (snd m) solid None.

End EncodeFlow.


(** the [type] field of a raw input, when it is an object with a string there *)
Definition typeOf {N : JsNum} (input : json) : option string :=
  match input with
  | JObj fields =>
      match field "type" fields with
      | Some (JStr s) => Some s
      | _ => None
      end
  | _ => None
  end.

(** the centres of boxes of widths [ws] put side by side from [cursor] on *)
Fixpoint centres (cursor : Z) (ws : list Z) : list Z :=
  match ws with
  | [] => []
  | w :: r => (cursor + w / 2) :: centres (cursor + w + 60) r
  end.

(** the participants seated from the left edge [cursor] on, written by
    recursion on the list *)
Fixpoint seated (topY bottomY cursor : Z) (ps : list ParticipantDef)
  : list (SequenceParticipant Z) :=
  match ps with
  | [] => []
  | p :: rest =>
      let w := SequenceLayout.computeParticipantWidth (pd_label p) in
      mkSequenceParticipant (pd_id p) (pd_label p) (cursor + w / 2) topY bottomY w (pd_color p)
      :: seated topY bottomY (cursor + w + 60) rest
  end.

(** the sides of a participant's box, and the lowest point a message reaches *)
Definition leftEdge (p : SequenceParticipant Z) : Z := sp_x p - sp_width p / 2.
Definition rightEdge (p : SequenceParticipant Z) : Z := sp_x p + sp_width p / 2.
Definition reach (m : SequenceMessage Z) : Z :=
  sm_y m + (if sm_isSelfMessage m then 30 else 0).

(** a computation that draws no random number: it returns the same value
    from every seed and leaves the seed as it found it *)
Definition still {A : Type} (m : M A) : Prop := exists a, forall s, m s = (a, s).

(** what the layout service is sent for the nodes: the children of a
    compound node, or the node itself when it is not compound *)
Section SentGraph.
Context {N : JsNum}.
Import FlowLayout.








End SentGraph.

(** a layout service that positions [a] only and routes no edge *)
Definition loneAnswer : @FlowLayout.ElkNode Exact.exact :=
  FlowLayout.mkElkNode (N:=Exact.exact) "root" (Some (Some 0%Q)) (Some (Some 0%Q))
    (Some (Some 120%Q)) (Some (Some 60%Q)) [] []
    (Some [FlowLayout.mkElkNode (N:=Exact.exact) "a" (Some (Some 0%Q)) (Some (Some 0%Q))
             (Some (Some 120%Q)) (Some (Some 60%Q)) ["Start"] [] None None])
    (Some []).

(** the lines [renderText] writes for a text: the text itself, or its
    wrapping at 18 characters when it is longer than 20 *)
Definition textLines (text : string) : list string :=
  if (Str.len text >? 20)%Z then wrapText text 18 else [text].

(** [ name="value"] as text, and the opening tags of the elements *)
Definition attrText (name value : string) : string :=
  " " ++ name ++ "=" ++ Str.dq ++ value ++ Str.dq.

Definition nodeTag (id : string) : string :=
  "<g" ++ attrText "class" "node" ++ attrText "data-id" (escapeXml id) ++ ">".

Definition groupTag (id : string) : string :=
  "<g" ++ attrText "class" "group" ++ attrText "data-id" (escapeXml id) ++ ">".

Definition edgeTag (from to : string) : string :=
  "<g" ++ attrText "class" "edge" ++ attrText "data-from" (escapeXml from)
       ++ attrText "data-to" (escapeXml to) ++ ">".

(** the attribute [anchorStart] looks for *)
Definition anchorMiddle : string := "text-anchor=" ++ Str.dq ++ "middle" ++ Str.dq.

(** the root element's opening tag and the background, as text *)
Definition svgOpen {N : JsNum} (w h : num) : string :=
  "<svg" ++ attrText "xmlns" "http://www.w3.org/2000/svg"
  ++ attrText "viewBox" ("0 0 " ++ toStr w ++ " " ++ toStr h)
  ++ attrText "width" (toStr w) ++ attrText "height" (toStr h) ++ ">".

Definition background {N : JsNum} (w h : num) : string :=
  "  <rect" ++ attrText "width" (toStr w) ++ attrText "height" (toStr h)
  ++ attrText "fill" "white" ++ "/>".

(** the height of the document for a layout of height [h] *)
Definition documentHeight {N : JsNum} (h : num) (title : option string) : num :=
  nadd h (ofZ (if Str.truthyOpt title then 40 else 0)).

(** what the document holds of a message, a lifeline and a participant box *)
Definition messageTag : string := "<g" ++ attrText "class" "message" ++ ">".

Definition drawnMessage {N : JsNum} (ids : list string) (m : SequenceMessage num)
    (part : rope) : Prop :=
  In (sm_from m) ids -> In (sm_to m) ids ->
  String.prefix messageTag (flatten part) = true
  /\ forall line, In line (textLines (sm_label m)) ->
       Str.Substr (escapeXml line) (flatten part).

Definition drawnLifeline {N : JsNum} (p : SequenceParticipant num) (part : rope) : Prop :=
  Str.Substr (attrText "stroke-dasharray" "6,4") (flatten part).

Definition drawnBox {N : JsNum} (p : SequenceParticipant num) (part : rope) : Prop :=
  forall line, In line (textLines (sp_label p)) -> Str.Substr (escapeXml line) (flatten part).

(** what the layout service answered, read off the answer itself *)
Section Answer.
Context {N : JsNum}.
Import FlowLayout.

(** [leafAt node ox oy c px py]: below [node], whose own position is
    [(ox, oy)], the answer holds the node [c], not compound, and the
    position of the parent of [c] is [(px, py)] *)
Inductive leafAt : ElkNode -> num -> num -> ElkNode -> num -> num -> Prop :=
  | leaf_here (node : ElkNode) (ox oy : num) (cs : list ElkNode) (c : ElkNode) :
      en_children node = Some cs -> In c cs -> isCompound c = false ->
      leafAt node ox oy c ox oy
  | leaf_below (node : ElkNode) (ox oy : num) (cs : list ElkNode) (g c : ElkNode)
      (px py : num) :
      en_children node = Some cs -> In g cs -> isCompound g = true ->
      leafAt g (nadd (orZero (en_x g)) ox) (nadd (orZero (en_y g)) oy) c px py ->
      leafAt node ox oy c px py.


(** the box of a node whose parent is at [(px, py)]: [x], [y], [width]
    and [height] are the fields of the answer, [0] when absent *)
Definition boxAt (c : ElkNode) (px py : num) : Box :=
  mkBox (nadd (orZero (en_x c)) px) (nadd (orZero (en_y c)) py)
        (orZero (en_width c)) (orZero (en_height c)).








End Answer.








(** the bodies of the loops of the two walks over the answer *)
Section WalkSteps.
Context {N : JsNum}.
Import FlowLayout.

Definition nodeStep (offsetX offsetY : num) (positions : JsMap.t Box) (child : ElkNode)
  : JsMap.t Box :=
  let cx := nadd (orZero (en_x child)) offsetX in
  let cy := nadd (orZero (en_y child)) offsetY in
  let cw := orZero (en_width child) in
  let ch := orZero (en_height child) in
  if isCompound child then walkNodes child cx cy positions
  else JsMap.set (en_id child) (mkBox cx cy cw ch) positions.


Definition groupStep (positions : JsMap.t Box) (child : ElkNode) : JsMap.t Box :=
  if isCompound child
  then JsMap.set (en_id child)
                 (mkBox (orZero (en_x child)) (orZero (en_y child))
                        (orZero (en_width child)) (orZero (en_height child)))
                 positions
  else positions.

End WalkSteps.

(* ================================================================== *)
(** * Properties *)

(* ------------------------------------------------------------------ *)
(** ** Strings and ropes *)

Lemma append_nil_r (s : string) : s ++ EmptyString = s.
Proof. induction s as [|a s IH]; simpl; [reflexivity | now rewrite IH]. Qed.

Lemma append_assoc (a b c : string) : (a ++ b) ++ c = a ++ (b ++ c).
Proof. induction a as [|x a IH]; simpl; [reflexivity | now rewrite IH]. Qed.

Lemma substr_refl (a : string) : Str.Substr a a.
Proof. exists EmptyString, EmptyString. simpl. now rewrite append_nil_r. Qed.

Lemma substr_app_l (b a x : string) : Str.Substr b a -> Str.Substr b (x ++ a).
Proof.
  intros (p & q & ->). exists (x ++ p), q. now rewrite append_assoc.
Qed.

Lemma substr_app_r (b a y : string) : Str.Substr b a -> Str.Substr b (a ++ y).
Proof.
  intros (p & q & ->). exists p, (q ++ y). now rewrite !append_assoc.
Qed.

Lemma substr_trans (c b a : string) : Str.Substr c b -> Str.Substr b a -> Str.Substr c a.
Proof.
  intros (p & q & ->) (p' & q' & ->).
  exists (p' ++ p), (q ++ q'). now rewrite !append_assoc.
Qed.

Lemma prefix_app (b q : string) : String.prefix b (b ++ q) = true.
Proof.
  induction b as [|x b IH]; simpl.
  - now destruct q.
  - destruct (ascii_dec x x) as [_|ne]; [exact IH | now elim ne].
Qed.



(* ------------------------------------------------------------------ *)
(** ** XML escaping *)

Lemma allChars_app (P : ascii -> bool) (a b : string) :
  allChars P (a ++ b) = (allChars P a && allChars P b)%bool.
Proof.
  induction a as [|x a IH]; simpl; [reflexivity|].
  rewrite IH. now rewrite andb_assoc.
Qed.

Lemma escapeXml_cons (a : ascii) (r : string) :
  escapeXml (String a r) = entityOf a ++ escapeXml r.
Proof.
  unfold escapeXml.
  destruct a as [[] [] [] [] [] [] [] []]; reflexivity.
Qed.

Lemma entityOf_safe (a : ascii) : allChars (fun c => negb (isMarkup c)) (entityOf a) = true.
Proof. destruct a as [[] [] [] [] [] [] [] []]; reflexivity. Qed.

(** C10.  [escapeXml] replaces every ampersand, angle bracket and quote by
    its entity and leaves the other characters alone; the result holds no
    angle bracket and no single or double quote. *)
Theorem escapeXml_no_markup (s : string) :
  escapeXml s = mapChars entityOf s
  /\ allChars (fun c => negb (isMarkup c)) (escapeXml s) = true.
Proof.
  induction s as [|a r [IH1 IH2]].
  - split; reflexivity.
  - rewrite escapeXml_cons. split.
    + simpl. now rewrite IH1.
    + rewrite allChars_app, entityOf_safe, IH2. reflexivity.
Qed.

(* ------------------------------------------------------------------ *)
(** ** The generator *)

Lemma seed_step (s : Z) :
  1 <= s <= 2147483646 ->
  Z.rem (s * 16807 + 0) 2147483647 = (s * 16807) mod 2147483647
  /\ 1 <= (s * 16807) mod 2147483647 <= 2147483646.
Proof.
  intros Hs. rewrite Z.add_0_r, Z.rem_mod_nonneg by lia. split; [reflexivity|].
  assert (Hb : 0 <= (s * 16807) mod 2147483647 < 2147483647)
    by (apply Z.mod_pos_bound; lia).
  assert (Hz : (s * 16807) mod 2147483647 <> 0).
  { intro E. apply Z.mod_divide in E; [|lia]. destruct E as [k Hk]. lia. }
  lia.
Qed.

Lemma draws_range {N : JsNum} (n : nat) (s : Z) :
  1 <= s <= 2147483646 -> 1 <= snd (draws n s) <= 2147483646.
Proof.
  revert s. induction n as [|n IH]; intros s Hs; simpl.
  - exact Hs.
  - unfold bind.
    assert (Hp : snd (pseudoRandom s) = Z.rem (s * 16807 + 0) 2147483647) by reflexivity.
    destruct (pseudoRandom s) as [r s1]. simpl in Hp. subst s1.
    destruct (seed_step Hs) as [E Hr]. rewrite E.
    specialize (IH _ Hr). destruct (draws n _) as [rs s2]. exact IH.
Qed.

(** C9.  After a reset and any number of calls, the next call replaces the
    state [s] by [s * 16807 mod 2147483647], which stays between 1 and
    2147483646 (the product stays below 2^53, so doubles compute it
    exactly), and returns [(s' - 1) / 2147483646], a value in [0, 1). *)
Theorem pseudoRandom_stream (s0 : Z) (n : nat) :
  let s := snd (bind resetSeed (fun _ => @draws Exact.exact n) s0) in
  let v := fst (@pseudoRandom Exact.exact s) in
  let s' := snd (@pseudoRandom Exact.exact s) in
  s' = (s * 16807) mod 2147483647
  /\ 1 <= s' <= 2147483646
  /\ s * 16807 < 2 ^ 53
  /\ exists q : Q, v = Some q /\ (q == (s' - 1) # 2147483646)%Q /\ (0 <= q)%Q /\ (q < 1)%Q.
Proof.
  cbv zeta.
  assert (Hs : 1 <= snd (bind resetSeed (fun _ => @draws Exact.exact n) s0) <= 2147483646).
  { unfold bind, resetSeed, initialSeed. apply draws_range. lia. }
  set (s := snd (bind resetSeed (fun _ => @draws Exact.exact n) s0)) in *.
  destruct (seed_step Hs) as [E Hr].
  unfold pseudoRandom. cbn [fst snd]. rewrite E.
  set (s' := (s * 16807) mod 2147483647) in *.
  repeat split; try lia.
  exists (Qred (Qred (inject_Z (s' - 1)) / Qred (inject_Z 2147483646))).
  assert (Hq : (Qred (Qred (inject_Z (s' - 1)) / Qred (inject_Z 2147483646))
                == (s' - 1) # 2147483646)%Q).
  { rewrite !Qred_correct. unfold Qeq, Qdiv, Qmult, Qinv, inject_Z. simpl. lia. }
  split; [reflexivity|]. split; [exact Hq|].
  rewrite Hq. unfold Qle, Qlt. simpl. lia.
Qed.

(* ------------------------------------------------------------------ *)
(** ** Jitter *)

(** C4, refuted as stated.  With amount 0, [jitterPoint] leaves the
    generator where it was (state 42 here), whereas two draws would move
    it; [jitter] likewise draws nothing. *)
Lemma jitterPoint_zero_amount_draws_nothing :
  snd (@jitterPoint Exact.exact (ofZ 10) (ofZ 20) (ofZ 0) 42) = 42
  /\ snd (@jitterPoint Exact.exact (ofZ 10) (ofZ 20) (ofZ 0) 42)
     <> snd (@draws Exact.exact 2 42)
  /\ snd (@jitter Exact.exact (ofZ 10) (ofZ 0) 42) <> snd (@draws Exact.exact 1 42).
Proof. vm_compute. repeat split; discriminate. Qed.

Section JitterProperties.
Context {N : JsNum}.

(** C4, amended.  When the amount is not zero, [jitter] makes one draw
    [r] and returns [v + (r - 0.5) * 2 * amount], and [jitterPoint] makes
    two consecutive draws, the first for x and the second for y.  When the
    amount is zero both return their argument and draw nothing. *)
Theorem jitter_draws (v x y amount : num) (s : Z) :
  jitter v amount s =
    (if isZero amount then (v, s)
     else let (r, s1) := pseudoRandom s in
          (nadd v (nmul (nmul (nsub r (ofQ 0.5)) (ofZ 2)) amount), s1))
  /\ jitterPoint x y amount s =
    (if isZero amount then (mkXY x y, s)
     else let (rx, s1) := pseudoRandom s in
          let (ry, s2) := pseudoRandom s1 in
          (mkXY (nadd x (nmul (nmul (nsub rx (ofQ 0.5)) (ofZ 2)) amount))
                (nadd y (nmul (nmul (nsub ry (ofQ 0.5)) (ofZ 2)) amount)), s2)).
Proof.
  unfold jitterPoint, jitter, bind, ret.
  destruct (isZero amount); split; reflexivity.
Qed.

End JitterProperties.

(* ------------------------------------------------------------------ *)
(** ** Sequence layout *)

Module SequenceLayoutProperties.
Import SequenceLayout.

(** widths are even: the halves taken in [Z] are the exact halves *)
Lemma computeParticipantWidth_even (label : string) :
  2 * (computeParticipantWidth label / 2) = computeParticipantWidth label.
Proof.
  unfold computeParticipantWidth, PARTICIPANT_MIN_WIDTH, PARTICIPANT_CHAR_WIDTH,
    PARTICIPANT_LABEL_PADDING.
  destruct (Z.max_spec 100 (Str.len label * 10 + 40)) as [[_ ->]|[_ ->]].
  - replace (Str.len label * 10 + 40) with ((Str.len label * 5 + 20) * 2) by lia.
    rewrite Z.div_mul by lia. lia.
  - reflexivity.
Qed.

Lemma fold_messageStep (msgs : list MessageDef) (acc : list (SequenceMessage Z)) (y : Z) :
  fst (fold_left messageStep msgs (acc, y)) = (acc ++ laid y msgs)%list.
Proof.
  revert acc y. induction msgs as [|msg rest IH]; intros acc y; simpl.
  - now rewrite app_nil_r.
  - rewrite IH, <- app_assoc. simpl.
    unfold MESSAGE_SPACING, SELF_MESSAGE_HEIGHT_OFFSET.
    destruct (String.eqb (md_from msg) (md_to msg)); reflexivity.
Qed.

Lemma layoutMessagesOf_laid (startY : Z) (msgs : list MessageDef) :
  layoutMessagesOf startY msgs = laid (startY + 40 + 50) msgs.
Proof. unfold layoutMessagesOf. now rewrite fold_messageStep. Qed.

Lemma laid_length (msgs : list MessageDef) (y : Z) :
  List.length (laid y msgs) = List.length msgs.
Proof. revert y. induction msgs as [|m r IH]; intros y; simpl; [|rewrite IH]; reflexivity. Qed.

Lemma laid_from_to (msgs : list MessageDef) (y : Z) (i : nat) (m : SequenceMessage Z) :
  nth_error (laid y msgs) i = Some m ->
  sm_isSelfMessage m = String.eqb (sm_from m) (sm_to m).
Proof.
  revert y i. induction msgs as [|msg r IH]; intros y [|i] H; simpl in H; try discriminate.
  - injection H as <-. reflexivity.
  - eapply IH; eassumption.
Qed.

Lemma laid_next (msgs : list MessageDef) (y : Z) (i : nat) (m m' : SequenceMessage Z) :
  nth_error (laid y msgs) i = Some m ->
  nth_error (laid y msgs) (S i) = Some m' ->
  sm_y m' = sm_y m + (if sm_isSelfMessage m then 80 else 50).
Proof.
  revert y i. induction msgs as [|msg r IH]; intros y [|i] H H'; simpl in H; try discriminate.
  - injection H as <-. simpl in H'. destruct r as [|msg' r']; simpl in H'; [discriminate|].
    injection H' as <-. reflexivity.
  - eapply IH; eassumption.
Qed.

Lemma laid_lower (msgs : list MessageDef) (y : Z) (i : nat) (m : SequenceMessage Z) :
  nth_error (laid y msgs) i = Some m -> y <= sm_y m.
Proof.
  revert y i. induction msgs as [|msg r IH]; intros y [|i] H; simpl in H; try discriminate.
  - injection H as <-. simpl. lia.
  - apply IH in H. destruct (String.eqb (md_from msg) (md_to msg)); lia.
Qed.

Lemma laid_monotone (msgs : list MessageDef) (y : Z) (i j : nat) (m m' : SequenceMessage Z) :
  (i <= j)%nat ->
  nth_error (laid y msgs) i = Some m ->
  nth_error (laid y msgs) j = Some m' ->
  sm_y m <= sm_y m'.
Proof.
  revert y i j. induction msgs as [|msg r IH]; intros y i j Hij H H'.
  - destruct i; discriminate.
  - destruct i as [|i], j as [|j]; simpl in H, H'.
    + injection H as <-. injection H' as <-. lia.
    + injection H as <-. apply laid_lower in H'. simpl.
      destruct (String.eqb (md_from msg) (md_to msg)); lia.
    + lia.
    + eapply IH; [| eassumption | eassumption]. lia.
Qed.

Lemma laid_input (msgs : list MessageDef) (y : Z) (i : nat) (msg : MessageDef) :
  nth_error msgs i = Some msg ->
  exists m, nth_error (laid y msgs) i = Some m
    /\ sm_from m = md_from msg /\ sm_to m = md_to msg /\ sm_label m = md_label msg
    /\ sm_style m = md_style msg /\ sm_color m = md_color msg
    /\ sm_isSelfMessage m = String.eqb (md_from msg) (md_to msg).
Proof.
  revert y i. induction msgs as [|q r IH]; intros y [|i] H; simpl in H; try discriminate.
  - injection H as ->. eexists. split; [reflexivity|]. repeat split.
  - apply (IH (y + (if String.eqb (md_from q) (md_to q) then 80 else 50))) in H. exact H.
Qed.

(** C5.  The laid-out messages are the input messages, one for one and
    in the input order, each with its sender, receiver, label, style and
    colour.  With at least one message, the first message gets
    [y = startY + 40 + 50]; each next message gets the previous [y] plus
    50, or plus 80 when the previous input message is a self-message (its
    [from] equals its [to]); hence [y] never decreases along the input
    order. *)
Theorem message_y_progression (d : SequenceDiagramDef) (Hne : sd_messages d <> []) :
  let out := slr_messages (layoutSequenceDiagram d) in
  let startY := startYOf (sd_title d) in
  List.length out = List.length (sd_messages d)
  /\ (forall i msg, nth_error (sd_messages d) i = Some msg ->
        exists m, nth_error out i = Some m
          /\ sm_from m = md_from msg /\ sm_to m = md_to msg /\ sm_label m = md_label msg
          /\ sm_style m = md_style msg /\ sm_color m = md_color msg
          /\ sm_isSelfMessage m = String.eqb (md_from msg) (md_to msg))
  /\ (exists m0, nth_error out 0 = Some m0 /\ sm_y m0 = startY + 40 + 50)
  /\ (forall i msg m m',
        nth_error (sd_messages d) i = Some msg ->
        nth_error out i = Some m -> nth_error out (S i) = Some m' ->
        sm_y m' = sm_y m + (if String.eqb (md_from msg) (md_to msg) then 80 else 50))
  /\ (forall i m m',
        nth_error out i = Some m -> nth_error out (S i) = Some m' ->
        sm_isSelfMessage m = String.eqb (sm_from m) (sm_to m)
        /\ sm_y m' = sm_y m + (if String.eqb (sm_from m) (sm_to m) then 80 else 50))
  /\ (forall i j m m',
        (i <= j)%nat -> nth_error out i = Some m -> nth_error out j = Some m' ->
        sm_y m <= sm_y m').
Proof.
  cbv zeta. unfold layoutSequenceDiagram. cbn [slr_messages].
  rewrite layoutMessagesOf_laid.
  split; [apply laid_length|].
  split; [intros i msg H; apply laid_input, H|].
  split.
  { destruct (sd_messages d) as [|msg r]; [now elim Hne|].
    simpl. eexists. split; reflexivity. }
  split.
  { intros i msg m m' Hmsg H H'.
    destruct (laid_input _ (startYOf (sd_title d) + 40 + 50) _ Hmsg)
      as (m1 & Hm1 & Hf & Ht & _).
    rewrite H in Hm1. injection Hm1 as <-.
    rewrite <- Hf, <- Ht, <- (laid_from_to _ _ _ H). eapply laid_next; eassumption. }
  split.
  - intros i m m' H H'. pose proof (laid_from_to _ _ _ H) as Hs.
    split; [exact Hs|]. rewrite <- Hs. eapply laid_next; eassumption.
  - intros i j m m'. apply laid_monotone.
Qed.

Lemma message_y_progression_witness :
  sd_messages pingPong <> []
  /\ map (@sm_y Z) (slr_messages (layoutSequenceDiagram pingPong)) = [130; 180]
  /\ map (@sm_from Z) (slr_messages (layoutSequenceDiagram pingPong)) = ["a"; "b"]
  /\ (exists m, nth_error (slr_messages (layoutSequenceDiagram pingPong)) 1 = Some m
                /\ sm_from m = "b" /\ sm_to m = "a" /\ sm_label m = "pong").
Proof.
  assert (H : sd_messages pingPong <> []) by discriminate.
  split; [exact H|]. split; [reflexivity|]. split; [reflexivity|].
  destruct (proj1 (proj2 (message_y_progression pingPong H)) 1%nat
              (mkMessageDef "b" "a" "pong" dashed None) eq_refl)
    as (m & Hm & Hf & Ht & Hl & _).
  exists m. repeat split; assumption.
Defined.

End SequenceLayoutProperties.

(* ------------------------------------------------------------------ *)
(** ** Parser *)

(** C7, refuted as stated.  A sequence input with no participant satisfies
    the schema: [participants] is [z.array(ParticipantSchema)], with no
    minimum length. *)
Lemma parseDiagram_accepts_no_participant :
  @parseDiagram Exact.exact
    (JObj [("type", JStr "sequence"); ("participants", JArr []); ("messages", JArr [])])
  = Ok (Sequence (mkSequenceDiagramDef None [] [] hand_drawn None)).
Proof. reflexivity. Qed.

Section ParserProperties.
Context {N : JsNum}.

Lemma rmapi_roundtrip {A B : Type} (f : nat -> B -> result SchemaError A) (g : A -> B)
    (l : list A) (i : nat) :
  (forall k a, f k (g a) = Ok a) -> rmapi f i (map g l) = Ok l.
Proof.
  intros H. revert i. induction l as [|a l IH]; intros i; simpl.
  - reflexivity.
  - rewrite H. simpl. rewrite IH. reflexivity.
Qed.

Lemma participant_roundtrip (path : list string) (p : ParticipantDef) :
  ParticipantSchema path (Some (participantToJson p)) = Ok p.
Proof. destruct p as [id label [c|]]; reflexivity. Qed.

Lemma message_roundtrip (path : list string) (m : MessageDef) :
  MessageSchema path (Some (messageToJson m)) = Ok m.
Proof. destruct m as [from to label [] [c|]]; reflexivity. Qed.

Lemma participant_wellFormed (path : list string) (item : json) (p : ParticipantDef) :
  ParticipantSchema path (Some item) = Ok p <-> wellFormedParticipant item p.
Proof.
  unfold ParticipantSchema, zObject, wellFormedParticipant, at_field. split.
  - destruct item as [| | | | |fs]; try discriminate.
    unfold zString, zOptional.
    destruct (field "id" fs) as [[| | |id| |]|] eqn:Eid; try discriminate.
    destruct (field "label" fs) as [[| | |label| |]|] eqn:El; try discriminate.
    destruct (field "color" fs) as [[| | |c| |]|] eqn:Ec; try discriminate;
      cbn [rbind]; intros H; injection H as <-; exists fs; rewrite Ec; cbn; auto.
  - intros (fs & -> & Hid & Hl & Hc). rewrite Hid, Hl. cbn [zString rbind].
    unfold zOptional, zString.
    destruct (field "color" fs) as [[| | |c| |]|]; try contradiction;
      destruct p as [id label color]; cbn in *; subst color; reflexivity.
Qed.

Lemma rmapi_forall2 {A : Type} (f : nat -> json -> result SchemaError A)
    (R : json -> A -> Prop) (items : list json) (l : list A) (i : nat) :
  (forall k item a, f k item = Ok a <-> R item a) ->
  (rmapi f i items = Ok l <-> Forall2 R items l).
Proof.
  intros H. revert l i. induction items as [|item items IH]; intros l i; simpl.
  - split.
    + intros E. injection E as <-. constructor.
    + intros E. inversion E. reflexivity.
  - split.
    + destruct (f i item) as [a|e] eqn:Ea; [|discriminate]. cbn [rbind].
      destruct (rmapi f (S i) items) as [r|e] eqn:Er; [|discriminate]. cbn [rbind].
      intros E. injection E as <-. constructor; [now apply (H i) | now apply (IH r (S i))].
    + intros E. inversion E as [|? a ? r Ha Hr]; subst.
      apply (H i) in Ha. apply (IH r (S i)) in Hr. rewrite Ha, Hr. reflexivity.
Qed.

Lemma participants_accepted (fields : list (string * json)) (ps : list ParticipantDef) :
  at_field (zArray ParticipantSchema) "participants" [] fields = Ok ps
  <-> exists items, field "participants" fields = Some (JArr items)
                    /\ Forall2 wellFormedParticipant items ps.
Proof.
  unfold at_field, zArray. split.
  - destruct (field "participants" fields) as [[| | | |items|]|]; try discriminate.
    intros H. exists items. split; [reflexivity|].
    apply (rmapi_forall2 _ wellFormedParticipant) in H; [exact H|].
    intros k item a. apply participant_wellFormed.
  - intros (items & -> & H).
    apply (rmapi_forall2 _ wellFormedParticipant); [|exact H].
    intros k item a. apply participant_wellFormed.
Qed.

(** C7, amended.  The schema puts no lower bound on the number of
    participants.  A raw input of type sequence is accepted exactly when
    its [participants] field is an array whose items are well-formed
    participants (any number of them, none included) and its other fields
    are accepted; the result then holds these participants in their
    order.  In particular every sequence diagram definition written out
    as raw input, with no participant or with many, is returned
    unchanged. *)
Theorem parseDiagram_sequence_roundtrip (d : SequenceDiagramDef) :
  parseDiagram (sequenceToJson d) = Ok (Sequence d)
  /\ (forall fields q,
        field "type" fields = Some (JStr "sequence") ->
        (parseDiagram (JObj fields) = Ok (Sequence q)
         <-> (exists items,
                field "participants" fields = Some (JArr items)
                /\ Forall2 wellFormedParticipant items (sd_participants q))
             /\ at_field (zOptional zString) "title" [] fields = Ok (sd_title q)
             /\ at_field (zArray MessageSchema) "messages" [] fields = Ok (sd_messages q)
             /\ at_field (zDefault ThemeSchema hand_drawn) "style" [] fields = Ok (sd_style q)
             /\ at_field (zOptional OutputOptionsSchema) "output" [] fields
                = Ok (sd_output q)))
  /\ (forall fields q,
        parseDiagram (JObj fields) = Ok (Sequence q) ->
        field "type" fields = Some (JStr "sequence")
        /\ exists items, field "participants" fields = Some (JArr items)
                         /\ List.length items = List.length (sd_participants q)).
Proof.
  assert (Hiff : forall fields q,
            field "type" fields = Some (JStr "sequence") ->
            (parseDiagram (JObj fields) = Ok (Sequence q)
             <-> (exists items,
                    field "participants" fields = Some (JArr items)
                    /\ Forall2 wellFormedParticipant items (sd_participants q))
                 /\ at_field (zOptional zString) "title" [] fields = Ok (sd_title q)
                 /\ at_field (zArray MessageSchema) "messages" [] fields = Ok (sd_messages q)
                 /\ at_field (zDefault ThemeSchema hand_drawn) "style" [] fields
                    = Ok (sd_style q)
                 /\ at_field (zOptional OutputOptionsSchema) "output" [] fields
                    = Ok (sd_output q))).
  { intros fields q Htype.
    rewrite <- participants_accepted.
    unfold parseDiagram, DiagramSchema, zObject. rewrite Htype. cbv beta iota.
    unfold SequenceDiagramSchema.
    destruct (at_field (zOptional zString) "title" [] fields) as [title|e1];
      [|split; [discriminate | intros (_ & H & _); discriminate H]].
    destruct (at_field (zArray ParticipantSchema) "participants" [] fields) as [ps|e2];
      [|split; [discriminate | intros (H & _); discriminate H]].
    destruct (at_field (zArray MessageSchema) "messages" [] fields) as [ms|e3];
      [|split; [discriminate | intros (_ & _ & H & _); discriminate H]].
    destruct (at_field (zDefault ThemeSchema hand_drawn) "style" [] fields) as [style|e4];
      [|split; [discriminate | intros (_ & _ & _ & H & _); discriminate H]].
    destruct (at_field (zOptional OutputOptionsSchema) "output" [] fields) as [out|e5];
      [|split; [discriminate | intros (_ & _ & _ & _ & H); discriminate H]].
    cbn [rbind]. split.
    - intros H. injection H as <-. repeat split.
    - intros (Hp & Ht & Hm & Hs & Ho).
      injection Hp as ->. injection Ht as ->. injection Hm as ->.
      injection Hs as ->. injection Ho as ->. destruct q; reflexivity. }
  split; [|split; [exact Hiff|]].
  - destruct d as [title ps ms style out].
    unfold parseDiagram, DiagramSchema, zObject, sequenceToJson.
    cbn [field JsMap.get String.eqb Ascii.eqb Bool.eqb app sd_title sd_participants
         sd_messages sd_style sd_output].
    unfold SequenceDiagramSchema, at_field.
    cbn [field JsMap.get String.eqb Ascii.eqb Bool.eqb app].
    unfold zArray at 1. rewrite (rmapi_roundtrip _ participantToJson);
      [| intros; apply participant_roundtrip].
    cbn [rbind].
    unfold zArray at 1. rewrite (rmapi_roundtrip _ messageToJson);
      [| intros; apply message_roundtrip].
    cbn [rbind].
    destruct title as [t|], style, out as [[[] [pth|]]|]; reflexivity.
  - intros fields q H.
    assert (Htype : field "type" fields = Some (JStr "sequence")).
    { revert H. unfold parseDiagram, DiagramSchema, zObject.
      destruct (field "type" fields) as [[| | |t| |]|]; try discriminate.
      destruct (string_dec t "sequence") as [->|Hs]; [reflexivity|].
      destruct (string_dec t "flow") as [->|Hf].
      - cbv beta iota. destruct (FlowDiagramSchema [] fields); discriminate.
      - intros H. exfalso.
        repeat match type of H with
               | context [match ?x with _ => _ end] =>
                   is_var x; destruct x; try discriminate H
               end;
        try (apply Hf; reflexivity); try (apply Hs; reflexivity). }
    split; [exact Htype|].
    apply (Hiff fields q Htype) in H. destruct H as ((items & Hi & Hf) & _).
    exists items. split; [exact Hi|]. eapply Forall2_length, Hf.
Qed.

End ParserProperties.

(* ------------------------------------------------------------------ *)
(** ** Determinism *)

(** the drawing itself depends on the seed it starts from: the reset at
    the entry of the renderers is what makes their output repeatable *)
Lemma content_depends_on_seed :
  flatten (rcat (fst (flowContent (oneNode "Node A") (getThemeConfig hand_drawn) 42)))
  <> flatten (rcat (fst (flowContent (oneNode "Node A") (getThemeConfig hand_drawn) 43))).
Proof. vm_compute. discriminate. Qed.

Section Determinism.
Context {N : JsNum}.
Variable elkLayout : FlowLayout.ElkNode -> result string FlowLayout.ElkNode.
Variable svgToPng : string -> result string string.

Lemma renderFlowDiagram_resets (layout : LayoutResult num) (theme : Theme)
    (title : option string) (s : Z) :
  renderFlowDiagram layout theme title s
  = bind (flowContent layout (getThemeConfig theme))
         (fun parts => ret (assemble (lr_width layout) (lr_height layout) title
                                     (getThemeConfig theme) parts))
         initialSeed.
Proof. reflexivity. Qed.

Lemma renderSequenceDiagram_resets (layout : SequenceLayoutResult num) (theme : Theme)
    (title : option string) (s : Z) :
  renderSequenceDiagram layout theme title s
  = bind (sequenceContent layout (getThemeConfig theme))
         (fun parts => ret (assemble (slr_width layout) (slr_height layout) title
                                     (getThemeConfig theme) parts))
         initialSeed.
Proof. reflexivity. Qed.

Lemma renderDiagram_any_seed (d : DiagramDef) (s s' : Z) :
  fst (renderDiagram elkLayout d s) = fst (renderDiagram elkLayout d s').
Proof.
  destruct d as [flow|sq]; unfold renderDiagram.
  - destruct (FlowLayout.layoutFlowDiagram elkLayout flow) as [layout|reason];
      [|reflexivity].
    unfold bind at 1 2.
    rewrite (renderFlowDiagram_resets layout _ _ s),
            (renderFlowDiagram_resets layout _ _ s').
    reflexivity.
  - unfold bind at 1 2.
    rewrite (renderSequenceDiagram_resets _ _ _ s),
            (renderSequenceDiagram_resets _ _ _ s').
    reflexivity.
Qed.

(** C1.  The SVG that [generateDiagram] returns for an input does not
    depend on the state the generator was left in: two calls, one after
    the other or from any two states, return the same result.  Both
    renderers set the seed to 42 on entry and draw from there. *)
Theorem generate_deterministic (input : json) (wantPng : bool) (s s' : Z)
    (flow : LayoutResult num) (sq : SequenceLayoutResult num)
    (theme : Theme) (title : option string) :
  fst (generateDiagram elkLayout svgToPng input wantPng s)
  = fst (generateDiagram elkLayout svgToPng input wantPng s')
  /\ fst (generateDiagram elkLayout svgToPng input wantPng s)
     = fst (generateDiagram elkLayout svgToPng input wantPng
              (snd (generateDiagram elkLayout svgToPng input wantPng s)))
  /\ renderFlowDiagram flow theme title s = renderFlowDiagram flow theme title s'
  /\ renderSequenceDiagram sq theme title s = renderSequenceDiagram sq theme title s'
  /\ snd (resetSeed s) = 42.
Proof.
  assert (H : forall a b,
             fst (generateDiagram elkLayout svgToPng input wantPng a)
             = fst (generateDiagram elkLayout svgToPng input wantPng b)).
  { intros a b. unfold generateDiagram.
    destruct (parseDiagram input) as [d|e]; [|reflexivity].
    unfold bind. pose proof (renderDiagram_any_seed d a b) as E.
    destruct (renderDiagram elkLayout d a) as [r1 s1],
             (renderDiagram elkLayout d b) as [r2 s2].
    simpl in E. subst r2. reflexivity. }
  split; [apply H|]. split; [apply H|].
  split; [now rewrite !renderFlowDiagram_resets|].
  split; [now rewrite !renderSequenceDiagram_resets|].
  reflexivity.
Qed.

End Determinism.

(* ------------------------------------------------------------------ *)
(** ** Maps and loops *)

Lemma get_set_none {V : Type} (k k' : string) (v : V) (m : JsMap.t V) :
  k <> k' -> JsMap.get k m = None -> JsMap.get k (JsMap.set k' v m) = None.
Proof.
  intros Hne. induction m as [|[k0 v0] m IH]; simpl; intros H.
  - destruct (String.eqb_spec k k'); [contradiction | reflexivity].
  - destruct (String.eqb_spec k k0) as [->|Hk0]; [discriminate|].
    destruct (String.eqb k' k0); simpl;
      destruct (String.eqb_spec k k0); try contradiction; auto.
Qed.

Lemma get_ofList_none {A : Type} (key : A -> string) (l : list A) (k : string) :
  ~ In k (map key l) -> JsMap.get k (JsMap.ofList key l) = None.
Proof.
  unfold JsMap.ofList.
  assert (G : forall m, JsMap.get k m = None -> ~ In k (map key l) ->
                        JsMap.get k (fold_left (fun m a => JsMap.set (key a) a m) l m) = None).
  { induction l as [|a l IH]; intros m Hm Hin; simpl; [exact Hm|].
    apply IH.
    - apply get_set_none; [|exact Hm]. intro E. apply Hin. left. now symmetry.
    - intro H. apply Hin. now right. }
  intros Hin. apply G; [reflexivity | exact Hin].
Qed.

Lemma mapM_app {A B : Type} (f : A -> M B) (l1 l2 : list A) (s : Z) :
  mapM f (l1 ++ l2) s
  = (let (r1, s1) := mapM f l1 s in
     let (r2, s2) := mapM f l2 s1 in ((r1 ++ r2)%list, s2)).
Proof.
  revert s. induction l1 as [|a l1 IH]; intros s; simpl.
  - unfold ret. destruct (mapM f l2 s); reflexivity.
  - unfold bind. destruct (f a s) as [b s1]. rewrite IH.
    destruct (mapM f l1 s1) as [r1 s2]. unfold ret. cbn iota.
    destruct (mapM f l2 s2) as [r2 s3]. reflexivity.
Qed.

Lemma mapM_length {A B : Type} (f : A -> M B) (l : list A) (s : Z) :
  List.length (fst (mapM f l s)) = List.length l.
Proof.
  revert s. induction l as [|a l IH]; intros s; simpl; [reflexivity|].
  unfold bind. destruct (f a s) as [b s1]. specialize (IH s1).
  destruct (mapM f l s1) as [bs s2]. simpl in *. now rewrite IH.
Qed.

Lemma mapMi_length {A B : Type} (f : nat -> A -> M B) (l : list A) (i : nat) (s : Z) :
  List.length (fst (mapMi f i l s)) = List.length l.
Proof.
  revert i s. induction l as [|a l IH]; intros i s; simpl; [reflexivity|].
  unfold bind. destruct (f i a s) as [b s1]. specialize (IH (S i) s1).
  destruct (mapMi f (S i) l s1) as [bs s2]. simpl in *. now rewrite IH.
Qed.

(* ------------------------------------------------------------------ *)
(** ** Flow layout *)



Module FlowLayoutProperties.
Import FlowLayout.

Section WithNumbers.
Context {N : JsNum}.
Variable elkLayout : ElkNode -> result string ElkNode.



End WithNumbers.

End FlowLayoutProperties.

(* ------------------------------------------------------------------ *)
(** ** Labels in the output *)


Section Labels.
Context {N : JsNum}.

Lemma flatten_app (a b : rope) : flatten (a ++ b)%list = flatten a ++ flatten b.
Proof.
  induction a as [|p a IH]; simpl; [reflexivity|]. now rewrite IH, append_assoc.
Qed.

Lemma flatten_lit (t : string) : flatten (lit t) = t.
Proof. simpl. apply append_nil_r. Qed.

Lemma substr_rcat (r : rope) (l : list rope) :
  In r l -> Str.Substr (flatten r) (flatten (rcat l)).
Proof.
  unfold rcat. induction l as [|x l IH]; intros H; [contradiction|].
  simpl. rewrite flatten_app. destruct H as [->|H].
  - apply substr_app_r, substr_refl.
  - apply substr_app_l, IH, H.
Qed.

Lemma substr_rjoin (sep : string) (r : rope) (l : list rope) :
  In r l -> Str.Substr (flatten r) (flatten (rjoin sep l)).
Proof.
  induction l as [|x l IH]; intros H; [contradiction|].
  cbn [rjoin]. destruct l as [|y l'].
  - destruct H as [->|[]]. apply substr_refl.
  - destruct H as [->|H].
    + apply substr_rcat. now left.
    + eapply substr_trans; [apply IH, H|]. apply substr_rcat. simpl. tauto.
Qed.

Lemma substr_lit_rcat (t : string) (l : list rope) :
  In (lit t) l -> Str.Substr t (flatten (rcat l)).
Proof. intros H. apply substr_rcat in H. now rewrite flatten_lit in H. Qed.


Lemma in_indexed {A : Type} (l : list A) (k : nat) (a : A) :
  In a l -> exists i, In (i, a) (combine (seq k (List.length l)) l).
Proof.
  revert k. induction l as [|x l IH]; intros k H; [contradiction|].
  destruct H as [->|H].
  - exists k. now left.
  - destruct (IH (S k) H) as [i Hi]. exists i. now right.
Qed.



Lemma mapMi_in {A B : Type} (f : nat -> A -> M B) (l : list A) (k : nat) (s : Z) (a : A) :
  In a l -> exists i s1, In (fst (f i a s1)) (fst (mapMi f k l s)).
Proof.
  revert k s. induction l as [|x l IH]; intros k s H; [contradiction|].
  simpl. unfold bind. destruct H as [->|H].
  - exists k, s. destruct (f k a s) as [b s1]. destruct (mapMi f (S k) l s1) as [bs s2].
    now left.
  - destruct (f k x s) as [b s1]. destruct (IH (S k) s1 H) as (i & s' & Hi).
    exists i, s'. destruct (mapMi f (S k) l s1) as [bs s2]. now right.
Qed.

Lemma elements_after_fold (parts : list rope) (b : SvgBuilder) :
  sb_elements (fold_left (fun b0 part => addElement part b0) parts b)
  = (sb_elements b ++ parts)%list.
Proof.
  revert b. induction parts as [|p parts IH]; intros b; simpl.
  - now rewrite app_nil_r.
  - rewrite IH. simpl. now rewrite <- app_assoc.
Qed.

Lemma svg_has_element (b : SvgBuilder) (el : rope) :
  In el (sb_elements b) -> Str.Substr (flatten el) (svgToString b).
Proof.
  intros H. unfold svgToString.
  eapply substr_trans; [| apply substr_rjoin with (r := rcat [lit "  "; el])].
  - apply substr_rcat. simpl. tauto.
  - unfold svgParts. rewrite !in_app_iff. right. right. right. left.
    apply (in_map (fun e => rcat [lit "  "; e])), H.
Qed.

Lemma assemble_has_part (width height : num) (title : option string) (config : ThemeConfig)
    (parts : list rope) (part : rope) :
  In part parts -> Str.Substr (flatten part) (assemble width height title config parts).
Proof.
  intros H. unfold assemble.
  destruct (Z.gtb_spec (titleOffsetOf title) 0) as [Hgt|Hle].
  - eapply substr_trans; [| apply svg_has_element; unfold addElement; cbn [sb_elements];
                            apply in_or_app; right; left; reflexivity].
    eapply substr_trans; [apply substr_rjoin, H|].
    apply substr_rcat. simpl. tauto.
  - apply svg_has_element. rewrite elements_after_fold. apply in_or_app. now right.
Qed.


Variable elkLayout : FlowLayout.ElkNode -> result string FlowLayout.ElkNode.


End Labels.


(* ------------------------------------------------------------------ *)
(** ** Messages without a participant *)

Section DanglingMessages.
Context {N : JsNum}.

Lemma renderMessage_dangling (msg : SequenceMessage num)
    (participants : list (SequenceParticipant num)) (config : ThemeConfig) (s : Z) :
  ~ In (sm_from msg) (map (@sp_id num) participants)
  \/ ~ In (sm_to msg) (map (@sp_id num) participants) ->
  renderMessage msg (JsMap.ofList (@sp_id num) participants) config s = ([], s).
Proof.
  intros [H|H]; apply get_ofList_none in H; unfold renderMessage; rewrite H.
  - reflexivity.
  - destruct (JsMap.get (sm_from msg) _); reflexivity.
Qed.

End DanglingMessages.

(* ------------------------------------------------------------------ *)
(** ** Number formatting *)

(** C3, refuted as stated.  In the document drawn for one rectangle
    (clean theme), the position of the text element and the size and
    viewBox of the root are written without a decimal place, while the
    rectangle's own coordinates have one. *)
Lemma text_and_root_not_one_decimal :
  let doc := fst (renderFlowDiagram (oneNode "Node A") clean None 0) in
  attrValues "x" doc = ["50.0"; "110"]
  /\ attrValues "y" doc = ["50.0"; "80"]
  /\ attrValues "width" doc = ["300"; "300"; "120.0"]
  /\ attrValues "viewBox" doc = ["0 0 300 200"]
  /\ forallb oneDecimal (attrValues "x" doc) = false
  /\ forallb oneDecimal (attrValues "y" doc) = false
  /\ forallb oneDecimal (attrValues "width" doc) = false.
Proof. vm_compute. repeat split; reflexivity. Qed.

Section FormattingProperties.
Context {N : JsNum}.
Variable config : ThemeConfig.

Local Abbreviation fc := (fixedCoordinates config).
Local Abbreviation fcM := (fixedCoordinatesM config).

Lemma fc_nil : fc [].
Proof. constructor. Qed.

Lemma fc_app (a b : rope) : fc a -> fc b -> fc (a ++ b)%list.
Proof. intros Ha Hb. apply Forall_app. now split. Qed.

Lemma fc_rcat (l : list rope) : Forall fc l -> fc (rcat l).
Proof.
  unfold rcat. induction 1 as [|r l Hr Hl IH]; simpl; [apply fc_nil | now apply fc_app].
Qed.

Lemma fc_lit (t : string) : fc (lit t).
Proof. repeat constructor. Qed.

Lemma fc_fx (v : num) : fc (fx v).
Proof. repeat constructor. Qed.

Lemma fc_pl (v : num) : In v (styleNumbers config) -> fc (pl v).
Proof. intros H. constructor; [exact H | constructor]. Qed.

Lemma fc_rjoin (sep : string) (l : list rope) : Forall fc l -> fc (rjoin sep l).
Proof.
  induction 1 as [|r l Hr Hl IH]; [apply fc_nil|].
  cbn [rjoin]. destruct l as [|r' l']; [exact Hr|].
  apply fc_rcat. repeat constructor; [exact Hr | exact IH].
Qed.

Lemma fc_attr (name : string) (v : rope) : fc v -> fc (attr name v).
Proof. intros H. apply fc_rcat. repeat constructor. exact H. Qed.

Lemma fc_map {A : Type} (f : A -> rope) (l : list A) :
  (forall a, fc (f a)) -> Forall fc (map f l).
Proof. intros H. induction l; simpl; constructor; auto. Qed.

Lemma fcM_ret (r : rope) : fc r -> fcM (ret r).
Proof. intros H s. exact H. Qed.

(** after a call whose result may be any value *)
Lemma fcM_bind_any {A : Type} (m : M A) (k : A -> M rope) :
  (forall a, fcM (k a)) -> fcM (bind m k).
Proof. intros H s. unfold bind. destruct (m s) as [a s1]. apply H. Qed.

(** after a call that returns a rope *)
Lemma fcM_bind_rope (m : M rope) (k : rope -> M rope) :
  fcM m -> (forall r, fc r -> fcM (k r)) -> fcM (bind m k).
Proof.
  intros Hm H s. unfold bind. specialize (Hm s).
  destruct (m s) as [r s1]. apply H. exact Hm.
Qed.

Lemma fcM_mapM {A : Type} (f : A -> M rope) (l : list A) (s : Z) :
  (forall a, fcM (f a)) -> Forall fc (fst (mapM f l s)).
Proof.
  intros H. revert s. induction l as [|a l IH]; intros s; simpl; [constructor|].
  unfold bind. pose proof (H a s) as Ha. destruct (f a s) as [r s1].
  specialize (IH s1). destruct (mapM f l s1) as [rs s2]. constructor; assumption.
Qed.

Lemma fcM_bind_ropes {A : Type} (f : A -> M rope) (l : list A) (k : list rope -> M rope) :
  (forall a, fcM (f a)) -> (forall rs, Forall fc rs -> fcM (k rs)) ->
  fcM (bind (mapM f l) k).
Proof.
  intros Hf H s. unfold bind. pose proof (@fcM_mapM A f l s Hf) as Hl.
  destruct (mapM f l s) as [rs s1]. apply H. exact Hl.
Qed.

Create HintDb fixed discriminated.

(** ropes: split a template into its parts *)
Ltac fc_rope :=
  repeat first
    [ assumption
    | apply fc_nil | apply fc_lit | apply fc_fx
    | apply fc_pl; unfold styleNumbers; simpl; tauto
    | apply fc_attr | apply fc_rcat | apply fc_rjoin
    | apply Forall_cons | apply Forall_nil
    | apply fc_map; intro
    | solve [auto with fixed] ].

(** computations: follow the calls in order *)
Ltac fc_run :=
  cbv zeta;
  repeat first
    [ apply fcM_ret; solve [fc_rope]
    | solve [auto with fixed]
    | apply fcM_bind_rope; [solve [auto with fixed] | intros ? ?]
    | apply fcM_bind_ropes;
      [let x := fresh in intros x; try destruct x; cbv beta iota; solve [fc_run]
      | intros ? ?]
    | apply fcM_bind_any; intro
    | match goal with
      | |- fixedCoordinatesM _ (if ?c then _ else _) => destruct c
      | |- fixedCoordinatesM _ (let (_, _) := ?c in _) => destruct c
      end ];
  cbv zeta.

Lemma fc_dashAttr (dashArray : option string) : fc (dashAttr dashArray).
Proof. destruct dashArray as [d|]; simpl; [destruct (Str.truthy d)|]; fc_rope. Qed.
#[local] Hint Resolve fc_dashAttr : fixed.

Lemma fc_fillAttrs (fillColor : string) : fc (fillAttrs fillColor config).
Proof. unfold fillAttrs. fc_rope. Qed.

Lemma fc_strokeAttrs (strokeColor : string) : fc (strokeAttrs strokeColor config).
Proof. unfold strokeAttrs. fc_rope. Qed.
#[local] Hint Resolve fc_fillAttrs fc_strokeAttrs : fixed.

Lemma fc_pxy (p : XY num) : fc (pxy p).
Proof. unfold pxy. fc_rope. Qed.

Lemma fc_pcomma (p : XY num) : fc (pcomma p).
Proof. unfold pcomma. fc_rope. Qed.
#[local] Hint Resolve fc_pxy fc_pcomma : fixed.

Lemma fc_polyPath (pts : list (XY num)) : fc (polyPath pts).
Proof. unfold polyPath. fc_rope. Qed.
#[local] Hint Resolve fc_polyPath : fixed.

Lemma fc_cleanPolygon (pts : list (XY num)) (fillColor strokeColor : string) :
  fc (cleanPolygon pts fillColor strokeColor config).
Proof. unfold cleanPolygon. fc_rope. Qed.

Lemma fc_cleanEllipse (cx cy rx ry : num) (fillColor strokeColor : string) :
  fc (cleanEllipse cx cy rx ry fillColor strokeColor config).
Proof. unfold cleanEllipse. fc_rope. Qed.
#[local] Hint Resolve fc_cleanPolygon fc_cleanEllipse : fixed.

Lemma fc_selfLoop (pts : list (XY num)) (strokeColor : string) (dashArray : option string) :
  fc (selfLoop pts strokeColor config dashArray).
Proof. unfold selfLoop. fc_rope. Qed.

Lemma fc_labelBackground (x y : num) (w h : Z) : fc (labelBackground x y w h).
Proof. unfold labelBackground. fc_rope. Qed.

Lemma fcM_sketchyLine (x1 y1 x2 y2 : num) (strokeColor : string) (dashArray : option string) :
  fcM (sketchyLine x1 y1 x2 y2 config strokeColor dashArray).
Proof. unfold sketchyLine. fc_run. Qed.
#[local] Hint Resolve fcM_sketchyLine : fixed.

Lemma fcM_sketchyPolyline (points : list (XY num)) (strokeColor : string)
    (dashArray : option string) :
  fcM (sketchyPolyline points config strokeColor dashArray).
Proof. unfold sketchyPolyline. fc_run. Qed.

Lemma fcM_sketchyPolygon (pts : list (XY num)) (fill : rope) (strokeColor : string)
    (dashArray : option string) :
  fc fill -> fcM (sketchyPolygon pts fill config strokeColor dashArray).
Proof. intros H. unfold sketchyPolygon. fc_run. Qed.
#[local] Hint Resolve fcM_sketchyPolyline fcM_sketchyPolygon : fixed.

Lemma fcM_renderRectangle (x y w h : num) (fillColor strokeColor : string) :
  fcM (renderRectangle x y w h fillColor strokeColor config).
Proof. unfold renderRectangle. fc_run. Qed.

Lemma fcM_renderEllipse (cx cy rx ry : num) (fillColor strokeColor : string) :
  fcM (renderEllipse cx cy rx ry fillColor strokeColor config).
Proof. unfold renderEllipse. fc_run. Qed.
#[local] Hint Resolve fcM_renderRectangle fcM_renderEllipse : fixed.

Lemma fcM_renderDiamond (x y w h : num) (fillColor strokeColor : string) :
  fcM (renderDiamond x y w h fillColor strokeColor config).
Proof. unfold renderDiamond. fc_run. Qed.

Lemma fcM_renderCylinder (x y w h : num) (fillColor strokeColor : string) :
  fcM (renderCylinder x y w h fillColor strokeColor config).
Proof. unfold renderCylinder. fc_run. Qed.

Lemma fcM_cloudCurve (j ax ay bx_ by_ : num) (anchor : XY num) :
  fcM (cloudCurve j ax ay bx_ by_ anchor).
Proof. unfold cloudCurve. fc_run. Qed.
#[local] Hint Resolve fcM_cloudCurve : fixed.

Lemma fcM_renderCloud (x y w h : num) (fillColor strokeColor : string) :
  fcM (renderCloud x y w h fillColor strokeColor config).
Proof. unfold renderCloud. fc_run. Qed.

Lemma fcM_renderHexagon (x y w h : num) (fillColor strokeColor : string) :
  fcM (renderHexagon x y w h fillColor strokeColor config).
Proof. unfold renderHexagon. fc_run. Qed.

Lemma fcM_renderParallelogram (x y w h : num) (fillColor strokeColor : string) :
  fcM (renderParallelogram x y w h fillColor strokeColor config).
Proof. unfold renderParallelogram. fc_run. Qed.
#[local] Hint Resolve fcM_renderDiamond fcM_renderCylinder fcM_renderCloud
  fcM_renderHexagon fcM_renderParallelogram : fixed.

Lemma fcM_shapeSvg (node : LayoutNode num) (fillColor strokeColor : string) :
  fcM (shapeSvg node fillColor strokeColor config).
Proof. unfold shapeSvg. destruct (ln_shape node); auto with fixed. Qed.

Lemma fcM_renderArrowhead (tipX tipY fromX fromY : num) (color : string) :
  fcM (renderArrowhead tipX tipY fromX fromY color config).
Proof. unfold renderArrowhead. fc_run. Qed.

Lemma fcM_groupFrame (group : LayoutGroup num) : fcM (groupFrame group config).
Proof. unfold groupFrame. fc_run. Qed.

Lemma renderText_plain_position (x y : num) (text : string) (fontSize : num)
    (family color : string) (bold : bool) (maxChars : option Z) :
  In (Plain x) (renderText x y text fontSize family color bold maxChars)
  /\ In (Plain (textY y fontSize text maxChars))
        (renderText x y text fontSize family color bold maxChars).
Proof.
  unfold renderText, textY.
  destruct (Str.len text >? 20)%Z; split; simpl; tauto.
Qed.

Lemma svgParts_plain_size (b : SvgBuilder) :
  In (Plain (sb_width b)) (hd [] (svgParts b))
  /\ In (Plain (sb_height b)) (hd [] (svgParts b)).
Proof. split; simpl; tauto. Qed.

End FormattingProperties.

(** C3, amended.  Every coordinate in the geometry the renderer draws (the
    seven shapes, lines and polylines, arrowheads, group frames,
    self-message loops, label backgrounds) is written with [toFixed(1)];
    the only numbers written there by the default conversion are the
    theme's stroke width, half stroke width, fill opacity and corner
    radius.  The position of a text element and the width and height of
    the root element are written by the default conversion. *)
Theorem geometry_fixed_text_and_root_plain {N : JsNum} (config : ThemeConfig)
    (node : LayoutNode num) (group : LayoutGroup num) (points : list (XY num))
    (fillColor strokeColor text family : string) (dashArray : option string)
    (x y x' y' fontSize : num) (w h : Z) (bold : bool) (maxChars : option Z)
    (b : SvgBuilder) (s : Z) :
  fixedCoordinates config (fst (shapeSvg node fillColor strokeColor config s))
  /\ fixedCoordinates config (fst (sketchyLine x y x' y' config strokeColor dashArray s))
  /\ fixedCoordinates config (fst (sketchyPolyline points config strokeColor dashArray s))
  /\ fixedCoordinates config (fst (renderArrowhead x y x' y' strokeColor config s))
  /\ fixedCoordinates config (fst (groupFrame group config s))
  /\ fixedCoordinates config (selfLoop points strokeColor config dashArray)
  /\ fixedCoordinates config (labelBackground x y w h)
  /\ In (Plain x) (renderText x y text fontSize family strokeColor bold maxChars)
  /\ In (Plain (textY y fontSize text maxChars))
        (renderText x y text fontSize family strokeColor bold maxChars)
  /\ In (Plain (sb_width b)) (hd [] (svgParts b))
  /\ In (Plain (sb_height b)) (hd [] (svgParts b)).
Proof.
  split; [apply fcM_shapeSvg|].
  split; [apply fcM_sketchyLine|].
  split; [apply fcM_sketchyPolyline|].
  split; [apply fcM_renderArrowhead|].
  split; [apply fcM_groupFrame|].
  split; [apply fc_selfLoop|].
  split; [apply fc_labelBackground|].
  split; [apply renderText_plain_position|].
  split; [apply renderText_plain_position|].
  apply svgParts_plain_size.
Qed.

(* ================================================================== *)
(** * Further properties *)

(* ------------------------------------------------------------------ *)
(** ** More on XML escaping *)

Lemma escapeXml_app (a b : string) : escapeXml (a ++ b) = escapeXml a ++ escapeXml b.
Proof.
  induction a as [|c a IH]; [reflexivity|].
  simpl. rewrite !escapeXml_cons, IH. now rewrite append_assoc.
Qed.

Lemma entityOf_cases (c : ascii) :
  (c = "&"%char /\ entityOf c = "&amp;")
  \/ (c = "<"%char /\ entityOf c = "&lt;")
  \/ (c = ">"%char /\ entityOf c = "&gt;")
  \/ (c = ascii_of_nat 34 /\ entityOf c = "&quot;")
  \/ (c = "'"%char /\ entityOf c = "&apos;")
  \/ (isSpecial c = false /\ entityOf c = String c EmptyString).
Proof.
  unfold entityOf, isSpecial, isMarkup.
  destruct (Ascii.eqb_spec c "&"); [now left|]. right.
  destruct (Ascii.eqb_spec c "<"); [now left|]. right.
  destruct (Ascii.eqb_spec c ">"); [now left|]. right.
  destruct (Ascii.eqb_spec c (ascii_of_nat 34)); [now left|]. right.
  destruct (Ascii.eqb_spec c "'"); [now left|]. right.
  split; reflexivity.
Qed.

Lemma entityOf_prefix_free (c d : ascii) (x y : string) :
  entityOf c ++ x = entityOf d ++ y -> c = d /\ x = y.
Proof.
  intros H.
  destruct (entityOf_cases c) as [[-> Ec]|[[-> Ec]|[[-> Ec]|[[-> Ec]|[[-> Ec]|[Sc Ec]]]]]];
  destruct (entityOf_cases d) as [[-> Ed]|[[-> Ed]|[[-> Ed]|[[-> Ed]|[[-> Ed]|[Sd Ed]]]]]];
  rewrite ?Ec, ?Ed in H; simpl in H;
  try (injection H as H; subst; try discriminate; split; reflexivity);
  try discriminate H;
  try (injection H as H1 H2; subst; discriminate Sd);
  try (injection H as H1 H2; subst; discriminate Sc).
Qed.

Lemma escapeXml_inj (s t : string) : escapeXml s = escapeXml t -> s = t.
Proof.
  revert t. induction s as [|c s IH]; intros [|d t] H.
  - reflexivity.
  - rewrite escapeXml_cons in H.
    destruct (entityOf_cases d) as [[_ E]|[[_ E]|[[_ E]|[[_ E]|[[_ E]|[_ E]]]]]];
      rewrite E in H; discriminate H.
  - rewrite escapeXml_cons in H.
    destruct (entityOf_cases c) as [[_ E]|[[_ E]|[[_ E]|[[_ E]|[[_ E]|[_ E]]]]]];
      rewrite E in H; discriminate H.
  - rewrite !escapeXml_cons in H. apply entityOf_prefix_free in H.
    destruct H as [-> H]. f_equal. apply IH, H.
Qed.

(** X1.  [escapeXml] is injective: two strings with the same escaped form
    are equal, so distinct ids or labels stay distinct in the document.
    It also commutes with concatenation. *)
Theorem escapeXml_injective (s t a b : string) :
  (escapeXml s = escapeXml t -> s = t)
  /\ escapeXml (a ++ b) = escapeXml a ++ escapeXml b.
Proof. split; [apply escapeXml_inj | apply escapeXml_app]. Qed.

Lemma entityOf_length (c : ascii) :
  (1 <= String.length (entityOf c))%nat
  /\ (String.length (entityOf c) = 1%nat <-> isSpecial c = false).
Proof.
  destruct (entityOf_cases c) as [[-> E]|[[-> E]|[[-> E]|[[-> E]|[[-> E]|[S E]]]]]];
    rewrite E; simpl; (split; [lia|]); split; intros H; try discriminate H;
    first [reflexivity | exact S].
Qed.

Lemma length_app_string (a b : string) :
  String.length (a ++ b) = (String.length a + String.length b)%nat.
Proof. induction a as [|c a IH]; simpl; [reflexivity | now rewrite IH]. Qed.

Lemma escapeXml_length (s : string) : (String.length s <= String.length (escapeXml s))%nat.
Proof.
  induction s as [|c s IH]; [simpl; lia|].
  rewrite escapeXml_cons, length_app_string. simpl.
  pose proof (proj1 (entityOf_length c)). lia.
Qed.

(** X2.  [escapeXml] never shortens a string, and it returns its argument
    unchanged exactly when the argument holds none of the five characters
    ampersand, angle brackets, double and single quote. *)
Theorem escapeXml_fixpoint (s : string) :
  (String.length s <= String.length (escapeXml s))%nat
  /\ (escapeXml s = s <-> allChars (fun c => negb (isSpecial c)) s = true).
Proof.
  split; [apply escapeXml_length|].
  induction s as [|c s IH]; [simpl; tauto|].
  rewrite escapeXml_cons. simpl. split.
  - intros H.
    assert (Hl : String.length (entityOf c ++ escapeXml s) = S (String.length s))
      by now rewrite H.
    rewrite length_app_string in Hl.
    pose proof (entityOf_length c) as [H1 H2]. pose proof (escapeXml_length s) as H3.
    assert (Hc : isSpecial c = false) by (apply H2; lia).
    destruct (entityOf_cases c) as [[-> E]|[[-> E]|[[-> E]|[[-> E]|[[-> E]|[_ E]]]]]];
      try discriminate Hc.
    rewrite E in H. simpl in H. injection H as H.
    rewrite Hc. simpl. apply IH, H.
  - intros H. apply andb_true_iff in H. destruct H as [Hc Hs].
    apply negb_true_iff in Hc.
    destruct (entityOf_cases c) as [[-> E]|[[-> E]|[[-> E]|[[-> E]|[[-> E]|[_ E]]]]]];
      try discriminate Hc.
    rewrite E. simpl. f_equal. apply IH, Hs.
Qed.

(* ------------------------------------------------------------------ *)
(** ** Text wrapping *)

Lemma concat_empty_cons (x : string) (l : list string) :
  String.concat EmptyString (x :: l) = x ++ String.concat EmptyString l.
Proof. destruct l; simpl; [now rewrite append_nil_r | reflexivity]. Qed.

Lemma concat_empty_app (l1 l2 : list string) :
  String.concat EmptyString (l1 ++ l2)
  = String.concat EmptyString l1 ++ String.concat EmptyString l2.
Proof.
  induction l1 as [|x l1 IH]; [reflexivity|].
  change ((x :: l1) ++ l2)%list with (x :: (l1 ++ l2))%list.
  now rewrite !concat_empty_cons, IH, append_assoc.
Qed.

Lemma stripWs_app (a b : string) : stripWs (a ++ b) = stripWs a ++ stripWs b.
Proof.
  induction a as [|c a IH]; simpl; [reflexivity|].
  destruct (Str.isWs c); simpl; now rewrite IH.
Qed.

Lemma stripWs_noWs (w : string) : noWs w = true -> stripWs w = w.
Proof.
  unfold noWs. induction w as [|c w IH]; simpl; [reflexivity|].
  intros H. apply andb_true_iff in H. destruct H as [Hc Hw].
  apply negb_true_iff in Hc. rewrite Hc. f_equal. apply IH, Hw.
Qed.

Lemma noWs_app (a b : string) : noWs (a ++ b) = (noWs a && noWs b)%bool.
Proof. apply allChars_app. Qed.

Lemma splitWsAux_concat (s cur : string) (inWs : bool) :
  String.concat EmptyString (Str.splitWsAux s cur inWs) = cur ++ stripWs s.
Proof.
  revert cur inWs. induction s as [|c s IH]; intros cur inWs; simpl.
  - now rewrite append_nil_r.
  - destruct (Str.isWs c).
    + destruct inWs; [apply IH|]. rewrite concat_empty_cons, IH. reflexivity.
    + rewrite IH, append_assoc. reflexivity.
Qed.

Lemma splitWsAux_noWs (s cur : string) (inWs : bool) :
  noWs cur = true -> Forall (fun w => noWs w = true) (Str.splitWsAux s cur inWs).
Proof.
  revert cur inWs. induction s as [|c s IH]; intros cur inWs Hc; simpl.
  - constructor; [exact Hc | constructor].
  - destruct (Str.isWs c) eqn:E.
    + destruct inWs; [apply IH, Hc|]. constructor; [exact Hc | now apply IH].
    + apply IH. rewrite noWs_app, Hc. unfold noWs. simpl. now rewrite E.
Qed.

Lemma len_app (a b : string) : Str.len (a ++ b) = Str.len a + Str.len b.
Proof. unfold Str.len. rewrite length_app_string. lia. Qed.

Lemma len_zero (a : string) : Str.len a = 0 <-> a = EmptyString.
Proof.
  unfold Str.len. destruct a; simpl; split; intros H; try reflexivity; try discriminate; lia.
Qed.

Lemma stripWs_nonempty_app (a b : string) :
  stripWs a <> EmptyString -> stripWs (a ++ b) <> EmptyString.
Proof.
  intros H E. rewrite stripWs_app in E. destruct (stripWs a); [now apply H | discriminate E].
Qed.

Lemma wrapStep_invariant (maxChars : Z) (lines : list string) (cur word : string) :
  noWs word = true ->
  wrapInvariant maxChars lines cur ->
  wrapInvariant maxChars (fst (wrapStep maxChars (lines, cur) word))
                (snd (wrapStep maxChars (lines, cur) word)).
Proof.
  intros Hw [H1 H2 H3 H4]. unfold wrapStep.
  assert (Hword : word = EmptyString \/ stripWs word <> EmptyString).
  { destruct word; [now left|]. right. rewrite (stripWs_noWs _ Hw). discriminate. }
  destruct (Z.eqb_spec (Str.len cur) 0) as [E|E]; cbn [fst snd].
  - constructor; auto.
  - assert (Hcur : stripWs cur <> EmptyString).
    { destruct H4 as [->|H4]; [now elim E | exact H4]. }
    destruct (Z.leb_spec (Str.len cur + 1 + Str.len word) maxChars) as [L|L]; cbn [fst snd].
    + constructor; auto.
      * left. rewrite !len_app. change (Str.len " ") with 1. lia.
      * right. now apply stripWs_nonempty_app.
    + constructor; auto.
      * apply Forall_app. split; [exact H1 | constructor; [exact H2 | constructor]].
      * apply Forall_app. split; [exact H3 | constructor; [exact Hcur | constructor]].
Qed.

Lemma wrapFold_invariant (maxChars : Z) (words lines : list string) (cur : string) :
  Forall (fun w => noWs w = true) words ->
  wrapInvariant maxChars lines cur ->
  wrapInvariant maxChars (fst (fold_left (wrapStep maxChars) words (lines, cur)))
                (snd (fold_left (wrapStep maxChars) words (lines, cur))).
Proof.
  intros Hw. revert lines cur.
  induction Hw as [|w words Hw Hws IH]; intros lines cur H; cbn [fold_left].
  - exact H.
  - pose proof (@wrapStep_invariant maxChars lines cur w Hw H) as H'.
    destruct (wrapStep maxChars (lines, cur) w) as [lines' cur']. apply IH, H'.
Qed.

Lemma wrapStep_content (maxChars : Z) (lines : list string) (cur word : string) :
  noWs word = true ->
  stripWs (String.concat EmptyString (fst (wrapStep maxChars (lines, cur) word))
           ++ snd (wrapStep maxChars (lines, cur) word))
  = stripWs (String.concat EmptyString lines ++ cur) ++ word.
Proof.
  intros Hw. unfold wrapStep.
  destruct (Z.eqb_spec (Str.len cur) 0) as [E|E]; cbn [fst snd].
  - apply len_zero in E. subst cur. rewrite !stripWs_app, (stripWs_noWs _ Hw). simpl.
    now rewrite append_nil_r.
  - destruct (Z.leb_spec (Str.len cur + 1 + Str.len word) maxChars) as [L|L]; cbn [fst snd].
    + rewrite !stripWs_app, (stripWs_noWs _ Hw). simpl. now rewrite append_assoc.
    + rewrite concat_empty_app, concat_empty_cons. simpl.
      rewrite append_nil_r, !stripWs_app, (stripWs_noWs _ Hw). reflexivity.
Qed.

Lemma wrapFold_content (maxChars : Z) (words lines : list string) (cur : string) :
  Forall (fun w => noWs w = true) words ->
  stripWs (String.concat EmptyString (fst (fold_left (wrapStep maxChars) words (lines, cur)))
           ++ snd (fold_left (wrapStep maxChars) words (lines, cur)))
  = stripWs (String.concat EmptyString lines ++ cur) ++ String.concat EmptyString words.
Proof.
  intros Hw. revert lines cur. induction Hw as [|w words Hw Hws IH]; intros lines cur.
  - simpl. now rewrite append_nil_r.
  - cbn [fold_left]. pose proof (@wrapStep_content maxChars lines cur w Hw) as H.
    destruct (wrapStep maxChars (lines, cur) w) as [lines' cur']. cbn [fst snd] in H.
    rewrite IH, H, concat_empty_cons, append_assoc. reflexivity.
Qed.

Lemma splitWs_noWs (text : string) : Forall (fun w => noWs w = true) (Str.splitWs text).
Proof. apply splitWsAux_noWs. reflexivity. Qed.

(** X3.  Wrapping loses no visible character and keeps them in order: the
    lines of [wrapText], put together, hold the characters of the text
    that are no white space, in the same order. *)
Theorem wrapText_keeps_content (text : string) (maxCharsPerLine : Z) :
  stripWs (String.concat EmptyString (wrapText text maxCharsPerLine)) = stripWs text.
Proof.
  unfold wrapText.
  destruct (Str.len text <=? maxCharsPerLine)%Z; [simpl; reflexivity|].
  pose proof (@wrapFold_content maxCharsPerLine (Str.splitWs text) [] EmptyString
                                (splitWs_noWs text)) as H.
  destruct (fold_left (wrapStep maxCharsPerLine) (Str.splitWs text) ([], EmptyString))
    as [lines cur].
  cbn [fst snd] in H. simpl in H. unfold Str.splitWs in H.
  rewrite splitWsAux_concat in H. simpl in H.
  destruct (Z.gtb_spec (Str.len cur) 0) as [G|G].
  - rewrite concat_empty_app, concat_empty_cons. simpl. rewrite append_nil_r. exact H.
  - assert (E : cur = EmptyString).
    { apply len_zero. unfold Str.len in *. lia. }
    subst cur. rewrite append_nil_r in H. exact H.
Qed.

(** X4.  Every line of [wrapText] has at most [maxCharsPerLine]
    characters, unless it is a single word (it holds no white space); and
    when the text is longer than [maxCharsPerLine], every line holds a
    visible character. *)
Theorem wrapText_lines_fit (text : string) (maxCharsPerLine : Z) (line : string) :
  In line (wrapText text maxCharsPerLine) ->
  (Str.len line <= maxCharsPerLine \/ noWs line = true)
  /\ (maxCharsPerLine < Str.len text -> stripWs line <> EmptyString).
Proof.
  unfold wrapText.
  destruct (Z.leb_spec (Str.len text) maxCharsPerLine) as [L|L].
  - intros [<-|[]]. split; [now left | lia].
  - pose proof (@wrapFold_invariant maxCharsPerLine (Str.splitWs text) [] EmptyString
                  (splitWs_noWs text)) as H.
    destruct (fold_left (wrapStep maxCharsPerLine) (Str.splitWs text) ([], EmptyString))
      as [lines cur].
    cbn [fst snd] in H.
    destruct H as [H1 H2 H3 H4].
    { constructor; [constructor | now right | constructor | now left]. }
    intros Hin.
    assert (Hin' : In line lines \/ (line = cur /\ 0 < Str.len cur)).
    { destruct (Z.gtb_spec (Str.len cur) 0) as [G|G]; [|now left].
      apply in_app_or in Hin. destruct Hin as [Hin|[<-|[]]]; [now left | right; split; auto]. }
    rewrite Forall_forall in H1, H3.
    destruct Hin' as [Hl|[-> Hpos]].
    + split; [apply H1, Hl | intros _; apply H3, Hl].
    + split; [exact H2|]. intros _. destruct H4 as [->|H4]; [|exact H4].
      unfold Str.len in Hpos. simpl in Hpos. lia.
Qed.

Lemma wrapText_lines_fit_witness :
  In "label that wraps" (wrapText longLabel 18)
  /\ Str.len "label that wraps" <= 18.
Proof.
  assert (H : In "label that wraps" (wrapText longLabel 18)) by (right; left; reflexivity).
  split; [exact H|].
  destruct (proj1 (@wrapText_lines_fit longLabel 18 "label that wraps" H)) as [L|L].
  - exact L.
  - discriminate L.
Defined.

(* ------------------------------------------------------------------ *)
(** ** More on the parser *)

Section MoreParserProperties.
Context {N : JsNum}.

Lemma node_roundtrip (path : list string) (n : NodeDef) :
  NodeSchema path (Some (nodeToJson n)) = Ok n.
Proof. destruct n as [id label [] [c|] [t|] [w|] [h|]]; reflexivity. Qed.

Lemma edge_roundtrip (path : list string) (e : EdgeDef) :
  EdgeSchema path (Some (edgeToJson e)) = Ok e.
Proof. destruct e as [from to [l|] [] [] [c|]]; reflexivity. Qed.

Lemma string_roundtrip (path : list string) (s : string) : zString path (Some (JStr s)) = Ok s.
Proof. reflexivity. Qed.

Lemma group_roundtrip (path : list string) (g : GroupDef) :
  GroupSchema path (Some (groupToJson g)) = Ok g.
Proof.
  destruct g as [id label contains color].
  unfold GroupSchema, zObject, groupToJson, at_field.
  cbn [field JsMap.get String.eqb Ascii.eqb Bool.eqb app gd_id gd_label gd_contains gd_color
       zString rbind].
  unfold zArray at 1.
  rewrite (rmapi_roundtrip _ JStr); [| intros; apply string_roundtrip].
  destruct label as [l|], color as [c|]; reflexivity.
Qed.

Lemma flow_roundtrip (d : FlowDiagramDef) : parseDiagram (flowToJson d) = Ok (Flow d).
Proof.
  destruct d as [title nodes edges groups style direction out].
  unfold parseDiagram, DiagramSchema, zObject, flowToJson.
  cbn [field JsMap.get String.eqb Ascii.eqb Bool.eqb app fd_title fd_nodes fd_edges
       fd_groups fd_style fd_direction fd_output].
  unfold FlowDiagramSchema, at_field.
  cbn [field JsMap.get String.eqb Ascii.eqb Bool.eqb app].
  unfold zArray at 1. rewrite (rmapi_roundtrip _ nodeToJson);
    [| intros; apply node_roundtrip].
  cbn [rbind]. unfold zDefault at 1, zArray at 1.
  rewrite (rmapi_roundtrip _ edgeToJson); [| intros; apply edge_roundtrip].
  cbn [rbind]. unfold zDefault at 1, zArray at 1.
  rewrite (rmapi_roundtrip _ groupToJson); [| intros; apply group_roundtrip].
  cbn [rbind].
  destruct title as [t|], style, direction, out as [[[] [pth|]]|]; reflexivity.
Qed.

Lemma sequence_roundtrip (d : SequenceDiagramDef) :
  parseDiagram (sequenceToJson d) = Ok (Sequence d).
Proof.
  destruct d as [title ps ms style out].
  unfold parseDiagram, DiagramSchema, zObject, sequenceToJson.
  cbn [field JsMap.get String.eqb Ascii.eqb Bool.eqb app sd_title sd_participants
       sd_messages sd_style sd_output].
  unfold SequenceDiagramSchema, at_field.
  cbn [field JsMap.get String.eqb Ascii.eqb Bool.eqb app].
  unfold zArray at 1. rewrite (rmapi_roundtrip _ participantToJson);
    [| intros; apply participant_roundtrip].
  cbn [rbind].
  unfold zArray at 1. rewrite (rmapi_roundtrip _ messageToJson);
    [| intros; apply message_roundtrip].
  cbn [rbind].
  destruct title as [t|], style, out as [[[] [pth|]]|]; reflexivity.
Qed.

(** X5.  Every flow diagram definition, written out as raw input, is
    accepted by [parseDiagram] and returned unchanged (nodes, edges and
    groups in their order, optional fields as given). *)
Theorem parseDiagram_flow_roundtrip (d : FlowDiagramDef) :
  parseDiagram (flowToJson d) = Ok (Flow d).
Proof. apply flow_roundtrip. Qed.

Lemma bareNode_parses (path : list string) (il : string * string) :
  NodeSchema path (Some (bareNode il)) = Ok (bareNodeDef il).
Proof. destruct il; reflexivity. Qed.

Lemma bareMessage_parses (path : list string) (m : string * string * string) :
  MessageSchema path (Some (bareMessage m)) = Ok (bareMessageDef m).
Proof. destruct m as [[f t] l]; reflexivity. Qed.

Lemma rmapi_map {A B C : Type} (f : nat -> B -> result SchemaError A) (g : C -> B)
    (h : C -> A) (l : list C) (i : nat) :
  (forall k c, f k (g c) = Ok (h c)) -> rmapi f i (map g l) = Ok (map h l).
Proof.
  intros H. revert i. induction l as [|a l IH]; intros i; simpl.
  - reflexivity.
  - rewrite H. simpl. rewrite IH. reflexivity.
Qed.

(** X6.  Defaults.  A flow input with only [type] and [nodes], the nodes
    with only [id] and [label], parses to rectangles, no edges, no groups,
    the hand-drawn theme and direction TB; a sequence input whose messages
    give only [from], [to] and [label] parses to solid messages in the
    hand-drawn theme. *)
Theorem parseDiagram_defaults (nodes : list (string * string))
    (participants : list ParticipantDef) (messages : list (string * string * string)) :
  parseDiagram (JObj [("type", JStr "flow"); ("nodes", JArr (map bareNode nodes))])
  = Ok (Flow (mkFlowDiagramDef None (map bareNodeDef nodes) [] [] hand_drawn TB None))
  /\ parseDiagram (JObj [("type", JStr "sequence");
                         ("participants", JArr (map participantToJson participants));
                         ("messages", JArr (map bareMessage messages))])
     = Ok (Sequence (mkSequenceDiagramDef None participants (map bareMessageDef messages)
                                          hand_drawn None)).
Proof.
  split.
  - unfold parseDiagram, DiagramSchema, zObject.
    cbn [field JsMap.get String.eqb Ascii.eqb Bool.eqb].
    unfold FlowDiagramSchema, at_field.
    cbn [field JsMap.get String.eqb Ascii.eqb Bool.eqb].
    unfold zArray at 1. rewrite (rmapi_map _ bareNode bareNodeDef);
      [| intros; apply bareNode_parses].
    reflexivity.
  - unfold parseDiagram, DiagramSchema, zObject.
    cbn [field JsMap.get String.eqb Ascii.eqb Bool.eqb].
    unfold SequenceDiagramSchema, at_field.
    cbn [field JsMap.get String.eqb Ascii.eqb Bool.eqb].
    unfold zArray at 1. rewrite (rmapi_roundtrip _ participantToJson);
      [| intros; apply participant_roundtrip].
    cbn [rbind]. unfold zArray at 1.
    rewrite (rmapi_map _ bareMessage bareMessageDef); [| intros; apply bareMessage_parses].
    reflexivity.
Qed.

End MoreParserProperties.

Section ParserErrors.
Context {N : JsNum}.

Lemma rbind_ok {E A B : Type} (r : result E A) (k : A -> result E B) (b : B) :
  rbind r k = Ok b -> exists a, r = Ok a /\ k a = Ok b.
Proof. destruct r as [a|e]; simpl; intros H; [eauto | discriminate]. Qed.


(** X7.  [parseDiagram] returns a flow diagram only for an object whose
    [type] is the string flow, and a sequence diagram only for one whose
    [type] is the string sequence; any other input is rejected. *)
Theorem parseDiagram_discriminates (input : json) (d : DiagramDef) :
  parseDiagram input = Ok d ->
  (typeOf input = Some "flow" /\ exists f, d = Flow f)
  \/ (typeOf input = Some "sequence" /\ exists q, d = Sequence q).
Proof.
  unfold parseDiagram, DiagramSchema, zObject, typeOf.
  destruct input as [| | | |items|fields]; try discriminate.
  destruct (field "type" fields) as [[| | |s| |]|]; try discriminate.
  intros H.
  destruct (string_dec s "flow") as [->|Hf].
  { left. split; [reflexivity|].
    apply rbind_ok in H. destruct H as (f & _ & H). inversion H. eauto. }
  destruct (string_dec s "sequence") as [->|Hs].
  { right. split; [reflexivity|].
    apply rbind_ok in H. destruct H as (q & _ & H). inversion H. eauto. }
  exfalso.
  repeat match type of H with
         | context [match ?x with _ => _ end] =>
             is_var x; destruct x; try discriminate H
         end;
  try (apply Hf; reflexivity); try (apply Hs; reflexivity).
Qed.


End ParserErrors.

Lemma parseDiagram_discriminates_witness :
  parseDiagram (N:=Exact.exact) (sequenceToJson twoMessages) = Ok (Sequence twoMessages)
  /\ typeOf (N:=Exact.exact) (sequenceToJson twoMessages) = Some "sequence".
Proof.
  split; [reflexivity|].
  destruct (@parseDiagram_discriminates Exact.exact (sequenceToJson twoMessages)
              (Sequence twoMessages) eq_refl) as [[H _]|[H _]].
  - discriminate H.
  - exact H.
Defined.


(* ------------------------------------------------------------------ *)
(** ** More on the sequence layout *)

Module SequenceLayoutExtents.
Import SequenceLayout.

Lemma fold_placeStep (ws : list Z) (acc : list Z) (c : Z) :
  fst (fold_left placeStep ws (acc, c))
  = (acc ++ centres c ws)%list.
Proof.
  revert acc c. induction ws as [|w r IH]; intros acc c; simpl.
  - now rewrite app_nil_r.
  - rewrite IH, <- app_assoc. reflexivity.
Qed.

Lemma combine_seated (ps : list ParticipantDef) (topY bottomY c : Z) :
  map (fun pcw : ParticipantDef * (Z * Z) =>
         let (p, cw) := pcw in
         mkSequenceParticipant (pd_id p) (pd_label p) (fst cw) topY bottomY (snd cw) (pd_color p))
      (combine ps (combine (centres c (map (fun p => computeParticipantWidth (pd_label p)) ps))
                           (map (fun p => computeParticipantWidth (pd_label p)) ps)))
  = seated topY bottomY c ps.
Proof.
  revert c. induction ps as [|p r IH]; intros c; simpl; [reflexivity|].
  f_equal. apply IH.
Qed.

Lemma extent_seated (ps : list ParticipantDef) (topY bottomY c : Z) :
  ps <> [] ->
  exists l, List.last (map Some (seated topY bottomY c ps)) None = Some l
    /\ List.last (centres c (map (fun p => computeParticipantWidth (pd_label p)) ps)) 0
       + List.last (map (fun p => computeParticipantWidth (pd_label p)) ps) 0 / 2
       = rightEdge l.
Proof.
  revert c. induction ps as [|pd r IH]; intros c Hne; [now elim Hne|].
  destruct r as [|pd' r'].
  - eexists. split; reflexivity.
  - destruct (IH (c + computeParticipantWidth (pd_label pd) + 60)) as (l & Hl & He);
      [discriminate|].
    exists l. split; [exact Hl | exact He].
Qed.

Lemma participants_seated (d : SequenceDiagramDef) :
  exists bottomY,
    slr_participants (layoutSequenceDiagram d)
    = seated (startYOf (sd_title d)) bottomY 40 (sd_participants d)
    /\ slr_height (layoutSequenceDiagram d) = bottomY + 40
    /\ bottomY =
       match List.last (map Some (laid (startYOf (sd_title d) + 40 + 50) (sd_messages d))) None with
       | Some m => reach m + 40
       | None => startYOf (sd_title d) + 40 + 40
       end.
Proof.
  eexists. split; [|split].
  - unfold layoutSequenceDiagram. cbn [slr_participants].
    rewrite fold_placeStep. cbn [app]. apply combine_seated.
  - reflexivity.
  - rewrite SequenceLayoutProperties.layoutMessagesOf_laid.
    unfold reach, PARTICIPANT_BOX_HEIGHT, LIFELINE_BOTTOM_PADDING, SELF_MESSAGE_HEIGHT_OFFSET.
    destruct (List.last _ None) as [m|]; [destruct (sm_isSelfMessage m)|]; lia.
Qed.

Lemma width_ge_100 (label : string) : 100 <= computeParticipantWidth label.
Proof. unfold computeParticipantWidth, PARTICIPANT_MIN_WIDTH. lia. Qed.

Lemma seated_nth (ps : list ParticipantDef) (topY bottomY c : Z) (i : nat)
    (p : SequenceParticipant Z) :
  nth_error (seated topY bottomY c ps) i = Some p ->
  exists pd, nth_error ps i = Some pd
    /\ sp_id p = pd_id pd /\ sp_label p = pd_label pd /\ sp_color p = pd_color pd
    /\ sp_width p = computeParticipantWidth (pd_label pd)
    /\ sp_topY p = topY /\ sp_bottomY p = bottomY
    /\ c <= leftEdge p.
Proof.
  revert c i. induction ps as [|pd r IH]; intros c [|i] H; simpl in H; try discriminate.
  - injection H as <-. exists pd. unfold leftEdge. simpl. repeat split; try reflexivity. lia.
  - destruct (IH _ _ H) as (pd' & H1 & H2 & H3 & H4 & H5 & H6 & H7 & H8).
    exists pd'. simpl. repeat split; try assumption.
    pose proof (width_ge_100 (pd_label pd)). lia.
Qed.

Lemma seated_length (ps : list ParticipantDef) (topY bottomY c : Z) :
  List.length (seated topY bottomY c ps) = List.length ps.
Proof. revert c. induction ps as [|p r IH]; intros c; simpl; [|rewrite IH]; reflexivity. Qed.

Lemma seated_gap (ps : list ParticipantDef) (topY bottomY c : Z) (i : nat)
    (p q : SequenceParticipant Z) :
  nth_error (seated topY bottomY c ps) i = Some p ->
  nth_error (seated topY bottomY c ps) (S i) = Some q ->
  leftEdge q - rightEdge p = 60.
Proof.
  revert c i. induction ps as [|pd r IH]; intros c [|i] H H'; simpl in H; try discriminate.
  - injection H as <-. simpl in H'. destruct r as [|pd' r']; simpl in H'; [discriminate|].
    injection H' as <-. unfold leftEdge, rightEdge. simpl.
    pose proof (SequenceLayoutProperties.computeParticipantWidth_even (pd_label pd)). lia.
  - eapply IH; eassumption.
Qed.

Lemma seated_first (ps : list ParticipantDef) (topY bottomY c : Z) (p : SequenceParticipant Z) :
  nth_error (seated topY bottomY c ps) 0 = Some p -> leftEdge p = c.
Proof.
  destruct ps as [|pd r]; simpl; [discriminate|]. intros H. injection H as <-.
  unfold leftEdge. simpl. lia.
Qed.

(** X9.  Participants are seated left to right in the order of the input,
    one box per participant, with its id, label and colour; a box is
    [max 100 (10 * length of the label + 40)] wide; the first box starts at
    x = 40 and each next box starts exactly 60 after the end of the one
    before, so that boxes never overlap. *)
Theorem participants_seated_in_order (d : SequenceDiagramDef) :
  let out := slr_participants (layoutSequenceDiagram d) in
  List.length out = List.length (sd_participants d)
  /\ (forall i p, nth_error out i = Some p ->
        exists pd, nth_error (sd_participants d) i = Some pd
          /\ sp_id p = pd_id pd /\ sp_label p = pd_label pd /\ sp_color p = pd_color pd
          /\ sp_width p = Z.max 100 (Str.len (pd_label pd) * 10 + 40))
  /\ (forall p, nth_error out 0 = Some p -> leftEdge p = 40)
  /\ (forall i p q, nth_error out i = Some p -> nth_error out (S i) = Some q ->
        leftEdge q - rightEdge p = 60 /\ rightEdge p < leftEdge q
        /\ leftEdge p < rightEdge p).
Proof.
  cbv zeta. destruct (participants_seated d) as (bottomY & -> & _).
  split; [apply seated_length|]. split; [|split].
  - intros i p H. destruct (seated_nth _ _ _ _ _ H) as (pd & H1 & H2 & H3 & H4 & H5 & _).
    exists pd. repeat split; assumption.
  - intros p. apply seated_first.
  - intros i p q H H'. pose proof (seated_gap _ _ _ _ _ H H') as Hg.
    split; [exact Hg|]. split; [lia|].
    destruct (seated_nth _ _ _ _ _ H) as (pd & _ & _ & _ & _ & Hw & _).
    pose proof (width_ge_100 (pd_label pd)) as Hge.
    pose proof (SequenceLayoutProperties.computeParticipantWidth_even (pd_label pd)).
    unfold leftEdge, rightEdge. rewrite Hw. lia.
Qed.

Lemma seated_extent (ps : list ParticipantDef) (topY bottomY c : Z) (p : SequenceParticipant Z) :
  In p (seated topY bottomY c ps) ->
  exists l, List.last (map Some (seated topY bottomY c ps)) None = Some l
    /\ c <= leftEdge p /\ rightEdge p <= rightEdge l.
Proof.
  revert c p. induction ps as [|pd r IH]; intros c p Hin; [destruct Hin|].
  pose proof (width_ge_100 (pd_label pd)) as Hge.
  pose proof (SequenceLayoutProperties.computeParticipantWidth_even (pd_label pd)) as Hev.
  destruct r as [|pd' r'].
  - destruct Hin as [<-|[]]. eexists. split; [reflexivity|].
    unfold leftEdge, rightEdge. simpl. lia.
  - assert (Hhd : In (mkSequenceParticipant (pd_id pd') (pd_label pd')
                        (c + computeParticipantWidth (pd_label pd) + 60
                         + computeParticipantWidth (pd_label pd') / 2) topY bottomY
                        (computeParticipantWidth (pd_label pd')) (pd_color pd'))
                     (seated topY bottomY (c + computeParticipantWidth (pd_label pd) + 60)
                             (pd' :: r'))) by (left; reflexivity).
    destruct (IH _ _ Hhd) as (l & Hl & Hlo & Hhi).
    change (seated topY bottomY c (pd :: pd' :: r'))
      with (mkSequenceParticipant (pd_id pd) (pd_label pd)
              (c + computeParticipantWidth (pd_label pd) / 2) topY bottomY
              (computeParticipantWidth (pd_label pd)) (pd_color pd)
            :: seated topY bottomY (c + computeParticipantWidth (pd_label pd) + 60)
                      (pd' :: r')) in *.
    destruct Hin as [<-|Hin].
    + exists l. split; [exact Hl|].
      pose proof (width_ge_100 (pd_label pd')) as Hge'.
      pose proof (SequenceLayoutProperties.computeParticipantWidth_even (pd_label pd')).
      unfold leftEdge, rightEdge in *. cbn [sp_x sp_width] in *. lia.
    + destruct (IH _ _ Hin) as (l' & Hl' & Hlo' & Hhi').
      exists l'. split; [exact Hl'|]. split; [lia | exact Hhi'].
Qed.

Lemma last_some_map {A B : Type} (f : A -> B) (l : list A) (a : A) :
  List.last (map Some l) None = Some a ->
  List.last (map f l) (f a) = f a.
Proof.
  induction l as [|x r IH]; simpl; [reflexivity|].
  destruct r as [|y r']; simpl in *.
  - intros H. injection H as ->. reflexivity.
  - exact IH.
Qed.

Lemma width_of_seated (d : SequenceDiagramDef) :
  slr_width (layoutSequenceDiagram d)
  = match List.last (map Some (slr_participants (layoutSequenceDiagram d))) None with
    | Some l => rightEdge l + 40
    | None => 80
    end.
Proof.
  destruct (participants_seated d) as (bottomY & -> & _).
  unfold layoutSequenceDiagram. cbn [slr_width].
  rewrite fold_placeStep. cbn [app].
  destruct (sd_participants d) as [|pd r] eqn:E; [reflexivity|].
  destruct (@extent_seated (pd :: r) (startYOf (sd_title d)) bottomY 40) as (l & Hl & He);
    [discriminate|].
  rewrite Hl. cbn [List.length Nat.ltb Nat.leb]. unfold PADDING at 2. rewrite <- He.
  reflexivity.
Qed.


(** X10.  The diagram is as wide as its participants need: every box lies
    between x = 40 and 40 before the right border, the last box ends
    exactly 40 before it, and a diagram without participants is 80 wide. *)
Theorem width_encloses_participants (d : SequenceDiagramDef) :
  let out := layoutSequenceDiagram d in
  (forall p, In p (slr_participants out) ->
     40 <= leftEdge p /\ rightEdge p + 40 <= slr_width out)
  /\ (forall l, List.last (map Some (slr_participants out)) None = Some l ->
        rightEdge l + 40 = slr_width out)
  /\ (sd_participants d = [] -> slr_width out = 80)
  /\ 80 <= slr_width out.
Proof.
  cbv zeta. pose proof (width_of_seated d) as Hw.
  destruct (participants_seated d) as (bottomY & Hp & _). rewrite Hp in *.
  assert (Hin : forall p, In p (seated (startYOf (sd_title d)) bottomY 40 (sd_participants d)) ->
                  40 <= leftEdge p /\ rightEdge p + 40 <= slr_width (layoutSequenceDiagram d)).
  { intros p Hin. destruct (seated_extent _ _ _ _ _ Hin) as (l & Hl & Hlo & Hhi).
    rewrite Hl in Hw. lia. }
  split; [exact Hin|]. split; [|split].
  - intros l Hl. rewrite Hl in Hw. lia.
  - intros E. rewrite E in Hw. exact Hw.
  - destruct (sd_participants d) as [|pd r].
    + cbn [seated map List.last] in Hw. rewrite Hw. lia.
    + destruct (Hin (mkSequenceParticipant (pd_id pd) (pd_label pd)
                       (40 + computeParticipantWidth (pd_label pd) / 2)
                       (startYOf (sd_title d)) bottomY
                       (computeParticipantWidth (pd_label pd)) (pd_color pd)))
        as [Hlo Hhi]; [left; reflexivity|].
      pose proof (width_ge_100 (pd_label pd)).
      pose proof (SequenceLayoutProperties.computeParticipantWidth_even (pd_label pd)).
      unfold leftEdge, rightEdge in *. cbn [sp_x sp_width] in *. lia.
Qed.

Lemma laid_reach (msgs : list MessageDef) (y : Z) (m : SequenceMessage Z) :
  In m (laid y msgs) ->
  exists l, List.last (map Some (laid y msgs)) None = Some l
    /\ y <= sm_y m /\ reach m <= reach l.
Proof.
  revert y m. induction msgs as [|msg r IH]; intros y m Hin; [destruct Hin|].
  destruct r as [|msg' r'].
  - destruct Hin as [<-|[]]. eexists. split; [reflexivity|]. simpl. lia.
  - set (y' := y + (if String.eqb (md_from msg) (md_to msg) then 80 else 50)) in *.
    assert (Hy : y + 50 <= y') by (subst y'; destruct (String.eqb _ _); lia).
    change (laid y (msg :: msg' :: r'))
      with (mkSequenceMessage (md_from msg) (md_to msg) (md_label msg) y (md_style msg)
              (md_color msg) (String.eqb (md_from msg) (md_to msg))
            :: laid y' (msg' :: r')) in *.
    destruct Hin as [<-|Hin].
    + destruct (IH y' _ (or_introl eq_refl)) as (l & Hl & Hlo & Hhi).
      exists l. split; [exact Hl|]. unfold reach in *. cbn [sm_y sm_isSelfMessage] in *.
      destruct (String.eqb (md_from msg) (md_to msg)), (String.eqb (md_from msg') (md_to msg'));
        lia.
    + destruct (IH y' _ Hin) as (l & Hl & Hlo & Hhi).
      exists l. split; [exact Hl|]. split; [lia | exact Hhi].
Qed.

(** X11.  Vertically, everything fits between the participant boxes and
    the bottom border: every message is drawn at least 50 below the
    40-high boxes, lifelines end at least 40 below the lowest point of any
    message (30 below its line for a self-message), the diagram ends 40
    below the lifelines, and without messages the lifelines are 80 long. *)
Theorem lifelines_enclose_messages (d : SequenceDiagramDef) :
  let out := layoutSequenceDiagram d in
  let startY := startYOf (sd_title d) in
  (forall p, In p (slr_participants out) ->
     sp_topY p = startY /\ sp_bottomY p + 40 = slr_height out)
  /\ (forall m, In m (slr_messages out) ->
        startY + 40 + 50 <= sm_y m /\ reach m + 40 + 40 <= slr_height out)
  /\ (forall l, List.last (map Some (slr_messages out)) None = Some l ->
        reach l + 40 + 40 = slr_height out)
  /\ (sd_messages d = [] -> slr_height out = startY + 40 + 40 + 40)
  /\ startY + 120 <= slr_height out.
Proof.
  cbv zeta. destruct (participants_seated d) as (bottomY & Hp & Hh & Hb).
  rewrite Hp, Hh.
  assert (Hm : slr_messages (layoutSequenceDiagram d)
               = laid (startYOf (sd_title d) + 40 + 50) (sd_messages d)).
  { unfold layoutSequenceDiagram. cbn [slr_messages].
    apply SequenceLayoutProperties.layoutMessagesOf_laid. }
  rewrite Hm.
  assert (Hin : forall m, In m (laid (startYOf (sd_title d) + 40 + 50) (sd_messages d)) ->
                  startYOf (sd_title d) + 40 + 50 <= sm_y m /\ reach m + 40 + 40 <= bottomY + 40).
  { intros m Hin. destruct (laid_reach _ _ _ Hin) as (l & Hl & Hlo & Hhi).
    rewrite Hl in Hb. lia. }
  split; [|split; [exact Hin|split; [|split]]].
  - intros p Hin'. apply In_nth_error in Hin'. destruct Hin' as [i Hi].
    destruct (seated_nth _ _ _ _ _ Hi) as (pd & _ & _ & _ & _ & _ & Ht & Hbt & _).
    split; [exact Ht | lia].
  - intros l Hl. rewrite Hl in Hb. lia.
  - intros E. rewrite E in Hb. cbn [laid map List.last] in Hb. lia.
  - destruct (sd_messages d) as [|msg r].
    + cbn [laid map List.last] in Hb. lia.
    + destruct (Hin (mkSequenceMessage (md_from msg) (md_to msg) (md_label msg)
                       (startYOf (sd_title d) + 40 + 50) (md_style msg) (md_color msg)
                       (String.eqb (md_from msg) (md_to msg)))) as [Hlo Hhi];
        [left; reflexivity|].
      unfold reach in Hhi. cbn [sm_y sm_isSelfMessage] in Hhi.
      destruct (String.eqb (md_from msg) (md_to msg)); lia.
Qed.

(** X12.  A title moves the whole drawing down by 40 and changes nothing
    else: with a non-empty title every message, box top and lifeline end
    is 40 lower and the diagram 40 higher than without, while widths and
    x-positions stay; an empty title counts as no title. *)
Theorem title_shifts_layout (t : string) (ps : list ParticipantDef) (ms : list MessageDef)
    (style : Theme) (o : option OutputOptions) :
  t <> EmptyString ->
  let titled := layoutSequenceDiagram (mkSequenceDiagramDef (Some t) ps ms style o) in
  let plain := layoutSequenceDiagram (mkSequenceDiagramDef None ps ms style o) in
  slr_width titled = slr_width plain
  /\ slr_height titled = slr_height plain + 40
  /\ map (@sm_y Z) (slr_messages titled) = map (fun m => sm_y m + 40) (slr_messages plain)
  /\ map (@sp_x Z) (slr_participants titled) = map (@sp_x Z) (slr_participants plain)
  /\ map (@sp_topY Z) (slr_participants titled)
     = map (fun p => sp_topY p + 40) (slr_participants plain)
  /\ map (@sp_bottomY Z) (slr_participants titled)
     = map (fun p => sp_bottomY p + 40) (slr_participants plain)
  /\ layoutSequenceDiagram (mkSequenceDiagramDef (Some EmptyString) ps ms style o) = plain.
Proof.
  intros Ht. cbv zeta.
  assert (Hs : startYOf (Some t) = startYOf None + 40).
  { unfold startYOf, Str.truthyOpt, Str.truthy, PADDING, TITLE_HEIGHT.
    destruct t; [now elim Ht | reflexivity]. }
  assert (Hlaid : forall msgs y, map (@sm_y Z) (laid (y + 40) msgs)
                                 = map (fun m => sm_y m + 40) (laid y msgs)).
  { induction msgs as [|msg r IH]; intros y; simpl; [reflexivity|].
    f_equal. rewrite <- IH. f_equal. f_equal. lia. }
  assert (Hlast : forall msgs y,
            match List.last (map Some (laid (y + 40) msgs)) None with
            | Some m => Some (reach m) | None => None end
            = match List.last (map Some (laid y msgs)) None with
              | Some m => Some (reach m + 40) | None => None end).
  { induction msgs as [|msg r IH]; intros y; [reflexivity|].
    destruct r as [|msg' r'].
    - simpl. unfold reach. simpl. f_equal. lia.
    - specialize (IH (y + (if String.eqb (md_from msg) (md_to msg) then 80 else 50))).
      replace (y + (if String.eqb (md_from msg) (md_to msg) then 80 else 50) + 40)
        with (y + 40 + (if String.eqb (md_from msg) (md_to msg) then 80 else 50)) in IH by lia.
      exact IH. }
  assert (Hseat : forall c top top' bot bot',
            map (@sp_x Z) (seated top bot c ps) = map (@sp_x Z) (seated top' bot' c ps)
            /\ map (@sp_topY Z) (seated (top + 40) bot c ps)
               = map (fun p => sp_topY p + 40) (seated top bot' c ps)
            /\ map (@sp_bottomY Z) (seated top (bot + 40) c ps)
               = map (fun p => sp_bottomY p + 40) (seated top' bot c ps)).
  { clear. induction ps as [|p r IH]; intros c top top' bot bot'; simpl.
    - repeat split.
    - destruct (IH (c + computeParticipantWidth (pd_label p) + 60) top top' bot bot')
        as (H1 & H2 & H3).
      rewrite H1, H2, H3. repeat split. }
  destruct (participants_seated (mkSequenceDiagramDef (Some t) ps ms style o))
    as (b1 & Hp1 & Hh1 & Hb1).
  destruct (participants_seated (mkSequenceDiagramDef None ps ms style o))
    as (b0 & Hp0 & Hh0 & Hb0).
  cbn [sd_title sd_participants sd_messages] in *.
  assert (Hb : b1 = b0 + 40).
  { rewrite Hs in Hb1.
    replace (startYOf None + 40 + 40 + 50) with (startYOf None + 40 + 50 + 40) in Hb1 by lia.
    pose proof (Hlast ms (startYOf None + 40 + 50)) as HL.
    destruct (List.last (map Some (laid (startYOf None + 40 + 50 + 40) ms)) None) as [m1|],
             (List.last (map Some (laid (startYOf None + 40 + 50) ms)) None) as [m0|];
      try discriminate HL.
    - injection HL as HL. lia.
    - lia. }
  pose proof (width_of_seated (mkSequenceDiagramDef (Some t) ps ms style o)) as Hw1.
  pose proof (width_of_seated (mkSequenceDiagramDef None ps ms style o)) as Hw0.
  rewrite Hp1 in Hw1. rewrite Hp0 in Hw0. cbn [sd_title sd_participants] in *.
  split; [|split; [|split; [|split; [|split; [|split]]]]].
  - rewrite Hw1, Hw0. clear.
    generalize 40 at 1 3 as c. induction ps as [|p r IH]; intros c; [reflexivity|].
    destruct r as [|p' r']; [reflexivity|]. apply IH.
  - lia.
  - unfold layoutSequenceDiagram. cbn [slr_messages sd_title sd_messages].
    rewrite !SequenceLayoutProperties.layoutMessagesOf_laid, Hs.
    replace (startYOf None + 40 + 40 + 50) with (startYOf None + 40 + 50 + 40) by lia.
    apply Hlaid.
  - rewrite Hp1, Hp0. exact (proj1 (Hseat 40 _ _ b1 b0)).
  - rewrite Hp1, Hp0, Hs.
    exact (proj1 (proj2 (Hseat 40 (startYOf None) (startYOf None) b1 b0))).
  - rewrite Hp1, Hp0, Hb.
    exact (proj2 (proj2 (Hseat 40 (startYOf (Some t)) (startYOf None) b0 b0))).
  - reflexivity.
Qed.

Lemma title_shifts_layout_witness :
  "Login" <> EmptyString
  /\ slr_height (layoutSequenceDiagram
                   (mkSequenceDiagramDef (Some "Login") (sd_participants twoMessages)
                      (sd_messages twoMessages) hand_drawn None))
     = slr_height (layoutSequenceDiagram twoMessages) + 40.
Proof.
  assert (H : "Login" <> EmptyString) by discriminate.
  split; [exact H|].
  exact (proj1 (proj2 (@title_shifts_layout "Login" (sd_participants twoMessages)
                         (sd_messages twoMessages) hand_drawn None H))).
Defined.

End SequenceLayoutExtents.

(* ------------------------------------------------------------------ *)
(** ** The themes without jitter *)

Section PlainThemes.
Context {N : JsNum}.

(** what the renderer uses of the numbers: zero is zero, is not above
    zero, and stays zero when scaled *)
Hypothesis zero_isZero : isZero (ofZ 0) = true.
Hypothesis zero_not_positive : gtb (ofZ 0) (ofZ 0) = false.
Hypothesis zero_half : isZero (nmul (ofZ 0) (ofQ 0.5)) = true.
Hypothesis zero_third : isZero (nmul (ofZ 0) (ofQ 0.3)) = true.

Lemma still_ret {A : Type} (a : A) : still (ret a).
Proof. exists a. reflexivity. Qed.

Lemma still_bind {A B : Type} (m : M A) (k : A -> M B) :
  still m -> (forall a, still (k a)) -> still (bind m k).
Proof.
  intros [a Ha] Hk. destruct (Hk a) as [b Hb]. exists b. intros s.
  unfold bind. rewrite Ha. apply Hb.
Qed.

Lemma still_mapM {A B : Type} (f : A -> M B) (l : list A) :
  (forall a, still (f a)) -> still (mapM f l).
Proof.
  intros Hf. induction l as [|a r IH]; simpl.
  - apply still_ret.
  - apply still_bind; [apply Hf|]. intros b. apply still_bind; [exact IH|].
    intros bs. apply still_ret.
Qed.

Lemma still_mapMi {A B : Type} (f : nat -> A -> M B) (l : list A) (i : nat) :
  (forall k a, still (f k a)) -> still (mapMi f i l).
Proof.
  intros Hf. revert i. induction l as [|a r IH]; intros i; simpl.
  - apply still_ret.
  - apply still_bind; [apply Hf|]. intros b. apply still_bind; [apply IH|].
    intros bs. apply still_ret.
Qed.

Lemma still_jitter (value amount : num) : isZero amount = true -> still (jitter value amount).
Proof. intros H. unfold jitter. rewrite H. apply still_ret. Qed.

Lemma still_jitterPoint (x y amount : num) :
  isZero amount = true -> still (jitterPoint x y amount).
Proof.
  intros H. unfold jitterPoint.
  apply still_bind; [now apply still_jitter|]. intros jx.
  apply still_bind; [now apply still_jitter|]. intros jy. apply still_ret.
Qed.

Section Config.
Variable config : ThemeConfig.
Hypothesis no_jitter : jitterAmount config = ofZ 0.
Hypothesis single_stroke : doubleStroke config = false.

Ltac plain :=
  cbv beta iota zeta;
  rewrite ?no_jitter, ?single_stroke, ?zero_not_positive;
  cbv beta iota zeta.

Ltac still_step :=
  plain;
  lazymatch goal with
  | |- still (ret _) => apply still_ret
  | |- still (bind _ _) => apply still_bind; [|intro]
  | |- still (mapM _ _) => apply still_mapM; intro
  | |- still (mapMi _ _ _) => apply still_mapMi; intros
  | |- still (jitter _ _) =>
      apply still_jitter; first [exact zero_isZero | exact zero_half | exact zero_third]
  | |- still (jitterPoint _ _ _) => apply still_jitterPoint; exact zero_isZero
  | |- still (if ?c then _ else _) => destruct c
  | |- still (match ?x with _ => _ end) => destruct x
  end.

Lemma still_sketchyLine (x1 y1 x2 y2 : num) (strokeColor : string)
    (dashArray : option string) :
  still (sketchyLine x1 y1 x2 y2 config strokeColor dashArray).
Proof. unfold sketchyLine. repeat still_step. Qed.

Lemma still_sketchyPolyline (points : list (XY num)) (strokeColor : string)
    (dashArray : option string) :
  still (sketchyPolyline points config strokeColor dashArray).
Proof. unfold sketchyPolyline. repeat still_step. apply still_sketchyLine. Qed.

Lemma still_renderArrowhead (tipX tipY fromX fromY : num) (color : string) :
  still (renderArrowhead tipX tipY fromX fromY color config).
Proof. unfold renderArrowhead. repeat still_step. Qed.

Lemma still_renderRectangle (x y width height : num) (fillColor strokeColor : string) :
  still (renderRectangle x y width height fillColor strokeColor config).
Proof. unfold renderRectangle. repeat still_step. Qed.

Lemma still_renderEllipse (cx cy rx ry : num) (fillColor strokeColor : string) :
  still (renderEllipse cx cy rx ry fillColor strokeColor config).
Proof. unfold renderEllipse. repeat still_step. Qed.

Lemma still_shapeSvg (node : LayoutNode num) (fillColor strokeColor : string) :
  still (shapeSvg node fillColor strokeColor config).
Proof.
  unfold shapeSvg. still_step.
  - apply still_renderRectangle.
  - apply still_renderEllipse.
  - unfold renderDiamond. repeat still_step.
  - unfold renderCylinder. repeat still_step.
  - unfold renderCloud, cloudCurve. repeat still_step.
  - unfold renderHexagon. repeat still_step.
  - unfold renderParallelogram. repeat still_step.
Qed.

Lemma still_renderShape (node : LayoutNode num) (colorIndex : nat) :
  still (renderShape node config colorIndex).
Proof. unfold renderShape. still_step; [apply still_shapeSvg | apply still_ret]. Qed.

Lemma still_renderEdge (edge : LayoutEdge num) (nodesById : JsMap.t (LayoutNode num)) :
  still (renderEdge edge nodesById config).
Proof.
  unfold renderEdge.
  repeat first [ apply still_sketchyPolyline | apply still_renderArrowhead | still_step ].
Qed.

Lemma still_renderGroup (group : LayoutGroup num) : still (renderGroup group config).
Proof. unfold renderGroup, groupFrame. repeat still_step. Qed.

Lemma still_renderParticipantBox (p : SequenceParticipant num) (yTop : num) (i : nat) :
  still (renderParticipantBox p yTop config i).
Proof.
  unfold renderParticipantBox. still_step; [apply still_renderRectangle | apply still_ret].
Qed.

Lemma still_renderMessage (msg : SequenceMessage num)
    (participantsById : JsMap.t (SequenceParticipant num)) :
  still (renderMessage msg participantsById config).
Proof.
  unfold renderMessage.
  repeat first [ apply still_sketchyPolyline | apply still_renderArrowhead | still_step ].
Qed.

Lemma still_flowContent (layout : LayoutResult num) : still (flowContent layout config).
Proof.
  unfold flowContent.
  repeat first [ apply still_renderGroup | apply still_renderEdge | apply still_renderShape
               | still_step ].
Qed.

Lemma still_sequenceContent (layout : SequenceLayoutResult num) :
  still (sequenceContent layout config).
Proof.
  unfold sequenceContent, renderLifeline.
  repeat first [ apply still_sketchyLine | apply still_renderMessage
               | apply still_renderParticipantBox | still_step ].
Qed.

End Config.

(** X13.  In the clean and the minimal theme the renderer draws no random
    number: the content of a flow or sequence diagram comes out the same
    from every state of the generator, which it leaves untouched. *)
Theorem plain_themes_draw_nothing (theme : Theme) (flow : LayoutResult num)
    (sequence : SequenceLayoutResult num) :
  theme <> hand_drawn ->
  still (flowContent flow (getThemeConfig theme))
  /\ still (sequenceContent sequence (getThemeConfig theme)).
Proof.
  intros Ht. destruct theme; [now elim Ht| |];
    (split; [apply still_flowContent | apply still_sequenceContent]); reflexivity.
Qed.

End PlainThemes.

Lemma plain_themes_draw_nothing_witness :
  clean <> hand_drawn
  /\ still (flowContent (oneNode "A") (getThemeConfig clean)).
Proof.
  assert (H : clean <> hand_drawn) by discriminate.
  split; [exact H|].
  exact (proj1 (@plain_themes_draw_nothing Exact.exact eq_refl eq_refl eq_refl eq_refl
                  clean (oneNode "A") strayLayout H)).
Defined.

(* ------------------------------------------------------------------ *)
(** ** More on the flow layout *)

Lemma get_set_same {V : Type} (k : string) (v : V) (m : JsMap.t V) :
  JsMap.get k (JsMap.set k v m) = Some v.
Proof.
  induction m as [|[k0 v0] m IH]; simpl.
  - now rewrite String.eqb_refl.
  - destruct (String.eqb k k0) eqn:E; simpl; rewrite E; [reflexivity | exact IH].
Qed.

Lemma get_set_other {V : Type} (k k' : string) (v : V) (m : JsMap.t V) :
  k <> k' -> JsMap.get k (JsMap.set k' v m) = JsMap.get k m.
Proof.
  intros Hne. induction m as [|[k0 v0] m IH]; simpl.
  - destruct (String.eqb_spec k k'); [contradiction | reflexivity].
  - destruct (String.eqb_spec k' k0) as [->|Hk]; simpl.
    + destruct (String.eqb_spec k k0); [contradiction | reflexivity].
    + destruct (String.eqb k k0); [reflexivity | exact IH].
Qed.

Module FlowGraphProperties.
Import FlowLayout.

Lemma contains_get (id g : string) (cs : list string) (m : JsMap.t string) :
  JsMap.get id (fold_left (fun m' nodeId => JsMap.set nodeId g m') cs m)
  = if existsb (String.eqb id) cs then Some g else JsMap.get id m.
Proof.
  revert m. induction cs as [|c cs IH]; intros m; simpl; [reflexivity|].
  rewrite IH. destruct (String.eqb_spec id c) as [->|Hne]; simpl.
  - rewrite get_set_same. now destruct (existsb _ cs).
  - now rewrite get_set_other.
Qed.

Lemma groups_get (id : string) (groups : list GroupDef) (m : JsMap.t string) :
  JsMap.get id
    (fold_left (fun m group =>
                  fold_left (fun m' nodeId => JsMap.set nodeId (gd_id group) m')
                            (gd_contains group) m)
               groups m)
  = fold_left (fun acc g => if existsb (String.eqb id) (gd_contains g)
                            then Some (gd_id g) else acc)
              groups (JsMap.get id m).
Proof.
  revert m. induction groups as [|g r IH]; intros m; simpl; [reflexivity|].
  now rewrite IH, contains_get.
Qed.

Lemma existsb_eqb_in (id : string) (cs : list string) :
  existsb (String.eqb id) cs = true <-> In id cs.
Proof.
  rewrite existsb_exists. split.
  - intros (x & Hx & E). apply String.eqb_eq in E. now subst.
  - intros H. exists id. split; [exact H | apply String.eqb_refl].
Qed.

Lemma fold_keeps (id : string) (groups : list GroupDef) (acc : option string) :
  (forall g, In g groups -> ~ In id (gd_contains g)) ->
  fold_left (fun acc g => if existsb (String.eqb id) (gd_contains g)
                          then Some (gd_id g) else acc) groups acc = acc.
Proof.
  revert acc. induction groups as [|g r IH]; intros acc H; simpl; [reflexivity|].
  destruct (existsb (String.eqb id) (gd_contains g)) eqn:E.
  - apply existsb_eqb_in in E. exfalso. apply (H g); [now left | exact E].
  - apply IH. intros g' Hg'. apply H. now right.
Qed.

(** X14.  A node listed by several groups belongs to the last group that
    lists it, and a node no group lists belongs to none. *)
Theorem node_belongs_to_last_group (groups : list GroupDef) (id : string) :
  ((forall g, In g groups -> ~ In id (gd_contains g)) ->
   JsMap.get id (buildNodeToGroupMap groups) = None)
  /\ (forall before g after,
        groups = (before ++ g :: after)%list ->
        In id (gd_contains g) ->
        (forall g', In g' after -> ~ In id (gd_contains g')) ->
        JsMap.get id (buildNodeToGroupMap groups) = Some (gd_id g)).
Proof.
  unfold buildNodeToGroupMap. rewrite groups_get. split.
  - intros H. now apply fold_keeps.
  - intros before g after -> Hin Hafter.
    rewrite fold_left_app. simpl.
    apply existsb_eqb_in in Hin. rewrite Hin. now apply fold_keeps.
Qed.

Section WithNumbers.
Context {N : JsNum}.

(** X15.  An edge the layout service returned no route for, and one of
    whose end nodes it did not position, gets fewer than two points and is
    not drawn: [renderEdge] returns the empty string for it and draws no
    random number. *)
Theorem unrouted_edge_not_drawn (answer : ElkNode) (i : nat) (e : EdgeDef)
    (nodesById : JsMap.t (LayoutNode num)) (config : ThemeConfig) (s : Z) :
  JsMap.get (edgeId i (ed_from e) (ed_to e)) (collectEdgeRoutes answer) = None
  \/ JsMap.get (edgeId i (ed_from e) (ed_to e)) (collectEdgeRoutes answer) = Some [] ->
  JsMap.get (ed_from e) (collectNodePositions answer) = None
  \/ JsMap.get (ed_to e) (collectNodePositions answer) = None ->
  let edge := layoutEdgeOf (collectNodePositions answer) (collectEdgeRoutes answer) i e in
  (List.length (le_points edge) < 2)%nat
  /\ renderEdge edge nodesById config s = ([], s).
Proof.
  intros Hroute Hpos edge.
  assert (Hlen : (List.length (le_points edge) < 2)%nat).
  { unfold edge, layoutEdgeOf, edgePoints. cbn [le_points].
    assert (Hraw : match JsMap.get (edgeId i (ed_from e) (ed_to e)) (collectEdgeRoutes answer)
                   with Some r => r | None => [] end = []).
    { destruct Hroute as [->| ->]; reflexivity. }
    rewrite Hraw. cbn [map]. rewrite length_app.
    destruct Hpos as [-> | ->]; cbn [centreOf List.length].
    - destruct (JsMap.get (ed_to e) _); simpl; lia.
    - destruct (JsMap.get (ed_from e) _); simpl; lia. }
  split; [exact Hlen|].
  unfold renderEdge. apply Nat.ltb_lt in Hlen. rewrite Hlen. reflexivity.
Qed.

End WithNumbers.

Lemma unrouted_edge_not_drawn_witness :
  renderEdge (layoutEdgeOf (collectNodePositions loneAnswer) (collectEdgeRoutes loneAnswer)
                           0 (mkEdgeDef "a" "zz" None solid forward None))
             [] (getThemeConfig hand_drawn) 42
  = ([], 42).
Proof.
  exact (proj2 (@unrouted_edge_not_drawn Exact.exact loneAnswer 0
                  (mkEdgeDef "a" "zz" None solid forward None) [] (getThemeConfig hand_drawn) 42
                  (or_introl eq_refl) (or_intror eq_refl))).
Defined.

End FlowGraphProperties.

Lemma forall_values_set {V : Type} (P : V -> Prop) (k : string) (v : V) (m : JsMap.t V) :
  Forall P (JsMap.values m) -> P v -> Forall P (JsMap.values (JsMap.set k v m)).
Proof.
  unfold JsMap.values. intros Hm Hv. induction m as [|[k0 v0] m IH]; simpl.
  - constructor; [exact Hv | constructor].
  - inversion Hm as [|? ? H0 Hr]; subst.
    destruct (String.eqb k k0); simpl; constructor; auto.
Qed.





Module RootGraphProperties.
Import FlowLayout.




Section WithNumbers.
Context {N : JsNum}.








End WithNumbers.
End RootGraphProperties.

(* ------------------------------------------------------------------ *)
(** ** What the document shows *)

Lemma drop_app (n : nat) (a v : string) :
  (n <= String.length a)%nat -> Str.drop n (a ++ v) = Str.drop n a ++ v.
Proof.
  revert a. induction n as [|n IH]; intros a H; [reflexivity|].
  destruct a as [|c a]; simpl in *; [lia|]. apply IH. lia.
Qed.

(** replacing the first occurrence of a pattern leaves what follows a
    later occurrence as it is *)
Lemma replaceFirst_keeps_suffix (pat by_ u v : string) :
  exists w, Str.replaceFirst pat by_ (u ++ pat ++ v) = w ++ v.
Proof.
  induction u as [|c u [w IH]].
  - simpl append. exists by_.
    destruct pat as [|p pat]; simpl.
    + destruct v; reflexivity.
    + destruct (ascii_dec p p) as [_|ne]; [|now elim ne].
      rewrite prefix_app.
      replace (Str.drop (String.length pat) (pat ++ v)) with v; [reflexivity|].
      clear. induction pat as [|x pat IHp]; [reflexivity | exact IHp].
  - assert (Hlen : (String.length pat <= String.length (String c u ++ pat))%nat).
    { rewrite length_app_string. lia. }
    change (String c u ++ pat ++ v) with (String c (u ++ pat ++ v)).
    cbn [Str.replaceFirst].
    destruct (String.prefix pat (String c (u ++ pat ++ v))).
    + exists (by_ ++ Str.drop (String.length pat) (String c u ++ pat)).
      rewrite append_assoc. f_equal.
      change (String c (u ++ pat ++ v)) with (String c u ++ pat ++ v).
      rewrite <- append_assoc. apply drop_app, Hlen.
    + exists (String c w). simpl. now rewrite IH.
Qed.

Section Shown.
Context {N : JsNum}.

Lemma flatten_rcat_cons (r : rope) (l : list rope) :
  flatten (rcat (r :: l)) = flatten r ++ flatten (rcat l).
Proof. unfold rcat. simpl. apply flatten_app. Qed.

Lemma flatten_attr (name value : string) :
  flatten (attr name (lit value)) = attrText name value.
Proof.
  unfold attr, attrText. rewrite !flatten_rcat_cons, !flatten_lit.
  change (flatten (rcat [])) with EmptyString.
  now rewrite append_nil_r, !append_assoc.
Qed.

(** both branches of [renderText] open the same way, and write the lines
    after the anchor *)
Lemma renderText_shape (x y : num) (text : string) (fontSize : num) (family color : string)
    (bold : bool) (maxChars : option Z) :
  match maxChars with Some m => m | None => 18 end = 18 ->
  exists y' tail,
    renderText x y text fontSize family color bold maxChars
    = rcat (lit "<text" :: attr "x" (pl x) :: attr "y" (pl y')
            :: attr "text-anchor" (lit "middle") :: tail)
    /\ forall line, In line (textLines text) ->
         Str.Substr (escapeXml line) (flatten (rcat tail)).
Proof.
  intros Hm. unfold renderText, textLines. rewrite Hm.
  destruct (Str.len text >? 20)%Z.
  - eexists. eexists. split; [reflexivity|].
    intros line Hin. destruct (in_indexed _ 0 _ Hin) as [i Hi].
    set (tspan := fun il : nat * string =>
           rcat [lit "<tspan"; attr "x" (pl x);
                 attr "dy" (pl match fst il with
                               | O => ofZ 0
                               | S _ => nmul fontSize (ofQ 1.3)
                               end);
                 lit ">"; lit (escapeXml (snd il)); lit "</tspan>"]).
    eapply substr_trans; [| apply substr_rcat with
      (r := rjoin EmptyString
              (map tspan (combine (seq 0 (List.length (wrapText text 18)))
                                  (wrapText text 18))));
      simpl; tauto].
    eapply substr_trans; [| apply substr_rjoin, (in_map tspan), Hi].
    apply substr_lit_rcat. simpl. tauto.
  - eexists. eexists. split; [reflexivity|].
    intros line [<-|[]]. apply substr_lit_rcat. simpl. tauto.
Qed.

Lemma renderText_lines (x y : num) (text : string) (fontSize : num) (family color : string)
    (bold : bool) (maxChars : option Z) (line : string) :
  match maxChars with Some m => m | None => 18 end = 18 ->
  In line (textLines text) ->
  Str.Substr (escapeXml line)
             (flatten (renderText x y text fontSize family color bold maxChars)).
Proof.
  intros Hm Hin.
  destruct (renderText_shape x y text fontSize family color bold maxChars Hm)
    as (y' & tail & -> & Ht).
  rewrite !flatten_rcat_cons. do 4 apply substr_app_l. apply Ht, Hin.
Qed.

Lemma anchorStart_lines (x y : num) (text : string) (fontSize : num) (family color : string)
    (bold : bool) (maxChars : option Z) (line : string) :
  match maxChars with Some m => m | None => 18 end = 18 ->
  In line (textLines text) ->
  Str.Substr (escapeXml line)
             (flatten (anchorStart (renderText x y text fontSize family color bold maxChars))).
Proof.
  intros Hm Hin.
  destruct (renderText_shape x y text fontSize family color bold maxChars Hm)
    as (y' & tail & -> & Ht).
  set (u := "<text" ++ flatten (attr "x" (pl x)) ++ flatten (attr "y" (pl y')) ++ " ").
  assert (Hs : flatten (rcat (lit "<text" :: attr "x" (pl x) :: attr "y" (pl y')
                              :: attr "text-anchor" (lit "middle") :: tail))
               = u ++ anchorMiddle ++ flatten (rcat tail)).
  { rewrite !flatten_rcat_cons, flatten_attr, flatten_lit.
    change (attrText "text-anchor" "middle") with (" " ++ anchorMiddle).
    unfold u. now rewrite !append_assoc. }
  unfold anchorStart. rewrite flatten_lit, Hs.
  destruct (replaceFirst_keeps_suffix anchorMiddle
              ("text-anchor=" ++ Str.dq ++ "start" ++ Str.dq) u (flatten (rcat tail)))
    as [w Hw].
  unfold anchorMiddle in *. rewrite Hw. apply substr_app_l, Ht, Hin.
Qed.

End Shown.

Lemma get_ofList_some {A : Type} (key : A -> string) (l : list A) (k : string) :
  In k (map key l) -> exists a, JsMap.get k (JsMap.ofList key l) = Some a.
Proof.
  unfold JsMap.ofList.
  assert (G : forall m, (exists a, JsMap.get k m = Some a) \/ In k (map key l) ->
                        exists a, JsMap.get k (fold_left (fun m a => JsMap.set (key a) a m) l m)
                                  = Some a).
  { induction l as [|x l IH]; intros m H; simpl.
    - destruct H as [H|[]]. exact H.
    - apply IH. destruct (String.eqb_spec k (key x)) as [->|Hne].
      + left. exists x. apply get_set_same.
      + destruct H as [[a Ha]|[H|H]].
        * left. exists a. now rewrite get_set_other.
        * now elim Hne.
        * now right. }
  intros H. apply G. now right.
Qed.

Lemma mapM_in {A B : Type} (f : A -> M B) (l : list A) (s : Z) (a : A) :
  In a l -> exists s1, In (fst (f a s1)) (fst (mapM f l s)).
Proof.
  revert s. induction l as [|x l IH]; intros s H; [contradiction|].
  simpl. unfold bind. destruct H as [->|H].
  - exists s. destruct (f a s) as [b s1]. destruct (mapM f l s1) as [bs s2]. now left.
  - destruct (f x s) as [b s1]. destruct (IH s1 H) as (s' & Hi).
    exists s'. destruct (mapM f l s1) as [bs s2]. now right.
Qed.

Lemma truthy_nonempty (t : string) : t <> EmptyString -> Str.truthy t = true.
Proof. destruct t; [intros H; now elim H | reflexivity]. Qed.

Section ShownElements.
Context {N : JsNum}.

Ltac run :=
  repeat (try unfold bind; try unfold ret;
          match goal with
          | |- context [match ?m with pair _ _ => _ end] => destruct m
          end);
  try unfold bind; try unfold ret; cbn [fst].

(** the same, the innermost call first *)
Ltac run_inner :=
  try unfold bind; try unfold ret;
  repeat match goal with
         | |- context [match ?m with pair _ _ => _ end] =>
             lazymatch m with
             | context [match _ with pair _ _ => _ end] => fail
             | _ => destruct m
             end
         end;
  cbn [fst].

Lemma substr_rcat_prefix (pre rest : list rope) :
  Str.Substr (flatten (rcat pre)) (flatten (rcat (pre ++ rest))).
Proof.
  unfold rcat. rewrite concat_app, flatten_app. apply substr_app_r, substr_refl.
Qed.

Lemma nodeTag_flat (id : string) :
  flatten (rcat [lit "<g"; attr "class" (lit "node");
                 attr "data-id" (lit (escapeXml id)); lit ">"]) = nodeTag id.
Proof.
  rewrite !flatten_rcat_cons, !flatten_attr, !flatten_lit.
  change (flatten (rcat [])) with EmptyString. now rewrite append_nil_r.
Qed.

Lemma groupTag_flat (id : string) :
  flatten (rcat [lit "<g"; attr "class" (lit "group");
                 attr "data-id" (lit (escapeXml id)); lit ">"]) = groupTag id.
Proof.
  rewrite !flatten_rcat_cons, !flatten_attr, !flatten_lit.
  change (flatten (rcat [])) with EmptyString. now rewrite append_nil_r.
Qed.

Lemma edgeTag_flat (from to : string) :
  flatten (rcat [lit "<g"; attr "class" (lit "edge");
                 attr "data-from" (lit (escapeXml from));
                 attr "data-to" (lit (escapeXml to)); lit ">"]) = edgeTag from to.
Proof.
  rewrite !flatten_rcat_cons, !flatten_attr, !flatten_lit.
  change (flatten (rcat [])) with EmptyString. now rewrite append_nil_r.
Qed.

Lemma renderShape_tag (node : LayoutNode num) (config : ThemeConfig) (i : nat) (s : Z) :
  Str.Substr (nodeTag (ln_id node)) (flatten (fst (renderShape node config i s))).
Proof.
  unfold renderShape. run. rewrite <- nodeTag_flat.
  apply (substr_rcat_prefix [_; _; _; _]).
Qed.

Lemma renderGroup_shown (group : LayoutGroup num) (config : ThemeConfig) (s : Z) :
  Str.Substr (groupTag (lg_id group)) (flatten (fst (renderGroup group config s)))
  /\ forall label line,
       lg_label group = Some label -> label <> EmptyString ->
       In line (textLines label) ->
       Str.Substr (escapeXml line) (flatten (fst (renderGroup group config s))).
Proof.
  unfold renderGroup. run. split.
  - rewrite <- groupTag_flat. apply (substr_rcat_prefix [_; _; _; _]).
  - intros label line -> Hne Hin. rewrite (truthy_nonempty Hne).
    eapply substr_trans; [| apply substr_rcat; do 5 right; left; reflexivity].
    eapply substr_trans; [| apply substr_rjoin; right; left; reflexivity].
    apply anchorStart_lines; [reflexivity | exact Hin].
Qed.

Lemma renderEdge_shown (edge : LayoutEdge num) (nodesById : JsMap.t (LayoutNode num))
    (config : ThemeConfig) (s : Z) :
  (2 <= List.length (le_points edge))%nat ->
  Str.Substr (edgeTag (le_from edge) (le_to edge))
             (flatten (fst (renderEdge edge nodesById config s)))
  /\ forall label line,
       le_label edge = Some label -> label <> EmptyString ->
       In line (textLines label) ->
       Str.Substr (escapeXml line) (flatten (fst (renderEdge edge nodesById config s))).
Proof.
  intros Hlen. unfold renderEdge.
  destruct (Nat.ltb_spec (List.length (le_points edge)) 2) as [Hlt|_]; [lia|].
  run. split.
  - rewrite <- edgeTag_flat. apply (substr_rcat_prefix [_; _; _; _; _]).
  - intros label line -> Hne Hin. rewrite (truthy_nonempty Hne).
    eapply substr_trans; [| apply substr_rcat; do 6 right; left; reflexivity].
    eapply substr_trans; [| apply substr_rjoin; rewrite !in_app_iff; do 3 right;
                            unfold edgeLabel; right; left; reflexivity].
    apply renderText_lines; [reflexivity | exact Hin].
Qed.

Lemma renderParticipantBox_lines (p : SequenceParticipant num) (yTop : num)
    (config : ThemeConfig) (i : nat) (s : Z) (line : string) :
  In line (textLines (sp_label p)) ->
  Str.Substr (escapeXml line) (flatten (fst (renderParticipantBox p yTop config i s))).
Proof.
  intros Hin. unfold renderParticipantBox. run.
  eapply substr_trans; [| apply substr_rjoin; right; left; reflexivity].
  apply renderText_lines; [reflexivity | exact Hin].
Qed.

Lemma renderMessage_lines (msg : SequenceMessage num)
    (byId : JsMap.t (SequenceParticipant num)) (config : ThemeConfig) (s : Z)
    (fromP toP : SequenceParticipant num) (line : string) :
  JsMap.get (sm_from msg) byId = Some fromP ->
  JsMap.get (sm_to msg) byId = Some toP ->
  In line (textLines (sm_label msg)) ->
  Str.Substr (escapeXml line) (flatten (fst (renderMessage msg byId config s))).
Proof.
  intros Hf Ht Hin. unfold renderMessage. rewrite Hf, Ht.
  destruct (sm_isSelfMessage msg); [destruct (gtb (jitterAmount config) (ofZ 0))|];
    run_inner.
  - eapply substr_trans; [| apply substr_rcat; do 4 right; left; reflexivity].
    eapply substr_trans; [| apply substr_rjoin; do 2 right; left; reflexivity].
    apply anchorStart_lines; [reflexivity | exact Hin].
  - eapply substr_trans; [| apply substr_rcat; do 4 right; left; reflexivity].
    eapply substr_trans; [| apply substr_rjoin; do 2 right; left; reflexivity].
    apply anchorStart_lines; [reflexivity | exact Hin].
  - eapply substr_trans; [| apply substr_rcat; do 4 right; left; reflexivity].
    eapply substr_trans; [| apply substr_rjoin; do 3 right; left; reflexivity].
    apply renderText_lines; [reflexivity | exact Hin].
Qed.

Lemma assemble_has_title (width height : num) (title : string) (config : ThemeConfig)
    (parts : list rope) (line : string) :
  title <> EmptyString ->
  In line (textLines title) ->
  Str.Substr (escapeXml line) (assemble width height (Some title) config parts).
Proof.
  intros Hne Hin. unfold assemble, titleOffsetOf, Str.truthyOpt.
  rewrite (truthy_nonempty Hne). cbn [Z.gtb Z.compare].
  eapply substr_trans; [| apply svg_has_element; unfold addElement; cbn [sb_elements];
                          apply in_or_app; left; left; reflexivity].
  unfold renderTitle. apply renderText_lines; [reflexivity | exact Hin].
Qed.

(** X17.  Every element of a flow layout is in the document under its
    escaped id: a node in a group of class node, a group in one of class
    group, an edge with at least two points in one of class edge with its
    escaped end points; the lines of group labels, edge labels and of the
    title are written escaped. *)
Theorem flow_elements_tagged (layout : LayoutResult num) (theme : Theme)
    (title : option string) (s : Z) :
  let text := fst (renderFlowDiagram layout theme title s) in
  (forall n, In n (lr_nodes layout) -> Str.Substr (nodeTag (ln_id n)) text)
  /\ (forall g, In g (lr_groups layout) ->
        Str.Substr (groupTag (lg_id g)) text
        /\ forall label line, lg_label g = Some label -> label <> EmptyString ->
             In line (textLines label) -> Str.Substr (escapeXml line) text)
  /\ (forall e, In e (lr_edges layout) -> (2 <= List.length (le_points e))%nat ->
        Str.Substr (edgeTag (le_from e) (le_to e)) text
        /\ forall label line, le_label e = Some label -> label <> EmptyString ->
             In line (textLines label) -> Str.Substr (escapeXml line) text)
  /\ (forall t line, title = Some t -> t <> EmptyString -> In line (textLines t) ->
        Str.Substr (escapeXml line) text).
Proof.
  cbv zeta. unfold renderFlowDiagram, bind, resetSeed. unfold flowContent, bind.
  set (config := getThemeConfig theme).
  set (byId := JsMap.ofList (@ln_id num) (lr_nodes layout)).
  pose proof (mapM_in (fun g => renderGroup g config) (lr_groups layout) initialSeed) as Hg.
  destruct (mapM _ (lr_groups layout) initialSeed) as [groups s1].
  pose proof (mapM_in (fun e => renderEdge e byId config) (lr_edges layout) s1) as He.
  destruct (mapM _ (lr_edges layout) s1) as [edges s2].
  pose proof (mapMi_in (fun i n => renderShape n config i) (lr_nodes layout) 0 s2) as Hn.
  destruct (mapMi _ 0 (lr_nodes layout) s2) as [nodes s3].
  unfold ret. cbn [fst] in *.
  split; [|split; [|split]].
  - intros n Hin. destruct (Hn n Hin) as (i & s' & Hi).
    eapply substr_trans; [apply renderShape_tag|].
    apply assemble_has_part. rewrite !in_app_iff. right. right. exact Hi.
  - intros g Hin. destruct (Hg g Hin) as (s' & Hi).
    assert (Hpart : Str.Substr (flatten (fst (renderGroup g config s')))
                      (assemble (lr_width layout) (lr_height layout) title config
                                (groups ++ edges ++ nodes)%list)).
    { apply assemble_has_part. rewrite !in_app_iff. left. exact Hi. }
    destruct (renderGroup_shown g config s') as [Htag Hlab]. split.
    + eapply substr_trans; [exact Htag | exact Hpart].
    + intros label line Hl Hne Hline.
      eapply substr_trans; [eapply Hlab; eassumption | exact Hpart].
  - intros e Hin Hlen. destruct (He e Hin) as (s' & Hi).
    assert (Hpart : Str.Substr (flatten (fst (renderEdge e byId config s')))
                      (assemble (lr_width layout) (lr_height layout) title config
                                (groups ++ edges ++ nodes)%list)).
    { apply assemble_has_part. rewrite !in_app_iff. right. left. exact Hi. }
    destruct (renderEdge_shown e byId config s' Hlen) as [Htag Hlab]. split.
    + eapply substr_trans; [exact Htag | exact Hpart].
    + intros label line Hl Hne Hline.
      eapply substr_trans; [eapply Hlab; eassumption | exact Hpart].
  - intros t line -> Hne Hline. now apply assemble_has_title.
Qed.

End ShownElements.

Section ShownInSequence.
Context {N : JsNum}.
Variable elkLayout : FlowLayout.ElkNode -> result string FlowLayout.ElkNode.

Lemma sequence_layout_shown (layout : SequenceLayoutResult num) (theme : Theme)
    (title : option string) (s : Z) :
  let text := fst (renderSequenceDiagram layout theme title s) in
  (forall p line, In p (slr_participants layout) -> In line (textLines (sp_label p)) ->
     Str.Substr (escapeXml line) text)
  /\ (forall m line, In m (slr_messages layout) ->
        In (sm_from m) (map (@sp_id num) (slr_participants layout)) ->
        In (sm_to m) (map (@sp_id num) (slr_participants layout)) ->
        In line (textLines (sm_label m)) ->
        Str.Substr (escapeXml line) text)
  /\ (forall t line, title = Some t -> t <> EmptyString -> In line (textLines t) ->
        Str.Substr (escapeXml line) text).
Proof.
  cbv zeta. unfold renderSequenceDiagram, bind, resetSeed. unfold sequenceContent, bind.
  set (config := getThemeConfig theme).
  set (byId := JsMap.ofList (@sp_id num) (slr_participants layout)).
  destruct (mapM _ (slr_participants layout) initialSeed) as [lifelines s1].
  pose proof (mapM_in (fun m => renderMessage m byId config) (slr_messages layout) s1) as Hm.
  destruct (mapM _ (slr_messages layout) s1) as [messages s2].
  pose proof (mapMi_in (fun i p => renderParticipantBox p (sp_topY p) config i)
                       (slr_participants layout) 0 s2) as Hp.
  destruct (mapMi _ 0 (slr_participants layout) s2) as [top s3].
  destruct (mapMi _ 0 (slr_participants layout) s3) as [bottom s4].
  unfold ret. cbn [fst] in *.
  split; [|split].
  - intros p line Hin Hline. destruct (Hp p Hin) as (i & s' & Hi).
    eapply substr_trans; [apply renderParticipantBox_lines, Hline|].
    apply assemble_has_part. rewrite !in_app_iff. right. right. left. exact Hi.
  - intros m line Hin Hfrom Hto Hline. destruct (Hm m Hin) as (s' & Hi).
    destruct (get_ofList_some (@sp_id num) _ _ Hfrom) as [fromP Hf].
    destruct (get_ofList_some (@sp_id num) _ _ Hto) as [toP Ht].
    eapply substr_trans; [eapply renderMessage_lines; eassumption|].
    apply assemble_has_part. rewrite !in_app_iff. right. left. exact Hi.
  - intros t line -> Hne Hline. now apply assemble_has_title.
Qed.

Lemma seated_in (ps : list ParticipantDef) (topY bottomY c : Z) (p : ParticipantDef) :
  In p ps ->
  exists sp, In sp (seated topY bottomY c ps) /\ sp_label sp = pd_label p.
Proof.
  revert c. induction ps as [|q r IH]; intros c H; [contradiction|].
  destruct H as [->|H].
  - eexists. split; [left; reflexivity | reflexivity].
  - destruct (IH (c + SequenceLayout.computeParticipantWidth (pd_label q) + 60) H)
      as (sp & Hin & Hl).
    exists sp. split; [right; exact Hin | exact Hl].
Qed.

Lemma seated_ids (ps : list ParticipantDef) (topY bottomY c : Z) :
  map (@sp_id Z) (seated topY bottomY c ps) = map pd_id ps.
Proof.
  revert c. induction ps as [|q r IH]; intros c; simpl; [reflexivity|]. now rewrite IH.
Qed.

Lemma laid_in (msgs : list MessageDef) (y : Z) (m : MessageDef) :
  In m msgs ->
  exists sm, In sm (laid y msgs)
    /\ sm_from sm = md_from m /\ sm_to sm = md_to m /\ sm_label sm = md_label m.
Proof.
  revert y. induction msgs as [|q r IH]; intros y H; [contradiction|].
  destruct H as [->|H].
  - eexists. split; [left; reflexivity | repeat split].
  - destruct (IH (y + (if String.eqb (md_from q) (md_to q) then 80 else 50)) H)
      as (sm & Hin & Hs).
    exists sm. split; [right; exact Hin | exact Hs].
Qed.

(** X18.  A sequence diagram always renders, without the layout service,
    and the document shows its texts: the lines of every participant's
    label, of the label of every message between declared participants,
    and of the title, all escaped. *)
Theorem sequence_text_shown (d : SequenceDiagramDef) (s : Z) :
  exists text,
    fst (renderDiagram elkLayout (Sequence d) s) = Ok text
    /\ (forall p line, In p (sd_participants d) -> In line (textLines (pd_label p)) ->
          Str.Substr (escapeXml line) text)
    /\ (forall m line, In m (sd_messages d) ->
          In (md_from m) (map pd_id (sd_participants d)) ->
          In (md_to m) (map pd_id (sd_participants d)) ->
          In line (textLines (md_label m)) ->
          Str.Substr (escapeXml line) text)
    /\ (forall t line, sd_title d = Some t -> t <> EmptyString -> In line (textLines t) ->
          Str.Substr (escapeXml line) text).
Proof.
  unfold renderDiagram, bind.
  set (layout := sequenceToNum (SequenceLayout.layoutSequenceDiagram d)).
  pose proof (sequence_layout_shown layout (sd_style d) (sd_title d) s) as Hshown.
  destruct (renderSequenceDiagram layout (sd_style d) (sd_title d) s) as [text s1].
  cbn [fst ret] in *. exists text. split; [reflexivity|].
  destruct Hshown as (Hp & Hm & Ht).
  destruct (SequenceLayoutExtents.participants_seated d) as (bottomY & Hseated & _).
  assert (Hids : map (@sp_id num) (slr_participants layout) = map pd_id (sd_participants d)).
  { unfold layout, sequenceToNum. cbn [slr_participants].
    rewrite map_map. cbn [participantToNum sp_id].
    rewrite Hseated. rewrite <- (seated_ids (sd_participants d)
                                   (SequenceLayout.startYOf (sd_title d)) bottomY 40).
    reflexivity. }
  split; [|split].
  - intros p line Hin Hline.
    destruct (@seated_in (sd_participants d) (SequenceLayout.startYOf (sd_title d))
                         bottomY 40 p Hin)
      as (sp & Hsp & Hl).
    apply (Hp (participantToNum sp)).
    + unfold layout, sequenceToNum. cbn [slr_participants]. rewrite Hseated.
      apply in_map, Hsp.
    + cbn [participantToNum sp_label]. now rewrite Hl.
  - intros m line Hin Hfrom Hto Hline.
    destruct (@laid_in (sd_messages d) (SequenceLayout.startYOf (sd_title d) + 40 + 50)
                       m Hin)
      as (sm & Hsm & Hf & Hto' & Hl).
    apply (Hm (messageToNum sm)).
    + unfold layout, sequenceToNum. cbn [slr_messages].
      apply in_map. unfold SequenceLayout.layoutSequenceDiagram. cbn [slr_messages].
      rewrite SequenceLayoutProperties.layoutMessagesOf_laid. exact Hsm.
    + rewrite Hids. cbn [messageToNum sm_from]. now rewrite Hf.
    + rewrite Hids. cbn [messageToNum sm_to]. now rewrite Hto'.
    + cbn [messageToNum sm_label]. now rewrite Hl.
  - exact Ht.
Qed.

End ShownInSequence.

(* ------------------------------------------------------------------ *)
(** ** The engine *)

Section EngineOutcomes.
Context {N : JsNum}.
Variable elkLayout : FlowLayout.ElkNode -> result string FlowLayout.ElkNode.
Variable svgToPng : string -> result string string.

(** what is returned for a rendered text [svg] *)
Lemma generate_of_render (input : json) (d : DiagramDef) (wantPng : bool) (s s' : Z)
    (svg : string) :
  parseDiagram input = Ok d ->
  renderDiagram elkLayout d s = (Ok svg, s') ->
  generateDiagram elkLayout svgToPng input wantPng s
  = (if wantPng then
       match svgToPng svg with
       | Ok bytes => Ok (mkGenerateResult svg (Some bytes))
       | Err reason => Err (PngFailure reason)
       end
     else Ok (mkGenerateResult svg None), s').
Proof.
  intros Hp Hr. unfold generateDiagram, bind. rewrite Hp, Hr. reflexivity.
Qed.

(** X19.  What [generateDiagram] answers.  An input the schema rejects is
    reported as a schema failure and a failure of the layout service as a
    layout failure, in both cases before anything is rendered (the
    generator is not even reset).  Otherwise the text of the renderer is
    the SVG: it is returned alone when no PNG is asked for; when one is
    asked for, the rasteriser is run on that very text, its answer is
    returned with the SVG, and its failure is the failure of the call.
    A sequence diagram fails in no other way. *)
Theorem generateDiagram_outcomes :
  (forall input e wantPng s,
     parseDiagram input = Err e ->
     generateDiagram elkLayout svgToPng input wantPng s = (Err (SchemaFailure e), s))
  /\ (forall d reason wantPng s,
        elkLayout (FlowLayout.buildRootGraph d) = Err reason ->
        generateDiagram elkLayout svgToPng (flowToJson d) wantPng s
        = (Err (LayoutFailure reason), s))
  /\ (forall d answer s svg s',
        elkLayout (FlowLayout.buildRootGraph d) = Ok answer ->
        renderFlowDiagram (FlowLayout.readLayout d answer) (fd_style d) (fd_title d) s
        = (svg, s') ->
        generateDiagram elkLayout svgToPng (flowToJson d) false s
        = (Ok (mkGenerateResult svg None), s')
        /\ generateDiagram elkLayout svgToPng (flowToJson d) true s
           = (match svgToPng svg with
              | Ok bytes => Ok (mkGenerateResult svg (Some bytes))
              | Err reason => Err (PngFailure reason)
              end, s'))
  /\ (forall d s svg s',
        renderSequenceDiagram (sequenceToNum (SequenceLayout.layoutSequenceDiagram d))
                              (sd_style d) (sd_title d) s
        = (svg, s') ->
        generateDiagram elkLayout svgToPng (sequenceToJson d) false s
        = (Ok (mkGenerateResult svg None), s')
        /\ generateDiagram elkLayout svgToPng (sequenceToJson d) true s
           = (match svgToPng svg with
              | Ok bytes => Ok (mkGenerateResult svg (Some bytes))
              | Err reason => Err (PngFailure reason)
              end, s')).
Proof.
  split; [|split; [|split]].
  - intros input e wantPng s H. unfold generateDiagram. now rewrite H.
  - intros d reason wantPng s H. unfold generateDiagram. rewrite flow_roundtrip.
    unfold renderDiagram, FlowLayout.layoutFlowDiagram, bind. rewrite H. reflexivity.
  - intros d answer s svg s' H Hr.
    assert (Hd : renderDiagram elkLayout (Flow d) s = (Ok svg, s')).
    { unfold renderDiagram, FlowLayout.layoutFlowDiagram, bind. rewrite H. cbn [rbind].
      now rewrite Hr. }
    pose proof (fun w => @generate_of_render (flowToJson d) (Flow d) w s s' svg
                                  (flow_roundtrip d) Hd) as G.
    split; [exact (G false) | exact (G true)].
  - intros d s svg s' Hr.
    assert (Hd : renderDiagram elkLayout (Sequence d) s = (Ok svg, s')).
    { unfold renderDiagram, bind. now rewrite Hr. }
    pose proof (fun w => @generate_of_render (sequenceToJson d) (Sequence d) w s s' svg
                                  (sequence_roundtrip d) Hd) as G.
    split; [exact (G false) | exact (G true)].
Qed.

End EngineOutcomes.

(* ------------------------------------------------------------------ *)
(** ** The frame of the document *)

Section Frame.
Context {N : JsNum}.

Lemma flatten_attr_rope (name : string) (r : rope) :
  flatten (attr name r) = attrText name (flatten r).
Proof.
  unfold attr, attrText. rewrite !flatten_rcat_cons, !flatten_lit.
  change (flatten (rcat [])) with EmptyString.
  now rewrite append_nil_r, !append_assoc.
Qed.

Lemma flatten_pl (v : num) : flatten (pl v) = toStr v.
Proof. simpl. apply append_nil_r. Qed.

Lemma rjoin_cons (sep : string) (a b : rope) (l : list rope) :
  flatten (rjoin sep (a :: b :: l)) = flatten a ++ sep ++ flatten (rjoin sep (b :: l)).
Proof.
  change (rjoin sep (a :: b :: l)) with (rcat [a; lit sep; rjoin sep (b :: l)]).
  rewrite !flatten_rcat_cons, flatten_lit. change (flatten (rcat [])) with EmptyString.
  now rewrite append_nil_r.
Qed.

Lemma rjoin_last (sep : string) (l : list rope) (c : rope) :
  exists body, flatten (rjoin sep (l ++ [c])) = body ++ flatten c.
Proof.
  induction l as [|a l [body IH]].
  - exists EmptyString. reflexivity.
  - destruct l as [|b l].
    + exists (flatten a ++ sep). cbn [app]. rewrite rjoin_cons. cbn [rjoin].
      now rewrite append_assoc.
    + exists (flatten a ++ sep ++ body).
      change ((a :: b :: l) ++ [c])%list with (a :: b :: (l ++ [c]))%list.
      rewrite rjoin_cons. change (b :: (l ++ [c]))%list with ((b :: l) ++ [c])%list.
      rewrite IH. now rewrite !append_assoc.
Qed.

Lemma frame_join (a b c : rope) (els : list rope) :
  exists body,
    flatten (rjoin Str.nl ([a] ++ [] ++ [b] ++ els ++ [c])%list)
    = flatten a ++ Str.nl ++ flatten b ++ body ++ flatten c.
Proof.
  destruct (rjoin_last Str.nl els c) as [tail Ht].
  destruct els as [|e els']; cbn [app] in *.
  - exists Str.nl. rewrite !rjoin_cons. reflexivity.
  - exists (Str.nl ++ tail). rewrite 2!rjoin_cons, Ht. now rewrite !append_assoc.
Qed.

Lemma svgToString_frame (b : SvgBuilder) :
  sb_defs b = [] ->
  exists body,
    svgToString b
    = svgOpen (sb_width b) (sb_height b) ++ Str.nl
      ++ background (sb_width b) (sb_height b) ++ body ++ "</svg>".
Proof.
  intros Hd. unfold svgToString, svgParts. rewrite Hd.
  match goal with
  | |- exists body, flatten (rjoin _ ([?a] ++ [] ++ [?b] ++ ?els ++ [?c])%list) = _ =>
      destruct (frame_join a b c els) as [body Hb]; exists body; rewrite Hb
  end.
  unfold svgOpen, background.
  rewrite !flatten_rcat_cons, !flatten_attr_rope, !flatten_rcat_cons, !flatten_pl,
    !flatten_lit.
  change (flatten (rcat [])) with EmptyString.
  rewrite !append_nil_r, !append_assoc. reflexivity.
Qed.

Lemma fold_addElement (parts : list rope) (b : SvgBuilder) :
  let b' := fold_left (fun b0 part => addElement part b0) parts b in
  sb_defs b' = sb_defs b /\ sb_width b' = sb_width b /\ sb_height b' = sb_height b.
Proof.
  revert b. induction parts as [|p parts IH]; intros b; simpl; [auto|].
  destruct (IH (addElement p b)) as (H1 & H2 & H3). auto.
Qed.

Lemma assemble_frame (width height : num) (title : option string) (config : ThemeConfig)
    (parts : list rope) :
  exists body,
    assemble width height title config parts
    = svgOpen width (documentHeight height title) ++ Str.nl
      ++ background width (documentHeight height title) ++ body ++ "</svg>".
Proof.
  unfold assemble, documentHeight, titleOffsetOf.
  match goal with
  | |- exists body, svgToString ?b = _ =>
      assert (H : sb_defs b = [] /\ sb_width b = width
                  /\ sb_height b = nadd height (ofZ (if Str.truthyOpt title then 40 else 0)));
      [| destruct H as (Hd & Hw & Hh); destruct (svgToString_frame b Hd) as [body Hb];
         exists body; rewrite Hb, Hw, Hh; reflexivity ]
  end.
  destruct (_ >? 0)%Z.
  - destruct title as [t|]; [destruct (Str.truthy t)|]; repeat split.
  - match goal with
    | |- context [fold_left _ parts ?b0] =>
        destruct (fold_addElement parts b0) as (H1 & H2 & H3)
    end.
    cbv zeta in H1, H2, H3. rewrite H1, H2, H3.
    destruct title as [t|]; [destruct (Str.truthy t)|]; repeat split.
Qed.

(** X20.  Both renderers return one [svg] element: the text starts with
    the opening tag that declares the SVG namespace and the size (the
    layout's width; the layout's height, plus 40 when there is a
    non-empty title), goes on with a white rectangle of that size, has no
    [defs], and ends with the closing tag. *)
Theorem document_frame (flow : LayoutResult num) (sequence : SequenceLayoutResult num)
    (theme : Theme) (title : option string) (s : Z) :
  (exists body,
     fst (renderFlowDiagram flow theme title s)
     = svgOpen (lr_width flow) (documentHeight (lr_height flow) title) ++ Str.nl
       ++ background (lr_width flow) (documentHeight (lr_height flow) title)
       ++ body ++ "</svg>")
  /\ (exists body,
        fst (renderSequenceDiagram sequence theme title s)
        = svgOpen (slr_width sequence) (documentHeight (slr_height sequence) title) ++ Str.nl
          ++ background (slr_width sequence) (documentHeight (slr_height sequence) title)
          ++ body ++ "</svg>").
Proof.
  split.
  - unfold renderFlowDiagram, bind, resetSeed.
    destruct (flowContent flow (getThemeConfig theme) initialSeed) as [parts s1].
    unfold ret. cbn [fst]. apply assemble_frame.
  - unfold renderSequenceDiagram, bind, resetSeed.
    destruct (sequenceContent sequence (getThemeConfig theme) initialSeed) as [parts s1].
    unfold ret. cbn [fst]. apply assemble_frame.
Qed.

End Frame.

(* ------------------------------------------------------------------ *)
(** ** Line styles *)

Section Dashes.
Context {N : JsNum}.

Ltac run_inner :=
  try unfold bind; try unfold ret;
  repeat match goal with
         | |- context [match ?m with pair _ _ => _ end] =>
             lazymatch m with
             | context [match _ with pair _ _ => _ end] => fail
             | _ => destruct m
             end
         end;
  cbn [fst].

Lemma dashAttr_flat (d : string) :
  d <> EmptyString -> flatten (dashAttr (Some d)) = attrText "stroke-dasharray" d.
Proof. intros H. unfold dashAttr. rewrite (truthy_nonempty H). apply flatten_attr. Qed.

Lemma sketchyLine_dash (x1 y1 x2 y2 : num) (config : ThemeConfig) (strokeColor d : string)
    (s : Z) :
  d <> EmptyString ->
  Str.Substr (attrText "stroke-dasharray" d)
             (flatten (fst (sketchyLine x1 y1 x2 y2 config strokeColor (Some d) s))).
Proof.
  intros H. rewrite <- (dashAttr_flat H). unfold sketchyLine.
  destruct (gtb (jitterAmount config) (ofZ 0)); [destruct (doubleStroke config)|];
    run_inner;
    (eapply substr_trans; [| apply substr_rjoin; left; reflexivity]);
    apply substr_rcat; cbn [In]; tauto.
Qed.

Lemma sketchyPolyline_dash (points : list (XY num)) (config : ThemeConfig)
    (strokeColor d : string) (s : Z) :
  (2 <= List.length points)%nat -> d <> EmptyString ->
  Str.Substr (attrText "stroke-dasharray" d)
             (flatten (fst (sketchyPolyline points config strokeColor (Some d) s))).
Proof.
  intros Hlen H. unfold sketchyPolyline.
  destruct (Nat.ltb_spec (List.length points) 2) as [Hlt|_]; [lia|].
  destruct points as [|a [|b rest]]; simpl in Hlen; try lia.
  assert (Hin : In (a, b) (adjacent (a :: b :: rest))) by (left; reflexivity).
  destruct (mapM_in (fun ab : XY num * XY num =>
                       let (p, q) := ab in
                       sketchyLine (xy_x p) (xy_y p) (xy_x q) (xy_y q) config strokeColor
                                   (Some d))
                    (adjacent (a :: b :: rest)) s (a, b) Hin) as [s1 Hs1].
  unfold bind. destruct (mapM _ (adjacent (a :: b :: rest)) s) as [segments s2].
  unfold ret. cbn [fst] in *.
  eapply substr_trans; [| apply substr_rjoin, Hs1].
  now apply sketchyLine_dash.
Qed.

(** X21.  The style of an edge shows in its line: every drawn edge (two
    points or more) of style dashed carries the dash pattern 8,4 and
    every dotted one the pattern 3,3, in every theme, and a lifeline is
    always dashed 6,4. *)
Theorem edge_style_dashes (edge : LayoutEdge num) (nodesById : JsMap.t (LayoutNode num))
    (participant : SequenceParticipant num) (config : ThemeConfig) (s : Z) :
  (2 <= List.length (le_points edge))%nat ->
  (le_style edge = dashed ->
   Str.Substr (attrText "stroke-dasharray" "8,4")
              (flatten (fst (renderEdge edge nodesById config s))))
  /\ (le_style edge = dotted ->
      Str.Substr (attrText "stroke-dasharray" "3,3")
                 (flatten (fst (renderEdge edge nodesById config s))))
  /\ Str.Substr (attrText "stroke-dasharray" "6,4")
                (flatten (fst (renderLifeline participant config s))).
Proof.
  intros Hlen.
  assert (Hedge : forall d, getDashArray (le_style edge) = Some d -> d <> EmptyString ->
            Str.Substr (attrText "stroke-dasharray" d)
                       (flatten (fst (renderEdge edge nodesById config s)))).
  { intros d Hd Hne. unfold renderEdge.
    destruct (Nat.ltb_spec (List.length (le_points edge)) 2) as [Hlt|_]; [lia|].
    rewrite Hd. unfold bind at 1.
    pose proof (@sketchyPolyline_dash (le_points edge) config
                  (match le_color edge with Some c => c | None => "#666666" end) d s
                  Hlen Hne) as Hline.
    destruct (sketchyPolyline (le_points edge) config _ (Some d) s) as [line s1].
    cbn [fst] in Hline. destruct (le_direction edge); run_inner;
    (eapply substr_trans; [exact Hline|]);
    (eapply substr_trans; [| apply substr_rcat; do 6 right; left; reflexivity]);
    apply substr_rjoin; left; reflexivity. }
  split; [|split].
  - intros E. apply Hedge; [now rewrite E | discriminate].
  - intros E. apply Hedge; [now rewrite E | discriminate].
  - unfold renderLifeline. apply sketchyLine_dash. discriminate.
Qed.

End Dashes.

Lemma edge_style_dashes_witness :
  Str.Substr (attrText "stroke-dasharray" "8,4")
    (flatten (fst (renderEdge
                     (mkLayoutEdge "a" "b" None dashed forward None
                        [mkXY (ofZ (N:=Exact.exact) 0) (ofZ (N:=Exact.exact) 0);
                         mkXY (ofZ (N:=Exact.exact) 10) (ofZ (N:=Exact.exact) 0)])
                     [] (getThemeConfig clean) 42))).
Proof.
  refine (proj1 (@edge_style_dashes Exact.exact
                   (mkLayoutEdge "a" "b" None dashed forward None
                      [mkXY (ofZ (N:=Exact.exact) 0) (ofZ (N:=Exact.exact) 0);
                       mkXY (ofZ (N:=Exact.exact) 10) (ofZ (N:=Exact.exact) 0)])
                   [] client (getThemeConfig clean) 42 _) eq_refl).
  simpl. lia.
Defined.

(* ------------------------------------------------------------------ *)
(** ** Messages without a participant: what is still drawn *)

Section DanglingMessagesDrawn.
Context {N : JsNum}.

Ltac run_inner :=
  try unfold bind; try unfold ret;
  repeat match goal with
         | |- context [match ?m with pair _ _ => _ end] =>
             lazymatch m with
             | context [match _ with pair _ _ => _ end] => fail
             | _ => destruct m
             end
         end;
  cbn [fst].

Lemma mapM_forall2 {A B : Type} (f : A -> M B) (P : A -> B -> Prop) (l : list A) (s : Z) :
  (forall a s0, P a (fst (f a s0))) -> Forall2 P l (fst (mapM f l s)).
Proof.
  intros H. revert s. induction l as [|a l IH]; intros s; simpl; [constructor|].
  unfold bind. pose proof (H a s) as Ha. destruct (f a s) as [b s1].
  specialize (IH s1). destruct (mapM f l s1) as [bs s2]. simpl in *. now constructor.
Qed.

Lemma mapMi_forall2 {A B : Type} (f : nat -> A -> M B) (P : A -> B -> Prop) (l : list A)
    (i : nat) (s : Z) :
  (forall k a s0, P a (fst (f k a s0))) -> Forall2 P l (fst (mapMi f i l s)).
Proof.
  intros H. revert i s. induction l as [|a l IH]; intros i s; simpl; [constructor|].
  unfold bind. pose proof (H i a s) as Ha. destruct (f i a s) as [b s1].
  specialize (IH (S i) s1). destruct (mapMi f (S i) l s1) as [bs s2]. simpl in *.
  now constructor.
Qed.

Lemma messageTag_flat :
  flatten (rcat [lit "<g"; attr "class" (lit "message"); lit ">"]) = messageTag.
Proof.
  rewrite !flatten_rcat_cons, !flatten_attr, !flatten_lit.
  change (flatten (rcat [])) with EmptyString. now rewrite append_nil_r.
Qed.

Lemma prefix_rcat (pre rest : list rope) :
  String.prefix (flatten (rcat pre)) (flatten (rcat (pre ++ rest))) = true.
Proof. unfold rcat. rewrite concat_app, flatten_app. apply prefix_app. Qed.

Lemma renderMessage_drawn (msg : SequenceMessage num)
    (participants : list (SequenceParticipant num)) (config : ThemeConfig) (s : Z) :
  drawnMessage (map (@sp_id num) participants) msg
               (fst (renderMessage msg (JsMap.ofList (@sp_id num) participants) config s)).
Proof.
  intros Hfrom Hto.
  destruct (get_ofList_some (@sp_id num) _ _ Hfrom) as [fromP Hf].
  destruct (get_ofList_some (@sp_id num) _ _ Hto) as [toP Ht].
  split.
  - unfold renderMessage. rewrite Hf, Ht. unfold bind at 1.
    match goal with
    | |- context [match ?m with pair _ _ => _ end] => destruct m as [parts s1]
    end.
    unfold ret. cbn [fst]. rewrite <- messageTag_flat.
    apply (prefix_rcat [_; _; _]).
  - intros line Hline. eapply renderMessage_lines; eassumption.
Qed.

Lemma renderLifeline_drawn (p : SequenceParticipant num) (config : ThemeConfig) (s : Z) :
  drawnLifeline p (fst (renderLifeline p config s)).
Proof. unfold drawnLifeline, renderLifeline. apply sketchyLine_dash. discriminate. Qed.

Lemma renderParticipantBox_drawn (p : SequenceParticipant num) (yTop : num)
    (config : ThemeConfig) (i : nat) (s : Z) :
  drawnBox p (fst (renderParticipantBox p yTop config i s)).
Proof. intros line Hline. now apply renderParticipantBox_lines. Qed.

(** C8.  A message whose [from] or [to] names no participant is skipped:
    [renderMessage] returns the empty string for it and draws no random
    number.  The lifelines, the other messages and the participant boxes
    come out exactly as if the message were not there (its place in the
    content holds an empty entry), and each of them is part of the
    document.  They are still drawn: the entry of every other message
    whose two ends are participants is a group of class message that
    holds the lines of its label, every lifeline is its dashed line, and
    the two boxes of every participant hold its label. *)
Theorem dangling_message_skipped (layout : SequenceLayoutResult num) (theme : Theme)
    (title : option string) (before after : list (SequenceMessage num))
    (msg : SequenceMessage num) (s : Z) :
  slr_messages layout = (before ++ msg :: after)%list ->
  ~ In (sm_from msg) (map (@sp_id num) (slr_participants layout))
  \/ ~ In (sm_to msg) (map (@sp_id num) (slr_participants layout)) ->
  let config := getThemeConfig theme in
  let ids := map (@sp_id num) (slr_participants layout) in
  let byId := JsMap.ofList (@sp_id num) (slr_participants layout) in
  let without := mkSequenceLayoutResult (slr_width layout) (slr_height layout)
                                        (slr_participants layout) (before ++ after)%list in
  renderMessage msg byId config s = ([], s)
  /\ exists lifelines r1 r2 top bottom s',
       sequenceContent layout config initialSeed
       = ((lifelines ++ r1 ++ [[]] ++ r2 ++ top ++ bottom)%list, s')
       /\ sequenceContent without config initialSeed
          = ((lifelines ++ r1 ++ r2 ++ top ++ bottom)%list, s')
       /\ Forall2 drawnLifeline (slr_participants layout) lifelines
       /\ Forall2 (drawnMessage ids) before r1
       /\ Forall2 (drawnMessage ids) after r2
       /\ Forall2 drawnBox (slr_participants layout) top
       /\ Forall2 drawnBox (slr_participants layout) bottom
       /\ forall part, In part (lifelines ++ r1 ++ r2 ++ top ++ bottom)%list ->
            Str.Substr (flatten part) (fst (renderSequenceDiagram layout theme title s)).
Proof.
  intros Hm Hd config ids byId without.
  pose proof (fun s0 => renderMessage_dangling msg (slr_participants layout) config s0 Hd)
    as Hskip.
  split; [apply Hskip|].
  set (life := fun p : SequenceParticipant num => renderLifeline p config).
  set (message := fun m : SequenceMessage num => renderMessage m byId config).
  set (boxTop := fun (i : nat) (p : SequenceParticipant num) =>
                   renderParticipantBox p (sp_topY p) config i).
  set (boxBottom := fun (i : nat) (p : SequenceParticipant num) =>
                      renderParticipantBox p (sp_bottomY p) config i).
  pose proof (mapM_forall2 life drawnLifeline (slr_participants layout) initialSeed
                (fun p s0 => renderLifeline_drawn p config s0)) as Fl.
  destruct (mapM life (slr_participants layout) initialSeed) as [lifelines s1] eqn:E1.
  pose proof (mapM_forall2 message (drawnMessage ids) before s1
                (fun m s0 => renderMessage_drawn m (slr_participants layout) config s0))
    as F1.
  destruct (mapM message before s1) as [r1 s2] eqn:E2.
  pose proof (mapM_forall2 message (drawnMessage ids) after s2
                (fun m s0 => renderMessage_drawn m (slr_participants layout) config s0))
    as F2.
  destruct (mapM message after s2) as [r2 s3] eqn:E3.
  pose proof (mapMi_forall2 boxTop drawnBox (slr_participants layout) 0 s3
                (fun k p s0 => renderParticipantBox_drawn p (sp_topY p) config k s0)) as Ft.
  destruct (mapMi boxTop 0 (slr_participants layout) s3) as [top s4] eqn:E4.
  pose proof (mapMi_forall2 boxBottom drawnBox (slr_participants layout) 0 s4
                (fun k p s0 => renderParticipantBox_drawn p (sp_bottomY p) config k s0))
    as Fb.
  destruct (mapMi boxBottom 0 (slr_participants layout) s4) as [bottom s5] eqn:E5.
  cbn [fst] in *.
  exists lifelines, r1, r2, top, bottom, s5.
  assert (Hmsg : mapM message (before ++ msg :: after) s1 = ((r1 ++ [] :: r2)%list, s3)).
  { rewrite mapM_app, E2. cbn [mapM]. unfold bind, ret.
    unfold message at 1. unfold byId at 1. rewrite Hskip. rewrite E3. reflexivity. }
  assert (Hrest : mapM message (before ++ after) s1 = ((r1 ++ r2)%list, s3)).
  { rewrite mapM_app, E2, E3. reflexivity. }
  assert (Hc : sequenceContent layout config initialSeed
               = ((lifelines ++ r1 ++ [[]] ++ r2 ++ top ++ bottom)%list, s5)).
  { unfold sequenceContent, bind, ret. fold byId life message boxTop boxBottom.
    rewrite Hm, E1, Hmsg, E4, E5. now rewrite <- !app_assoc. }
  split; [exact Hc|]. split.
  { unfold sequenceContent, bind, ret. cbn [slr_participants slr_messages without].
    fold byId life message boxTop boxBottom.
    rewrite E1, Hrest, E4, E5. now rewrite <- !app_assoc. }
  repeat (split; [assumption|]).
  intros part Hpart.
  unfold renderSequenceDiagram, bind, resetSeed. fold config. rewrite Hc.
  unfold ret. cbn [fst]. apply assemble_has_part.
  rewrite !in_app_iff in *. simpl. tauto.
Qed.

End DanglingMessagesDrawn.

Lemma dangling_message_skipped_witness :
  renderMessage stray (JsMap.ofList (@sp_id _) (slr_participants strayLayout))
                (getThemeConfig hand_drawn) 42 = ([], 42)
  /\ exists part,
       In part (fst (sequenceContent strayLayout (getThemeConfig hand_drawn) initialSeed))
       /\ String.prefix messageTag (flatten part) = true
       /\ Str.Substr "request" (flatten part).
Proof.
  assert (Hd : ~ In (sm_from stray) (map (@sp_id _) (slr_participants strayLayout))
               \/ ~ In (sm_to stray) (map (@sp_id _) (slr_participants strayLayout))).
  { left. simpl. intros [H|[H|[]]]; discriminate H. }
  destruct (@dangling_message_skipped Exact.exact strayLayout hand_drawn None
              [request] [response] stray 42 eq_refl Hd)
    as (Hskip & lifelines & r1 & r2 & top & bottom & s' & Hc & _ & _ & F1 & _).
  split; [exact Hskip|].
  inversion F1 as [|m part ms parts Hdrawn Hrest]; subst.
  exists part. rewrite Hc. split.
  - apply in_or_app. right. left. reflexivity.
  - destruct Hdrawn as [Htag Hlines].
    + left. reflexivity.
    + right. left. reflexivity.
    + split; [exact Htag|]. apply (Hlines "request"). left. reflexivity.
Defined.

(* ------------------------------------------------------------------ *)
(** ** The positions of the answer *)

Module FlowPositions.
Import FlowLayout.

Section WithNumbers.
Context {N : JsNum}.

(** induction over the answer: a property holds of a node when it holds
    of its children *)
Lemma ElkNode_tree_ind (P : ElkNode -> Prop) :
  (forall n, (forall cs c, en_children n = Some cs -> In c cs -> P c) -> P n) ->
  forall n, P n.
Proof.
  intros H. fix IH 1. intros n. apply H.
  destruct n as [id x y w h labels options children edges]. cbn [en_children].
  intros cs c E Hin. destruct children as [l|]; [|discriminate E].
  injection E as <-. revert c Hin.
  induction l as [|a r IHr]; intros c Hin; [destruct Hin|].
  destruct Hin as [<-|Hin]; [apply IH | apply IHr, Hin].
Qed.

Lemma walkNodes_eq (node : ElkNode) (ox oy : num) (m : JsMap.t Box) :
  walkNodes node ox oy m
  = match en_children node with
    | Some cs => fold_left (nodeStep ox oy) cs m
    | None => m
    end.
Proof.
  destruct node as [id x y w h labels options [cs|] edges]; [|reflexivity].
  cbn [walkNodes en_children]. revert m.
  induction cs as [|c cs IH]; intros m; [reflexivity|].
  cbn [fold_left]. rewrite IH. reflexivity.
Qed.


Lemma collectGroupPositions_eq (root : ElkNode) :
  collectGroupPositions root
  = match en_children root with
    | Some cs => fold_left groupStep cs JsMap.empty
    | None => JsMap.empty
    end.
Proof. reflexivity. Qed.

(** *** Loops that fill a map *)

Lemma fold_sound {A V : Type} (step : JsMap.t V -> A -> JsMap.t V) (cs : list A)
    (Q : V -> Prop) (id : string) :
  (forall c m v, In c cs -> JsMap.get id (step m c) = Some v ->
                 JsMap.get id m = Some v \/ Q v) ->
  forall m v, JsMap.get id (fold_left step cs m) = Some v ->
              JsMap.get id m = Some v \/ Q v.
Proof.
  induction cs as [|c cs IH]; intros Hstep m v H; [now left|].
  cbn [fold_left] in H. apply IH in H.
  - destruct H as [H|H]; [|now right]. apply Hstep in H; [exact H | now left].
  - intros c' m' v' Hin. apply Hstep. now right.
Qed.




(** *** Nodes *)

Lemma walkNodes_sound (node : ElkNode) :
  forall ox oy m id b,
    JsMap.get id (walkNodes node ox oy m) = Some b ->
    JsMap.get id m = Some b
    \/ exists c px py, leafAt node ox oy c px py /\ en_id c = id /\ b = boxAt c px py.
Proof.
  induction node as [node IH] using ElkNode_tree_ind. intros ox oy m id b.
  rewrite walkNodes_eq. destruct (en_children node) as [cs|] eqn:E; [|now left].
  apply (@fold_sound _ _ (nodeStep ox oy) cs
           (fun v => exists c px py, leafAt node ox oy c px py /\ en_id c = id
                                     /\ v = boxAt c px py) id).
  intros c m' v Hin H. unfold nodeStep in H.
  destruct (isCompound c) eqn:Ec.
  - apply (IH cs c eq_refl Hin) in H. destruct H as [H|(c' & px & py & Hl & Hid & Hb)];
      [now left|].
    right. exists c', px, py. split; [|now split]. eapply leaf_below; eassumption.
  - destruct (String.eqb_spec id (en_id c)) as [->|Hne].
    + rewrite get_set_same in H. injection H as <-. right.
      exists c, ox, oy. split; [|now split]. eapply leaf_here; eassumption.
    + rewrite (get_set_other _ _ Hne) in H. now left.
Qed.





Lemma node_unpositioned (answer : ElkNode) (id : string) :
  (forall c px py, leafAt answer (ofZ 0) (ofZ 0) c px py -> en_id c <> id) ->
  JsMap.get id (collectNodePositions answer) = None.
Proof.
  intros Hno. unfold collectNodePositions.
  destruct (JsMap.get id (walkNodes answer (ofZ 0) (ofZ 0) JsMap.empty)) as [b|] eqn:Hb;
    [|reflexivity].
  apply walkNodes_sound in Hb. destruct Hb as [Hb|(c & px & py & Hl & Hid & _)].
  - discriminate Hb.
  - now elim (Hno _ _ _ Hl).
Qed.

(** *** Groups *)


Lemma group_unpositioned (answer : ElkNode) (id : string) :
  (forall cs g, en_children answer = Some cs -> In g cs -> isCompound g = true ->
                en_id g <> id) ->
  JsMap.get id (collectGroupPositions answer) = None.
Proof.
  intros Hno. rewrite collectGroupPositions_eq.
  destruct (en_children answer) as [cs|] eqn:E; [|reflexivity].
  destruct (JsMap.get id (fold_left groupStep cs JsMap.empty)) as [b|] eqn:Hb; [|reflexivity].
  apply (@fold_sound _ _ groupStep cs (fun _ => False) id) in Hb.
  - destruct Hb as [Hb|[]]. discriminate Hb.
  - intros c' m v Hin' H. unfold groupStep in H. destruct (isCompound c') eqn:Ec; [|now left].
    destruct (String.eqb_spec id (en_id c')) as [Heq|Hne].
    + now elim (Hno cs c' eq_refl Hin' Ec).
    + rewrite (get_set_other _ _ Hne) in H. now left.
Qed.

(** *** Edges *)








Variable elkLayout : ElkNode -> result string ElkNode.


End WithNumbers.

End FlowPositions.
